(** * Draupnir: routing trie, pattern matcher, dispatcher, rate limiter,
      worker pool and WebSocket engine

    A shallow embedding of the Go sources ([router.go] with the [tree]
    package, [ws.go], [wp.go] and the constructors and limiter of
    [example/wschat.go]) together with the properties the specification
    states about them.

    Conventions.
    - A Go [string] is a sequence of bytes: [list ascii].
    - A Go [map[byte]*Node] is a [gmap ascii Node]; in-place mutation of a
      node reached through a pointer is written as the functional update of
      the map entry that holds the pointer.
    - Go [int] values that never leave [0, 2^63) are [Z]. *)

From Stdlib Require Import ZArith Ascii String Lia.
From stdpp Require Import gmap strings list fin_maps.

#[local] Set Warnings "-register-all".
#[local] Open Scope list_scope.

(** Go strings. *)
Abbreviation str := (list ascii).

(** String literals for examples. *)
Definition s2b (s : string) : str := list_ascii_of_string s.

(* ===================================================================== *)
(** * The radix tree ([package tree]) *)
(* ===================================================================== *)

Module Radix.
Section Radix.
Context {V : Type}.

(** [type Node struct { key; value; hasValue; children }].  The pair
    [value]/[hasValue] is one [option V]: the source resets [value] to
    [nil] whenever it clears [hasValue] and copies the two together. *)
Inductive Node : Type :=
  mkNode { key : str; value : option V; children : gmap ascii Node }.

Definition hasValue (n : Node) : bool := bool_decide (is_Some (value n)).

(** Assignment to [n.children] / to an entry of it. *)
Definition with_children (n : Node) (ch : gmap ascii Node) : Node :=
  mkNode (key n) (value n) ch.

Definition set_child (n : Node) (b : ascii) (c : Node) : Node :=
  with_children n (<[b := c]> (children n)).

Definition del_child (n : Node) (b : ascii) : Node :=
  with_children n (base.delete b (children n)).

(** [type Tree struct { root *Node; size int }]. *)
Record Tree : Type := mkTree { root : Node; tsize : Z }.

(** [func New() *Tree]. *)
Definition New : Tree := mkTree (mkNode [] None ∅) 0.

(** [func commonPrefixLen(a, b string) int]: the loop
    [for i < max && a[i] == b[i] { i++ }]. *)
Fixpoint commonPrefixLen (a b : str) : nat :=
  match a, b with
  | x :: a', y :: b' =>
      if decide (x = y) then S (commonPrefixLen a' b') else 0
  | _, _ => 0
  end.

(** A fresh leaf [&Node{key, value, hasValue: true, children: make(...)}]. *)
Definition leaf (k : str) (v : V) : Node := mkNode k (Some v) ∅.

(** [func (t *Tree) insert(n *Node, key string, value any)].

    The result is the node [n] after the call.  The recursion descends
    into the child found under [key[0]]; it is written through [fmap] on
    the children so that it is structural ([insert_unfold] below gives the
    direct form).  [key[0]] on an empty key and [childSuffix[0]] on an
    empty suffix would panic in Go; neither is reachable ([Insert] rejects
    the empty key, a remainder [key[prefixLen:]] is taken only when
    [prefixLen < len(key)], and the last case has
    [prefixLen < len(c.key)]), so those branches return [n]. *)
Fixpoint insert (n : Node) (k : str) (v : V) {struct n} : Node :=
  match k with
  | [] => n
  | b :: _ =>
    if decide (size (children n) = 0) then set_child n b (leaf k v)
    else
      match ((λ c, (c, insert c)) <$> children n) !! b with
      | None => set_child n b (leaf k v)
      | Some (c, insert_c) =>
        let prefixLen := commonPrefixLen k (key c) in
        if decide (prefixLen = length k ∧ prefixLen = length (key c)) then
          (* the key is already in the tree *)
          set_child n b (mkNode (key c) (Some v) (children c))
        else if decide (prefixLen = length k) then
          (* the key is a prefix of the child key: split the child *)
          let childSuffix := drop prefixLen (key c) in
          let sub :=
            match childSuffix with
            | [] => ∅
            | b' :: _ =>
                {[ b' := mkNode childSuffix (value c) (children c) ]}
            end in
          set_child n b (mkNode k (Some v) sub)
        else if decide (prefixLen = length (key c)) then
          (* the child key is a prefix of the key: recurse *)
          set_child n b (insert_c (drop prefixLen k) v)
        else
          (* neither is a prefix of the other: split at the common prefix *)
          let childSuffix := drop prefixLen (key c) in
          let keySuffix := drop prefixLen k in
          match childSuffix with
          | [] => n
          | cb :: _ =>
            let moved := mkNode childSuffix (value c) (children c) in
            let newNode :=
              match keySuffix with
              | kb :: _ =>
                  mkNode (take prefixLen k) None
                         (<[kb := leaf keySuffix v]> {[ cb := moved ]})
              | [] =>
                  mkNode (take prefixLen k) (Some v) {[ cb := moved ]}
              end in
            set_child n b newNode
          end
      end
  end.

(** [func (t *Tree) Insert(key string, value any)]. *)
Definition Insert (t : Tree) (k : str) (v : V) : Tree :=
  match k with
  | [] => t
  | _ => mkTree (insert (root t) k v) (tsize t + 1)
  end.

(** The loop of [func (t *Tree) findNode(key string)], started at node
    [n] with the remaining key [k]; [None] is the result [(nil, false)].
    The loop is entered with a non-empty key only and keeps it non-empty
    (it continues only when [len(c.key) < len(key)]), so the case [k = []]
    is the entry test for the empty key. *)
Fixpoint findLoop (n : Node) (k : str) {struct n} : option Node :=
  match k with
  | [] => None
  | b :: _ =>
    if decide (size (children n) = 0) then None
    else
      match ((λ c, (c, findLoop c)) <$> children n) !! b with
      | None => None
      | Some (c, find_c) =>
        if decide (length k < length (key c)) then None
        else if decide (take (length (key c)) k ≠ key c) then None
        else if decide (length (key c) = length k) then Some c
        else find_c (drop (length (key c)) k)
      end
  end.

Definition findNode (t : Tree) (k : str) : option Node :=
  match k with
  | [] => None
  | _ => findLoop (root t) k
  end.

(** [func (t *Tree) Get(key string) (interface{}, bool)]:
    [None] is the pair [(nil, false)], [Some v] is [(v, true)]. *)
Definition Get (t : Tree) (k : str) : option V :=
  match findNode t k with
  | None => None
  | Some node => value node
  end.

(** The loop [for b, grandchild := range c.children] of [delete]: every
    iteration stores the merged node under [kb] in the parent's map. *)
Definition merge_into (ch : gmap ascii Node) (kb : ascii) (c : Node)
  : gmap ascii Node :=
  foldl (λ acc bg, <[kb := mkNode (key c ++ key bg.2) (value bg.2)
                                  (children bg.2)]> acc)
        ch (map_to_list (children c)).

(** [func (t *Tree) delete(n *Node, key string) bool]: the node [n] after
    the call and the returned flag. *)
Fixpoint delete (n : Node) (k : str) {struct n} : Node * bool :=
  match k with
  | [] => (n, false)
  | b :: _ =>
    match ((λ c, (c, delete c)) <$> children n) !! b with
    | None => (n, false)
    | Some (c, delete_c) =>
      if decide (length k < length (key c)
                 ∨ take (length (key c)) k ≠ key c) then (n, false)
      else if decide (length k = length (key c)) then
        if decide (0 < size (children c)) then
          (* the node has children: only clear its value *)
          if hasValue c
          then (set_child n b (mkNode (key c) None (children c)), true)
          else (n, false)
        else (del_child n b, true)
      else
        let r : Node * bool := delete_c (drop (length (key c)) k) in
        let c' := r.1 in
        if r.2 then
          if negb (hasValue c') && bool_decide (size (children c') = 0)
          then (del_child n b, true)
          else if negb (hasValue c') && bool_decide (size (children c') = 1)
          then (with_children n
                  (merge_into (<[b := c']> (children n)) b c'), true)
          else (set_child n b c', true)
        else (set_child n b c', false)
    end
  end.

(** [func (t *Tree) Delete(key string) bool]. *)
Definition Delete (t : Tree) (k : str) : Tree * bool :=
  let r := delete (root t) k in
  (mkTree r.1 (if r.2 then tsize t - 1 else tsize t), r.2).

(** [func (t *Tree) walk(n *Node, prefix string, fn) bool].

    The visitor is [fn : key -> value -> bool] ([true] stops the walk).
    The result is the sequence of visitor calls made, in order, and the
    returned flag.  Go iterates a map in an unspecified order; this
    definition takes the children in the order of [map_to_list], which
    is one of the possible orders, and [walkIn] below leaves the order
    open. *)
Fixpoint walkChildren
    (cs : list (ascii * (str → list (str * V) * bool))) (prefix : str)
  : list (str * V) * bool :=
  match cs with
  | [] => ([], false)
  | (_, walk_c) :: rest =>
      let r : list (str * V) * bool := walk_c prefix in
      if r.2 then (r.1, true)
      else let r' := walkChildren rest prefix in
           (r.1 ++ r'.1, r'.2)
  end.

Fixpoint walk (fn : str → V → bool) (n : Node) (prefix : str) {struct n}
  : list (str * V) * bool :=
  let fullKey := prefix ++ key n in
  let below :=
    walkChildren (map_to_list ((λ c, walk fn c) <$> children n)) fullKey in
  match value n with
  | Some v =>
      if fn fullKey v then ([(fullKey, v)], true)
      else ((fullKey, v) :: below.1, below.2)
  | None => below
  end.

(** [func (t *Tree) Walk(fn)]: the visitor calls made. *)
Definition Walk (t : Tree) (fn : str → V → bool) : list (str * V) :=
  (walk fn (root t) []).1.

(** [walk] with the order of every [range] left open.  Go iterates a map
    in an order of its own choosing, which can differ from one [range]
    statement to the next and from one run to the next: [order fullKey bs]
    is the order in which the loop [for _, child := range n.children] of
    the node with the full key [fullKey] takes the children, given the
    bytes [bs] they are filed under.  In every run it is a permutation of
    [bs]. *)
Definition rangeOver {X} (order : str → list ascii → list ascii)
    (fullKey : str) (m : gmap ascii X) : list (ascii * X) :=
  omap (λ b, pair b <$> m !! b) (order fullKey (map_to_list m).*1).

Fixpoint walkIn (order : str → list ascii → list ascii)
    (fn : str → V → bool) (n : Node) (prefix : str) {struct n}
  : list (str * V) * bool :=
  let fullKey := prefix ++ key n in
  let below :=
    walkChildren
      (rangeOver order fullKey ((λ c, walkIn order fn c) <$> children n))
      fullKey in
  match value n with
  | Some v =>
      if fn fullKey v then ([(fullKey, v)], true)
      else ((fullKey, v) :: below.1, below.2)
  | None => below
  end.

(** [func (t *Tree) Walk(fn)] in the run with the iteration order
    [order]: the visitor calls made. *)
Definition WalkIn (order : str → list ascii → list ascii) (t : Tree)
    (fn : str → V → bool) : list (str * V) :=
  (walkIn order fn (root t) []).1.

(** ** Notions used to state and prove the properties of the tree *)

(** Height of a node, the measure for induction over the nested type. *)
Fixpoint height (n : Node) : nat :=
  S (map_fold (λ _ c acc, height c `max` acc) 0 (children n)).

(** [strip p k]: the rest of [k] after its prefix [p], as in the tests
    [len(c.key) <= len(key) && key[:len(c.key)] == c.key] followed by
    [key[len(c.key):]]. *)
Definition strip (p k : str) : option str :=
  if decide (take (length p) k = p) then Some (drop (length p) k) else None.

(** The value stored at the relative path [r] below node [n] ([r = []] is
    the node itself): the meaning of a subtree as a partial map. *)
Fixpoint valueAt (n : Node) (r : str) {struct n} : option V :=
  match r with
  | [] => value n
  | b :: _ =>
      match ((λ c, (c, valueAt c)) <$> children n) !! b with
      | None => None
      | Some (c, valueAt_c) =>
          match strip (key c) r with
          | Some r' => valueAt_c r'
          | None => None
          end
      end
  end.

(** The same, seen from the parent: the path [r] still contains the key
    of the child [c]. *)
Definition atChild (c : Node) (r : str) : option V :=
  match strip (key c) r with
  | Some r' => valueAt c r'
  | None => None
  end.

(** The invariant every tree built by [Insert] and [Delete] satisfies:
    a child is filed under the first byte of its (non-empty) key. *)
Inductive wf : Node → Prop :=
  | wf_node n :
      (∀ b c, children n !! b = Some c → head (key c) = Some b ∧ wf c) →
      wf n.

(** A redundant node: no value and exactly one child (a chain that path
    compression would merge).  [redundantBelow n] looks at the proper
    descendants of [n]. *)
Definition redundant (n : Node) : bool :=
  negb (hasValue n) && bool_decide (size (children n) = 1).

Fixpoint redundantBelow (n : Node) : bool :=
  existsb (λ bc : ascii * (Node * bool), redundant bc.2.1 || bc.2.2)
          (map_to_list ((λ c, (c, redundantBelow c)) <$> children n)).

(** Sequences of operations and the finite map they denote.  [Insert]
    rejects the empty key, so it never enters the map. *)
Inductive op : Type :=
  | OpInsert (k : str) (v : V)
  | OpDelete (k : str).

Definition apply (t : Tree) (o : op) : Tree :=
  match o with
  | OpInsert k v => Insert t k v
  | OpDelete k => (Delete t k).1
  end.

Definition run (ops : list op) : Tree := foldl apply New ops.

Definition denote_op (m : gmap str V) (o : op) : gmap str V :=
  match o with
  | OpInsert k v => match k with [] => m | _ => <[k := v]> m end
  | OpDelete k => base.delete k m
  end.

Definition denote (ops : list op) : gmap str V := foldl denote_op ∅ ops.

(** The visit of the node itself in [walk]: [fn(fullKey, n.value)] when
    the node has a value. *)
Definition own_visit (n : Node) (prefix : str) : list (str * V) :=
  match value n with
  | Some v => [(prefix ++ key n, v)]
  | None => []
  end.

(** The visitor of [ListRoutes]: it never stops the walk. *)
Definition visitAll : str → V → bool := λ _ _, false.

(** ** The remaining operations of the tree *)

(** [func (t *Tree) Size() int]. *)
Definition Size (t : Tree) : Z := tsize t.

(** The loop of [func (t *Tree) LongestPrefix(key string)], at node [n]
    with the consumed [prefix] and the remaining key [k]; [last] is
    [lastMatchKey] with the value of [lastMatch] ([None] while
    [lastMatch == nil]). *)
Fixpoint longestLoop (n : Node) (prefix k : str) (last : option (str * V))
    {struct n} : option (str * V) :=
  let last' := match value n with
               | Some v => Some (prefix, v)
               | None => last
               end in
  match k with
  | [] => last'
  | b :: _ =>
      match ((λ c, (c, longestLoop c)) <$> children n) !! b with
      | None => last'
      | Some (c, longest_c) =>
          if decide (length k < length (key c)) then last'
          else if decide (take (length (key c)) k ≠ key c) then last'
          else longest_c (prefix ++ key c) (drop (length (key c)) k) last'
      end
  end.

(** [func (t *Tree) LongestPrefix(key string) (string, interface{}, bool)]:
    [None] is [("", nil, false)]. *)
Definition LongestPrefix (t : Tree) (k : str) : option (str * V) :=
  match k with
  | [] => None
  | _ => longestLoop (root t) [] k None
  end.

(** ** Further notions for the properties *)

(** A node that is not the root has a value or at least one child. *)
Inductive leafy : Node → Prop :=
  | leafy_node n :
      (∀ b c, children n !! b = Some c →
              (is_Some (value c) ∨ children c ≠ ∅) ∧ leafy c) →
      leafy n.

(** Path compression: a node that is not the root has a value or at
    least two children. *)
Inductive compact : Node → Prop :=
  | compact_node n :
      (∀ b c, children n !! b = Some c →
              (is_Some (value c) ∨ 2 ≤ size (children c)) ∧ compact c) →
      compact n.

(** The visits of a list of entries by a visitor that may stop: up to and
    including the first entry on which it returns [true]. *)
Fixpoint untilStop (fn : str → V → bool) (l : list (str * V))
  : list (str * V) * bool :=
  match l with
  | [] => ([], false)
  | (k, v) :: l' =>
      if fn k v then ([(k, v)], true)
      else let r := untilStop fn l' in ((k, v) :: r.1, r.2)
  end.

(** What the loop returns, for the candidates [r]: the prefixes of the
    remaining key at which the subtree holds a value. *)
Definition longest_spec (n : Node) (pre k : str) (last res : option (str * V)) : Prop :=
  (res = last ∨
   ∃ r v, res = Some (pre ++ r, v) ∧ r `prefix_of` k ∧ valueAt n r = Some v) ∧
  (∀ r v, r `prefix_of` k → valueAt n r = Some v →
          ∃ r' v', res = Some (pre ++ r', v') ∧ r' `prefix_of` k ∧
                   valueAt n r' = Some v' ∧ length r ≤ length r').

Definition is_insert (o : op) : bool :=
  match o with OpInsert _ _ => true | OpDelete _ => false end.

(** The number of calls in [ops] that change [Size]: the [Insert]s of a
    non-empty key (each adds one, also when the key is already present)
    minus the [Delete]s of a key present at that moment. *)
Fixpoint sizeDelta (m : gmap str V) (ops : list op) : Z :=
  match ops with
  | [] => 0
  | o :: rest =>
      (match o with
       | OpInsert [] _ => 0
       | OpInsert _ _ => 1
       | OpDelete k => match m !! k with Some _ => -1 | None => 0 end
       end + sizeDelta (denote_op m o) rest)%Z
  end.

End Radix.
Arguments Node : clear implicits.
Arguments Tree : clear implicits.
Arguments op : clear implicits.
End Radix.

(* ===================================================================== *)
(** * Token-bucket rate limiter ([RateLimiter]) *)
(* ===================================================================== *)

Module Limiter.

(** [type RateLimiter struct { tokens, maxTokens int; ... }]; the mutex,
    the interval and the quit channel carry no data. *)
Record RateLimiter : Type := mkRateLimiter { tokens : Z; maxTokens : Z }.

(** [func NewRateLimiter(maxTokens int, refillInterval time.Duration)]. *)
Definition NewRateLimiter (maxTokens : Z) : RateLimiter :=
  mkRateLimiter maxTokens maxTokens.

(** [func (rl *RateLimiter) Allow() bool], run under the mutex. *)
Definition Allow (rl : RateLimiter) : RateLimiter * bool :=
  if decide (0 < tokens rl)%Z
  then (mkRateLimiter (tokens rl - 1) (maxTokens rl), true)
  else (rl, false).

(** One firing of the ticker in [refillTokens]:
    [rl.tokens = rl.maxTokens], run under the mutex. *)
Definition refillTick (rl : RateLimiter) : RateLimiter :=
  mkRateLimiter (maxTokens rl) (maxTokens rl).

(** [n] consecutive calls of [Allow]: the limiter afterwards and the
    answers in call order. *)
Fixpoint allowN (n : nat) (rl : RateLimiter) : RateLimiter * list bool :=
  match n with
  | O => (rl, [])
  | S n' =>
      let r := Allow rl in
      let r' := allowN n' r.1 in
      (r'.1, r.2 :: r'.2)
  end.

(** The events that touch a limiter, serialised by its mutex. *)
Inductive event := EvAllow | EvTick.

Definition step (rl : RateLimiter) (e : event) : RateLimiter :=
  match e with
  | EvAllow => (Allow rl).1
  | EvTick => refillTick rl
  end.

Definition run (rl : RateLimiter) (es : list event) : RateLimiter :=
  foldl step rl es.

End Limiter.

(* ===================================================================== *)
(** * Go channels, as far as the sources use them *)
(* ===================================================================== *)

Module Chan.

(** A buffered channel: queued elements (oldest first), capacity, and
    whether [close] was called. *)
Record chan (A : Type) : Type :=
  mkChan { buf : list A; cap : nat; closed : bool }.
Arguments mkChan {A} _ _ _.
Arguments buf {A} _.
Arguments cap {A} _.
Arguments closed {A} _.

(** [make(chan A, n)]. *)
Definition make {A} (n : nat) : chan A := mkChan [] n false.

(** The result of a blocking send [ch <- x]. *)
Inductive sendResult (A : Type) : Type :=
  | Sent (ch' : chan A)     (* the element is queued *)
  | SendBlocks              (* the buffer is full: the sender is suspended *)
  | SendPanics.             (* send on a closed channel *)
Arguments Sent {A} _.
Arguments SendBlocks {A}.
Arguments SendPanics {A}.

Definition send {A} (ch : chan A) (x : A) : sendResult A :=
  if closed ch then SendPanics
  else if decide (length (buf ch) < cap ch)
       then Sent (mkChan (buf ch ++ [x]) (cap ch) false)
       else SendBlocks.

(** [select { case ch <- x: ...; default: ... }]: [None] is the default
    branch. *)
Definition trySend {A} (ch : chan A) (x : A) : option (sendResult A) :=
  match send ch x with
  | SendBlocks => None
  | r => Some r
  end.

(** [close(ch)]; [None] is the panic on closing a closed channel. *)
Definition close {A} (ch : chan A) : option (chan A) :=
  if closed ch then None else Some (mkChan (buf ch) (cap ch) true).

(** A receive [x, ok := <-ch] that does not block: the element and the
    channel afterwards.  [None]: the channel is empty and open (the
    receiver is suspended); [Some (None, _)]: closed and drained. *)
Definition recv {A} (ch : chan A) : option (option A * chan A) :=
  match buf ch with
  | x :: rest => Some (Some x, mkChan rest (cap ch) (closed ch))
  | [] => if closed ch then Some (None, ch) else None
  end.

End Chan.

(* ===================================================================== *)
(** * Worker pool ([wp.go], [NewWorkerPool]) *)
(* ===================================================================== *)

Module Pool.
Section Pool.
(** The type of tasks, [func()]. *)
Context {Task : Type}.

(** [type WorkerPool struct { tasks chan func(); wg sync.WaitGroup;
    size int }]; [wg] is the wait-group counter. *)
Record WorkerPool : Type :=
  mkPool { tasks : Chan.chan Task; wg : Z; size : nat }.

(** [func NewWorkerPool(size int) *WorkerPool]:
    [tasks: make(chan func(), size*10)]. *)
Definition NewWorkerPool (size : nat) : WorkerPool :=
  mkPool (Chan.make (size * 10)) 0 size.

(** [error] values a [Submit] could return; the source constructs none. *)
Inductive error : Type := mkError (msg : str).

(** What a call of [Submit] does. *)
Inductive submitResult : Type :=
  | Returns (err : option error) (wp' : WorkerPool)
  | Blocks (wp' : WorkerPool)   (* suspended in [wp.tasks <- task] *)
  | Panics.

(** [func (wp *WorkerPool) Submit(task func()) error]:
    [wp.wg.Add(1); wp.tasks <- task; return nil]. *)
Definition Submit (wp : WorkerPool) (task : Task) : submitResult :=
  let wp1 := mkPool (tasks wp) (wg wp + 1) (size wp) in
  match Chan.send (tasks wp1) task with
  | Chan.Sent ch' => Returns None (mkPool ch' (wg wp1) (size wp1))
  | Chan.SendBlocks => Blocks wp1
  | Chan.SendPanics => Panics
  end.

(** A submitter suspended in [wp.tasks <- task] resumes once the buffer
    has room: the rest of [Submit] after [wg.Add(1)]. *)
Definition resume (wp1 : WorkerPool) (task : Task) : submitResult :=
  match Chan.send (tasks wp1) task with
  | Chan.Sent ch' => Returns None (mkPool ch' (wg wp1) (size wp1))
  | Chan.SendBlocks => Blocks wp1
  | Chan.SendPanics => Panics
  end.

(** One iteration of [worker]: [for task := range wp.tasks { task();
    wp.wg.Done() }] takes the oldest task. *)
Definition workerStep (wp : WorkerPool) : option (Task * WorkerPool) :=
  match Chan.recv (tasks wp) with
  | Some (Some t, ch') => Some (t, mkPool ch' (wg wp - 1) (size wp))
  | _ => None
  end.

(** [func (wp *WorkerPool) Shutdown()], once [wg.Wait()] has returned:
    [close(wp.tasks)]. *)
Definition Shutdown (wp : WorkerPool) : option WorkerPool :=
  match Chan.close (tasks wp) with
  | Some ch' => Some (mkPool ch' (wg wp) (size wp))
  | None => None
  end.

(** Drivers used to state properties of the pool: submit a list of tasks
    one after the other ([None] as soon as a call does not return [nil]),
    and let the workers take [n] tasks. *)
Fixpoint submitAll (wp : WorkerPool) (ts : list Task) : option WorkerPool :=
  match ts with
  | [] => Some wp
  | t :: rest =>
      match Submit wp t with
      | Returns None wp' => submitAll wp' rest
      | _ => None
      end
  end.

Fixpoint workN (n : nat) (wp : WorkerPool) : list Task * WorkerPool :=
  match n with
  | O => ([], wp)
  | S n' =>
      match workerStep wp with
      | Some (t, wp') => let r := workN n' wp' in (t :: r.1, r.2)
      | None => ([], wp)
      end
  end.

End Pool.
Arguments WorkerPool : clear implicits.
Arguments submitResult : clear implicits.
End Pool.

(* ===================================================================== *)
(** * Pattern matcher and dispatcher ([router.go]) *)
(* ===================================================================== *)

Module Route.

(** [strings.FieldsFunc(s, f)]: the maximal runs of bytes that do not
    satisfy [f]; [cur] is the run being collected.  (The separator used
    here is an ASCII byte, so splitting bytes and splitting runes agree.) *)
Fixpoint fieldsFunc (f : ascii → bool) (s : str) (cur : str) : list str :=
  match s with
  | [] => match cur with [] => [] | _ => [cur] end
  | c :: s' =>
      if f c
      then match cur with
           | [] => fieldsFunc f s' []
           | _ => cur :: fieldsFunc f s' []
           end
      else fieldsFunc f s' (cur ++ [c])
  end.

(** [func splitPath(path string) []string]. *)
Definition splitPath (path : str) : list str :=
  fieldsFunc (λ r, bool_decide (r = "/"%char)) path [].

(** The loop of [matchPattern] over [patternParts], with [pathParts]
    advanced in step ([pathParts[i]]).  The two slices have equal length
    when the loop runs, so running out of path parts (an index panic in
    Go) is unreachable. *)
Fixpoint matchParts (patternParts pathParts : list str)
    (params : gmap str str) : option (gmap str str) :=
  match patternParts, pathParts with
  | [], _ => Some params
  | part :: ps, seg :: segs =>
      match part with
      | ":"%char :: name => matchParts ps segs (<[name := seg]> params)
      | _ => if decide (part ≠ seg) then None
             else matchParts ps segs params
      end
  | _ :: _, [] => None
  end.

(** [func matchPattern(pattern, path string) (map[string]string, bool)]:
    [None] is [(nil, false)]. *)
Definition matchPattern (pattern path : str) : option (gmap str str) :=
  let patternParts := splitPath pattern in
  let pathParts := splitPath path in
  if decide (length patternParts ≠ length pathParts) then None
  else matchParts patternParts pathParts ∅.

(** A pattern segment that captures: [len(part) > 0 && part[0] == ':']. *)
Definition is_param (part : str) : Prop :=
  match part with
  | ":"%char :: _ => True
  | _ => False
  end.

(** The parameters captured along matching segments, in order: a later
    segment with the same name overwrites an earlier one. *)
Fixpoint captures (parts segs : list str) (params : gmap str str)
  : gmap str str :=
  match parts, segs with
  | part :: ps, seg :: ss =>
      match part with
      | ":"%char :: name => captures ps ss (<[name := seg]> params)
      | _ => captures ps ss params
      end
  | _, _ => params
  end.

(** [strings.ContainsAny(s, chars)]. *)
Definition containsAny (s chars : str) : bool :=
  existsb (λ c, bool_decide (c ∈ chars)) s.

Definition MethodOptions : str := s2b "OPTIONS".

Section Router.
(** Handlers ([http.HandlerFunc]) are opaque. *)
Context {H : Type}.

(** [type route struct { method; pattern; handler }]. *)
Record route : Type := mkRoute { method : str; pattern : str; handler : H }.

(** [type Middleware func(http.HandlerFunc) http.HandlerFunc]. *)
Definition Middleware : Type := H → H.

(** [type Router struct]. The pool's tasks are the wrapped handlers. *)
Record Router : Type := mkRouter {
  staticRoutes : Radix.Tree route;
  dynamicRoutes : list route;
  middlewares : list Middleware;
  workerPool : option (Pool.WorkerPool H);
  rateLimiter : option Limiter.RateLimiter
}.

(** [func New() *Router]. *)
Definition New : Router := mkRouter Radix.New [] [] None None.

(** [func (r *Router) Use(m Middleware) *Router]. *)
Definition Use (r : Router) (m : Middleware) : Router :=
  mkRouter (staticRoutes r) (dynamicRoutes r) (middlewares r ++ [m])
           (workerPool r) (rateLimiter r).

(** [func (r *Router) WithWorkerPool(poolSize int) *Router]. *)
Definition WithWorkerPool (r : Router) (poolSize : nat) : Router :=
  mkRouter (staticRoutes r) (dynamicRoutes r) (middlewares r)
           (Some (Pool.NewWorkerPool poolSize)) (rateLimiter r).

(** [func (r *Router) WithRateLimiter(maxTokens int, ...) *Router]. *)
Definition WithRateLimiter (r : Router) (maxTokens : Z) : Router :=
  mkRouter (staticRoutes r) (dynamicRoutes r) (middlewares r)
           (workerPool r) (Some (Limiter.NewRateLimiter maxTokens)).

(** [func (r *Router) Handle(method, pattern string, handler)]. *)
Definition Handle (r : Router) (m p : str) (h : H) : Router :=
  let rt := mkRoute m p h in
  if negb (containsAny p (s2b ":*"))
  then mkRouter (Radix.Insert (staticRoutes r) p rt) (dynamicRoutes r)
                (middlewares r) (workerPool r) (rateLimiter r)
  else mkRouter (staticRoutes r) (dynamicRoutes r ++ [rt])
                (middlewares r) (workerPool r) (rateLimiter r).

(** What [ServeHTTP] decides for a request, before [executeHandler]. *)
Inductive resolution : Type :=
  | RunStatic (rt : route)
      (* [r.executeHandler(w, req, rt.handler)] *)
  | RunDynamic (rt : route) (params : gmap str str)
      (* the same, with [params] stored in the request context *)
  | MethodNotAllowed (allow : str)
      (* header [Allow], status 405 *)
  | NotFound.
      (* [http.NotFound], status 404 *)

(** The loop [for _, rt := range r.dynamicRoutes] of [ServeHTTP]. *)
Fixpoint scanDynamic (rts : list route) (reqMethod path : str)
  : resolution :=
  match rts with
  | [] => NotFound
  | rt :: rest =>
      match matchPattern (pattern rt) path with
      | Some params =>
          if decide (method rt = reqMethod ∨ reqMethod = MethodOptions)
          then RunDynamic rt params
          else scanDynamic rest reqMethod path
      | None => scanDynamic rest reqMethod path
      end
  end.

(** The routing decision of
    [func (r *Router) ServeHTTP(w http.ResponseWriter, req *http.Request)]
    for [req.Method] and [req.URL.Path]. *)
Definition resolve (r : Router) (reqMethod path : str) : resolution :=
  match Radix.Get (staticRoutes r) path with
  | Some rt =>
      if decide (method rt = reqMethod ∨ reqMethod = MethodOptions)
      then RunStatic rt
      else MethodNotAllowed (method rt)
  | None => scanDynamic (dynamicRoutes r) reqMethod path
  end.

(** The HTTP status of a routing decision that does not run a handler. *)
Definition resolutionStatus (res : resolution) : option Z :=
  match res with
  | MethodNotAllowed _ => Some 405%Z
  | NotFound => Some 404%Z
  | _ => None
  end.

(** What [executeHandler] does with the request. *)
Inductive execResult : Type :=
  | RanInline (h : H)        (* [finalHandler(w, req)] on the calling task *)
  | Queued (h : H)           (* submitted; the caller waits on [done] *)
  | Suspended (h : H)        (* the caller is suspended inside [Submit] *)
  | Status (code : Z)        (* [http.Error(w, ..., code)] *)
  | SubmitPanicked.

(** [func (r *Router) executeHandler(w, req, handler)]: the router
    afterwards (limiter and pool are mutated) and what happened. *)
Definition executeHandler (r : Router) (h : H) : Router * execResult :=
  let finalHandler := foldr (λ (m : Middleware) acc, m acc) h (middlewares r) in
  let limited :=
    match rateLimiter r with
    | Some rl => let a := Limiter.Allow rl in (Some a.1, negb a.2)
    | None => (None, false)
    end in
  let r1 := mkRouter (staticRoutes r) (dynamicRoutes r) (middlewares r)
                     (workerPool r) limited.1 in
  if limited.2 then (r1, Status 429)
  else
    match workerPool r1 with
    | Some wp =>
        let with_pool wp' :=
          mkRouter (staticRoutes r1) (dynamicRoutes r1) (middlewares r1)
                   (Some wp') (rateLimiter r1) in
        match Pool.Submit wp finalHandler with
        | Pool.Returns (Some _) wp' => (with_pool wp', Status 503)
        | Pool.Returns None wp' => (with_pool wp', Queued finalHandler)
        | Pool.Blocks wp' => (with_pool wp', Suspended finalHandler)
        | Pool.Panics => (r1, SubmitPanicked)
        end
    | None => (r1, RanInline finalHandler)
    end.

(** Whether a dynamic route serves a request: its pattern matches the
    path and its method is the request's (or the request is [OPTIONS]),
    the test of the loop in [ServeHTTP]. *)
Definition serves (rt : route) (reqMethod path : str) : Prop :=
  is_Some (matchPattern (pattern rt) path) ∧
  (method rt = reqMethod ∨ reqMethod = MethodOptions).

(** [n] requests, one after the other, through [executeHandler] with
    the same handler: what happened to each, in order. *)
Fixpoint serveN (n : nat) (r : Router) (h : H) : list execResult :=
  match n with
  | O => []
  | S n' => let x := executeHandler r h in x.2 :: serveN n' x.1 h
  end.

(** The middleware chain [executeHandler] builds around a handler. *)
Definition chain (ms : list Middleware) (h : H) : H :=
  foldr (λ (m : Middleware) acc, m acc) h ms.

End Router.
Arguments route : clear implicits.
Arguments Router : clear implicits.
Arguments resolution : clear implicits.
Arguments execResult : clear implicits.
End Route.

(* ===================================================================== *)
(** * WebSocket engine ([ws.go]) *)
(* ===================================================================== *)

Module WS.
#[local] Open Scope Z_scope.

(** Bytes are integers in [0, 256); [byte(x)] truncates. *)
Definition to_byte (x : Z) : Z := x mod 256.

Definition bytes_of_str (s : str) : list Z :=
  map (λ c, Z.of_N (N_of_ascii c)) s.

Definition str_of_bytes (bs : list Z) : str :=
  map (λ b, ascii_of_N (Z.to_N b)) bs.

(** ** Frame opcodes *)
Definition OpContinuation : Z := 0x0.
Definition OpText : Z := 0x1.
Definition OpBinary : Z := 0x2.
Definition OpClose : Z := 0x8.
Definition OpPing : Z := 0x9.
Definition OpPong : Z := 0xA.

(** ** [encoding/binary.BigEndian] *)

(** [PutUint16] / [PutUint64]: the [n] low-order bytes of [v], most
    significant first. *)
Fixpoint be_put (n : nat) (v : Z) : list Z :=
  match n with
  | O => []
  | S n' => to_byte (Z.shiftr v (8 * Z.of_nat n')) :: be_put n' v
  end.

(** [Uint16] / [Uint64]. *)
Definition be_get (bs : list Z) : Z :=
  foldl (λ acc b, Z.lor (Z.shiftl acc 8) b) 0 bs.

(** ** Errors and results *)
Inductive error : Type :=
  | ErrEOF                (* [io.EOF] *)
  | ErrUnexpectedEOF      (* [io.ErrUnexpectedEOF] *)
  | ErrFragmented         (* "fragmented messages not supported" *)
  | ErrWrite              (* a failed [Write] of the stream *)
  | ErrClosed             (* "connection closed" *)
  | ErrBufferFull         (* "send buffer full" *)
  | PanicMakeSlice.       (* [make([]byte, n)] with [n < 0] *)

Inductive result (A : Type) : Type :=
  | Ok (a : A)
  | Err (e : error).
Arguments Ok {A} _.
Arguments Err {A} _.

(** ** The byte stream *)

(** The read side: the bytes not yet consumed. Reading is a state-and-error
    computation over them. *)
Definition Reader (A : Type) : Type := list Z → result A * list Z.

Definition ret {A} (a : A) : Reader A := λ s, (Ok a, s).
Definition fail {A} (e : error) : Reader A := λ s, (Err e, s).
Definition bind {A B} (m : Reader A) (f : A → Reader B) : Reader B :=
  λ s, match m s with
       | (Ok a, s') => f a s'
       | (Err e, s') => (Err e, s')
       end.

Notation "'let*' x ':=' m 'in' k" := (bind m (λ x, k))
  (at level 10, x name, m at level 100, k at level 200).

(** [io.ReadFull(reader, buf)] with [len(buf) = n]: [io.EOF] when nothing
    could be read, [io.ErrUnexpectedEOF] when the stream ends early; what
    was available is consumed. *)
Definition readFull (n : nat) : Reader (list Z) :=
  λ s, if decide (n ≤ length s)%nat then (Ok (take n s), drop n s)
       else match s with
            | [] => (Err ErrEOF, [])
            | _ => (Err ErrUnexpectedEOF, [])
            end.

(** [int64(x)] of a [uint64]. *)
Definition int64_of_uint64 (x : Z) : Z :=
  if decide (x < 2 ^ 63) then x else x - 2 ^ 64.

(** The loop [payload[i] ^= maskingKey[i%4]]; [i] is the index of the
    first byte of [payload]. *)
Fixpoint unmask (maskingKey : list Z) (i : nat) (payload : list Z)
  : list Z :=
  match payload with
  | [] => []
  | b :: rest =>
      Z.lxor b (nth (i mod 4) maskingKey 0) :: unmask maskingKey (S i) rest
  end.

(** [func (wsc *websocketConnection) readFrame()
      (opcode byte, payload []byte, err error)]. *)
Definition readFrame : Reader (Z * list Z) :=
  let* firstByte := readFull 1 in
  let fin := bool_decide (Z.land (nth 0 firstByte 0) 0x80 ≠ 0) in
  let opcode := Z.land (nth 0 firstByte 0) 0x0F in
  let* secondByte := readFull 1 in
  let masked := bool_decide (Z.land (nth 0 secondByte 0) 0x80 ≠ 0) in
  let payloadLen0 := Z.land (nth 0 secondByte 0) 0x7F in
  let* payloadLen :=
    (if decide (payloadLen0 = 126) then
       let* extendedLen := readFull 2 in ret (be_get extendedLen)
     else if decide (payloadLen0 = 127) then
       let* extendedLen := readFull 8 in
       ret (int64_of_uint64 (be_get extendedLen))
     else ret payloadLen0) in
  let* maskingKey := (if masked then readFull 4 else ret []) in
  let* payload :=
    (if decide (payloadLen < 0) then fail PanicMakeSlice
     else readFull (Z.to_nat payloadLen)) in
  let payload' := if masked then unmask maskingKey 0 payload else payload in
  if negb fin then fail ErrFragmented
  else ret (opcode, payload').

(** The write side: the bytes written so far, and whether the stream
    refuses writes. *)
Record Writer : Type := mkWriter { written : list Z; broken : bool }.

(** [writer.Write(p)]. *)
Definition Write (w : Writer) (p : list Z) : result Writer :=
  if broken w then Err ErrWrite
  else Ok (mkWriter (written w ++ p) false).

(** [func (wsc *websocketConnection) writeFrame(opcode byte,
      payload []byte) error]: the writer afterwards, or the error. *)
Definition writeFrame (w : Writer) (opcode : Z) (payload : list Z)
  : result Writer :=
  let firstByte := Z.lor 0x80 (Z.land opcode 0x0F) in
  match Write w [to_byte firstByte] with
  | Err e => Err e
  | Ok w1 =>
    let length := Z.of_nat (List.length payload) in
    let '(secondByte, extendedLength) :=
      if decide (length < 126) then (to_byte length, None)
      else if decide (length ≤ 65535) then (126, Some (be_put 2 length))
      else (127, Some (be_put 8 length)) in
    match Write w1 [secondByte] with
    | Err e => Err e
    | Ok w2 =>
      let r3 := match extendedLength with
                | Some ext => Write w2 ext
                | None => Ok w2
                end in
      match r3 with
      | Err e => Err e
      | Ok w3 => Write w3 payload
      end
    end
  end.

(** The length field [writeFrame] emits for a payload of [len] bytes. *)
Definition lengthField (len : Z) : list Z :=
  if decide (len < 126) then [to_byte len]
  else if decide (len ≤ 65535) then 126 :: be_put 2 len
  else 127 :: be_put 8 len.

(** The bytes [writeFrame] puts on a fresh, working stream. *)
Definition encodeFrame (opcode : Z) (payload : list Z) : list Z :=
  match writeFrame (mkWriter [] false) opcode payload with
  | Ok w => written w
  | Err _ => []
  end.

(** ** The handshake token *)

(** [crypto/sha1] (FIPS 180-4) on byte sequences, with 32-bit words. *)
Definition w32 (x : Z) : Z := x mod 2 ^ 32.

Definition rotl (n x : Z) : Z :=
  w32 (Z.lor (Z.shiftl x n) (Z.shiftr x (32 - n))).

Definition sha1_pad (msg : list Z) : list Z :=
  let len := Z.of_nat (List.length msg) in
  let zeros := Z.to_nat ((55 - len) mod 64) in
  msg ++ [0x80] ++ repeat 0 zeros ++ be_put 8 (8 * len).

Fixpoint chunks (n : nat) (blocks : nat) (bs : list Z) : list (list Z) :=
  match blocks with
  | O => []
  | S b' => take n bs :: chunks n b' (drop n bs)
  end.

(** The message schedule, latest word first: [rev_w] holds
    [w[t-1], w[t-2], ...]. *)
Fixpoint sha1_extend (steps : nat) (rev_w : list Z) : list Z :=
  match steps with
  | O => rev_w
  | S s' =>
      let x := Z.lxor (Z.lxor (nth 2 rev_w 0) (nth 7 rev_w 0))
                      (Z.lxor (nth 13 rev_w 0) (nth 15 rev_w 0)) in
      sha1_extend s' (rotl 1 x :: rev_w)
  end.

Definition sha1_schedule (block : list Z) : list Z :=
  rev (sha1_extend 64 (rev (map be_get (chunks 4 16 block)))).

Definition sha1_f (t : nat) (b c d : Z) : Z :=
  if decide (t < 20)%nat then Z.lor (Z.land b c) (Z.land (w32 (Z.lnot b)) d)
  else if decide (t < 40)%nat then Z.lxor (Z.lxor b c) d
  else if decide (t < 60)%nat
       then Z.lor (Z.lor (Z.land b c) (Z.land b d)) (Z.land c d)
  else Z.lxor (Z.lxor b c) d.

Definition sha1_k (t : nat) : Z :=
  if decide (t < 20)%nat then 0x5A827999
  else if decide (t < 40)%nat then 0x6ED9EBA1
  else if decide (t < 60)%nat then 0x8F1BBCDC
  else 0xCA62C1D6.

Definition sha1_state : Type := Z * Z * Z * Z * Z.

Fixpoint sha1_rounds (t : nat) (ws : list Z) (st : sha1_state)
  : sha1_state :=
  match ws with
  | [] => st
  | wt :: rest =>
      let '(a, b, c, d, e) := st in
      let temp := w32 (rotl 5 a + sha1_f t b c d + e + sha1_k t + wt) in
      sha1_rounds (S t) rest (temp, a, rotl 30 b, c, d)
  end.

Definition sha1_block (h : sha1_state) (block : list Z) : sha1_state :=
  let '(h0, h1, h2, h3, h4) := h in
  let '(a, b, c, d, e) := sha1_rounds 0 (sha1_schedule block) h in
  (w32 (h0 + a), w32 (h1 + b), w32 (h2 + c), w32 (h3 + d), w32 (h4 + e)).

Definition sha1_init : sha1_state :=
  (0x67452301, 0xEFCDAB89, 0x98BADCFE, 0x10325476, 0xC3D2E1F0).

(** [h := sha1.New(); h.Write(msg); h.Sum(nil)]. *)
Definition sha1_sum (msg : list Z) : list Z :=
  let padded := sha1_pad msg in
  let blocks := chunks 64 (List.length padded / 64) padded in
  let '(h0, h1, h2, h3, h4) := foldl sha1_block sha1_init blocks in
  be_put 4 h0 ++ be_put 4 h1 ++ be_put 4 h2 ++ be_put 4 h3 ++ be_put 4 h4.

(** [encoding/base64.StdEncoding] (RFC 4648, with padding). *)
Definition base64_alphabet : str :=
  s2b "ABCDEFGHIJKLMNOPQRSTUVWXYZabcdefghijklmnopqrstuvwxyz0123456789+/".

Definition base64_char (i : Z) : ascii :=
  nth (Z.to_nat i) base64_alphabet "="%char.

(** [fuel] bounds the number of 3-byte groups; [length bs] suffices. *)
Fixpoint base64_encode (fuel : nat) (bs : list Z) : str :=
  match fuel, bs with
  | _, [] => []
  | O, _ => []
  | S f, [x] =>
      [base64_char (Z.shiftr x 2);
       base64_char (Z.land (Z.shiftl x 4) 0x3F);
       "="%char; "="%char]
  | S f, [x; y] =>
      [base64_char (Z.shiftr x 2);
       base64_char (Z.land (Z.lor (Z.shiftl x 4) (Z.shiftr y 4)) 0x3F);
       base64_char (Z.land (Z.shiftl y 2) 0x3F);
       "="%char]
  | S f, x :: y :: z :: rest =>
      [base64_char (Z.shiftr x 2);
       base64_char (Z.land (Z.lor (Z.shiftl x 4) (Z.shiftr y 4)) 0x3F);
       base64_char (Z.land (Z.lor (Z.shiftl y 2) (Z.shiftr z 6)) 0x3F);
       base64_char (Z.land z 0x3F)] ++ base64_encode f rest
  end.

Definition EncodeToString (bs : list Z) : str :=
  base64_encode (List.length bs) bs.

Definition WebSocketGUID : str := s2b "258EAFA5-E914-47DA-95CA-C5AB0DC85B11".

(** [func generateAcceptKey(key string) string]. *)
Definition generateAcceptKey (key : str) : str :=
  EncodeToString (sha1_sum (bytes_of_str (key ++ WebSocketGUID))).

(** ** Connections *)

(** [type websocketConnection struct].  [netConnCloses] counts the calls
    of [netConn.Close()], the release of the raw stream; [input] and
    [output] are the two directions of the stream ([bufReader],
    [bufWriter]); [closeChan] is only ever closed, never sent on;
    [closeOnce] records whether the [sync.Once] has fired. *)
Record websocketConnection : Type := mkConn {
  netConnCloses : nat;
  input : list Z;
  output : Writer;
  closeChan : Chan.chan unit;
  closeOnce : bool;
  isClosed : bool
}.

(** [type WebSocketConn struct]. *)
Record WebSocketConn : Type := mkWS {
  conn : option websocketConnection;
  SendChan : Chan.chan (list Z);
  ReceiveChan : Chan.chan (list Z);
  Closed : bool
}.

(** Panics of the runtime are errors of their own. *)
Inductive outcome (A : Type) : Type :=
  | Done (a : A)
  | Failed (e : error)     (* the call returned this error *)
  | Panic.                 (* closing or sending on a closed channel,
                              nil dereference, [make] of negative size *)
Arguments Done {A} _.
Arguments Failed {A} _.
Arguments Panic {A}.

(** The connection [upgradeToWebSocket] returns, reading [inp]. *)
Definition newConnection (inp : list Z) : websocketConnection :=
  mkConn 0 inp (mkWriter [] false) (Chan.make 0) false false.

(** The wrapper [WEBSOCKET] builds around it. *)
Definition newWebSocketConn (c : websocketConnection) : WebSocketConn :=
  mkWS (Some c) (Chan.make 256) (Chan.make 256) false.

(** [func (wsc *websocketConnection) close()]: under the mutex,
    [if !wsc.isClosed { wsc.closeOnce.Do(func() { close(wsc.closeChan);
    wsc.isClosed = true; wsc.netConn.Close() }) }]. *)
Definition close (c : websocketConnection) : outcome websocketConnection :=
  if isClosed c then Done c
  else if closeOnce c then Done c
  else match Chan.close (closeChan c) with
       | None => Panic
       | Some ch =>
           Done (mkConn (S (netConnCloses c)) (input c) (output c) ch
                        true true)
       end.

(** [func (wsc *WebSocketConn) Close()]. *)
Definition Close (wsc : WebSocketConn) : outcome WebSocketConn :=
  if Closed wsc then Done wsc
  else
    match Chan.close (SendChan wsc) with
    | None => Panic
    | Some sc =>
        match conn wsc with
        | None => Done (mkWS None sc (ReceiveChan wsc) true)
        | Some c =>
            match close c with
            | Done c' => Done (mkWS (Some c') sc (ReceiveChan wsc) true)
            | Failed e => Failed e
            | Panic => Panic
            end
        end
    end.

(** [func (wsc *WebSocketConn) Send(message []byte) error]:
    [Done] is the return of [nil]. *)
Definition Send (wsc : WebSocketConn) (message : list Z)
  : outcome WebSocketConn :=
  if Closed wsc then Failed ErrClosed
  else
    match Chan.trySend (SendChan wsc) message with
    | Some (Chan.Sent sc) =>
        Done (mkWS (conn wsc) sc (ReceiveChan wsc) (Closed wsc))
    | Some _ => Panic
    | None => Failed ErrBufferFull
    end.

Definition with_conn (wsc : WebSocketConn) (c : websocketConnection)
  : WebSocketConn :=
  mkWS (Some c) (SendChan wsc) (ReceiveChan wsc) (Closed wsc).

Definition with_input (c : websocketConnection) (inp : list Z)
  : websocketConnection :=
  mkConn (netConnCloses c) inp (output c) (closeChan c) (closeOnce c)
         (isClosed c).

Definition with_output (c : websocketConnection) (w : Writer)
  : websocketConnection :=
  mkConn (netConnCloses c) (input c) w (closeChan c) (closeOnce c)
         (isClosed c).

(** Leaving a pump: the deferred [wsc.Close()] runs; [false] says the
    loop has ended. *)
Definition leave (wsc : WebSocketConn) : outcome (WebSocketConn * bool) :=
  match Close wsc with
  | Done wsc' => Done (wsc', false)
  | Failed e => Failed e
  | Panic => Panic
  end.

(** One iteration of the loop of [func (wsc *WebSocketConn) readPump()]:
    the connection afterwards and whether the loop goes on. *)
Definition readPumpStep (wsc : WebSocketConn)
  : outcome (WebSocketConn * bool) :=
  match conn wsc with
  | None => Panic
  | Some c =>
    if Chan.closed (closeChan c) then leave wsc
    else
      match readFrame (input c) with
      | (Err PanicMakeSlice, _) => Panic
      | (Err _, rest) => leave (with_conn wsc (with_input c rest))
      | (Ok (opcode, payload), rest) =>
        let c1 := with_input c rest in
        let wsc1 := with_conn wsc c1 in
        if decide (opcode = OpText ∨ opcode = OpBinary) then
          match Chan.trySend (ReceiveChan wsc1) payload with
          | Some (Chan.Sent rc) =>
              Done (mkWS (conn wsc1) (SendChan wsc1) rc (Closed wsc1), true)
          | Some _ => Panic
          | None => Done (wsc1, true)   (* buffer full: message dropped *)
          end
        else if decide (opcode = OpPing) then
          match writeFrame (output c1) OpPong payload with
          | Ok w => Done (with_conn wsc1 (with_output c1 w), true)
          | Err _ => Done (wsc1, true)  (* the error is not looked at *)
          end
        else if decide (opcode = OpPong) then Done (wsc1, true)
        else if decide (opcode = OpClose) then
          match Close wsc1 with
          | Done wsc2 => leave wsc2
          | Failed e => Failed e
          | Panic => Panic
          end
        else Done (wsc1, true)
      end
  end.

(** The cases of the [select] in [writePump]. *)
Inductive writeEvent : Type :=
  | OnSendChan      (* [case message, ok := <-wsc.SendChan] *)
  | OnPingTick      (* [case <-pingTicker.C] *)
  | OnCloseChan.    (* [case <-wsc.conn.closeChan] *)

(** One iteration of the loop of [func (wsc *WebSocketConn) writePump()]
    taking the given case; a case that is not ready leaves the pump
    waiting. *)
Definition writePumpStep (ev : writeEvent) (wsc : WebSocketConn)
  : outcome (WebSocketConn * bool) :=
  match conn wsc with
  | None => Panic
  | Some c =>
    match ev with
    | OnSendChan =>
      match Chan.recv (SendChan wsc) with
      | None => Done (wsc, true)
      | Some (None, _) =>
          (* channel closed: send a close frame, ignoring its error *)
          match writeFrame (output c) OpClose [] with
          | Ok w => leave (with_conn wsc (with_output c w))
          | Err _ => leave wsc
          end
      | Some (Some message, sc) =>
          let wsc1 := mkWS (conn wsc) sc (ReceiveChan wsc) (Closed wsc) in
          match writeFrame (output c) OpText message with
          | Ok w => Done (with_conn wsc1 (with_output c w), true)
          | Err _ => leave wsc1
          end
      end
    | OnPingTick =>
      match writeFrame (output c) OpPing [] with
      | Ok w => Done (with_conn wsc (with_output c w), true)
      | Err _ => leave wsc
      end
    | OnCloseChan =>
      if Chan.closed (closeChan c) then leave wsc else Done (wsc, true)
    end
  end.

(** What the handler's loop [for msg := range wsc.ReceiveChan] sees
    next: a message, the end of the sequence, or nothing yet. *)
Inductive rangeNext : Type :=
  | NextMessage (msg : list Z)
  | EndOfSequence
  | StillWaiting.

Definition rangeReceive (wsc : WebSocketConn) : rangeNext :=
  match Chan.recv (ReceiveChan wsc) with
  | Some (Some msg, _) => NextMessage msg
  | Some (None, _) => EndOfSequence
  | None => StillWaiting
  end.

(** Everything that acts on a connection: the handler ([Send], [Close],
    taking a message off [ReceiveChan]) and the two pumps. *)
Inductive action : Type :=
  | ActSend (message : list Z)
  | ActClose
  | ActReceive
  | ActReadPump
  | ActWritePump (ev : writeEvent).

(** One action; [None] when it panics.  A [Send] that returns an error
    changes nothing. *)
Definition act (wsc : WebSocketConn) (a : action) : option WebSocketConn :=
  match a with
  | ActSend m =>
      match Send wsc m with
      | Done w => Some w | Failed _ => Some wsc | Panic => None
      end
  | ActClose =>
      match Close wsc with Done w => Some w | _ => None end
  | ActReceive =>
      match Chan.recv (ReceiveChan wsc) with
      | Some (_, rc) => Some (mkWS (conn wsc) (SendChan wsc) rc (Closed wsc))
      | None => Some wsc
      end
  | ActReadPump =>
      match readPumpStep wsc with Done (w, _) => Some w | _ => None end
  | ActWritePump ev =>
      match writePumpStep ev wsc with Done (w, _) => Some w | _ => None end
  end.

(** The states a connection built by [WEBSOCKET] can be in. *)
Inductive reachable : WebSocketConn → Prop :=
  | reach_new inp : reachable (newWebSocketConn (newConnection inp))
  | reach_act wsc a wsc' :
      reachable wsc → act wsc a = Some wsc' → reachable wsc'
  | reach_arrive wsc c more :
      (* the peer sends more bytes *)
      reachable wsc → conn wsc = Some c →
      reachable (with_conn wsc (with_input c (input c ++ more)))
  | reach_break wsc c :
      (* the transport starts to refuse writes *)
      reachable wsc → conn wsc = Some c →
      reachable (with_conn wsc
                   (with_output c (mkWriter (written (output c)) true))).

(** The bytes of a frame on the wire, as a peer may send it (RFC 6455,
    section 5.2): first byte [fb] (fin bit and opcode), the length field
    of [body] with the mask bit set when [masked], the 4-byte masking key
    when [masked], and the body (the payload, xor-ed with the key when
    masked). *)
Definition wireFrame (fb : Z) (masked : bool) (maskingKey body : list Z)
  : list Z :=
  let lf := lengthField (Z.of_nat (List.length body)) in
  [fb]
  ++ match lf with
     | x :: ext => (if masked then Z.lor 0x80 x else x) :: ext
     | [] => []
     end
  ++ (if masked then maskingKey else [])
  ++ body.

(** [n] calls of [Send], one per message: the connection afterwards,
    [None] as soon as one call does not return [nil]. *)
Fixpoint sendAll (wsc : WebSocketConn) (ms : list (list Z))
  : option WebSocketConn :=
  match ms with
  | [] => Some wsc
  | m :: rest =>
      match Send wsc m with
      | Done wsc' => sendAll wsc' rest
      | _ => None
      end
  end.

(** [n] iterations of the loop of [writePump], each taking the case
    [<-wsc.SendChan]; the iteration stops where the loop ends. *)
Fixpoint writeN (n : nat) (wsc : WebSocketConn)
  : outcome (WebSocketConn * bool) :=
  match n with
  | O => Done (wsc, true)
  | S n' =>
      match writePumpStep OnSendChan wsc with
      | Done (wsc', true) => writeN n' wsc'
      | r => r
      end
  end.

(** ** Reading from a stream that is still open *)

(** [readFrame] above reads from what is left of a stream whose end is
    known.  On a connection the stream grows while the peer sends and
    ends when the peer closes it, and [io.ReadFull] blocks as long as
    fewer bytes than it was asked for have arrived and the stream is
    open.  The readers below work on the bytes that have arrived so far;
    [ended] says whether the peer has closed the stream behind them. *)
Inductive reading (A : Type) : Type :=
  | Returned (r : result A) (rest : list Z)   (* the call returned *)
  | Waiting.                                  (* blocked in [io.ReadFull] *)
Arguments Returned {A} _ _.
Arguments Waiting {A}.

Definition LiveReader (A : Type) : Type := list Z → reading A.

Definition retOn {A} (a : A) : LiveReader A := λ s, Returned (Ok a) s.
Definition failOn {A} (e : error) : LiveReader A := λ s, Returned (Err e) s.
Definition bindOn {A B} (m : LiveReader A) (f : A → LiveReader B)
  : LiveReader B :=
  λ s, match m s with
       | Returned (Ok a) s' => f a s'
       | Returned (Err e) s' => Returned (Err e) s'
       | Waiting => Waiting
       end.

Notation "'let+' x ':=' m 'in' k" := (bindOn m (λ x, k))
  (at level 10, x name, m at level 100, k at level 200).

(** [io.ReadFull(reader, buf)] with [len(buf) = n]. *)
Definition readFullOn (ended : bool) (n : nat) : LiveReader (list Z) :=
  λ s, if decide (n ≤ length s)%nat then Returned (Ok (take n s)) (drop n s)
       else if ended
            then match s with
                 | [] => Returned (Err ErrEOF) []
                 | _ => Returned (Err ErrUnexpectedEOF) []
                 end
            else Waiting.

(** The largest size [make([]byte, n)] accepts, [runtime.maxAlloc]:
    2^48 bytes on 64-bit Linux.  [make] panics for a negative and for a
    larger [n]. *)
Definition maxAlloc : Z := 2 ^ 48.

(** [func (wsc *websocketConnection) readFrame()] on such a stream. *)
Definition readFrameOn (ended : bool) : LiveReader (Z * list Z) :=
  let+ firstByte := readFullOn ended 1 in
  let fin := bool_decide (Z.land (nth 0 firstByte 0) 0x80 ≠ 0) in
  let opcode := Z.land (nth 0 firstByte 0) 0x0F in
  let+ secondByte := readFullOn ended 1 in
  let masked := bool_decide (Z.land (nth 0 secondByte 0) 0x80 ≠ 0) in
  let payloadLen0 := Z.land (nth 0 secondByte 0) 0x7F in
  let+ payloadLen :=
    (if decide (payloadLen0 = 126) then
       let+ extendedLen := readFullOn ended 2 in retOn (be_get extendedLen)
     else if decide (payloadLen0 = 127) then
       let+ extendedLen := readFullOn ended 8 in
       retOn (int64_of_uint64 (be_get extendedLen))
     else retOn payloadLen0) in
  let+ maskingKey := (if masked then readFullOn ended 4 else retOn []) in
  let+ payload :=
    (if decide (payloadLen < 0 ∨ maxAlloc < payloadLen)
     then failOn PanicMakeSlice
     else readFullOn ended (Z.to_nat payloadLen)) in
  let payload' := if masked then unmask maskingKey 0 payload else payload in
  if negb fin then failOn ErrFragmented
  else retOn (opcode, payload').

(** A read that could not get the bytes it asked for: on a stream that
    has ended it returned [io.EOF] or [io.ErrUnexpectedEOF] with nothing
    left, on an open stream it is blocked. *)
Definition short {A} (ended : bool) (x : reading A) : Prop :=
  if ended
  then x = Returned (Err ErrEOF) [] ∨ x = Returned (Err ErrUnexpectedEOF) []
  else x = Waiting.

(** A reader that, on the bytes [p], either cannot get the bytes it asks
    for or does what it does on [p ++ q] for every [q], leaving [q]
    untouched. *)
Definition incremental {A} (ended : bool) (m : LiveReader A) : Prop :=
  ∀ p q, short ended (m p)
         ∨ ∃ r p', m p = Returned r p' ∧ m (p ++ q) = Returned r (p' ++ q).

(** The flags of a connection agree with each other: [ReceiveChan] is
    open; [SendChan], the inner connection and its close channel are
    closed exactly when [Closed] is set; the raw stream has been released
    once if [Closed] is set and not at all otherwise. *)
Definition coherent (wsc : WebSocketConn) : Prop :=
  ∃ c, conn wsc = Some c ∧
       Chan.closed (ReceiveChan wsc) = false ∧
       Chan.closed (SendChan wsc) = Closed wsc ∧
       isClosed c = Closed wsc ∧
       closeOnce c = Closed wsc ∧
       Chan.closed (closeChan c) = Closed wsc ∧
       netConnCloses c = (if Closed wsc then 1 else 0)%nat.

(** Running a list of actions, stopping at a panic. *)
Fixpoint acts (wsc : WebSocketConn) (l : list action)
  : option WebSocketConn :=
  match l with
  | [] => Some wsc
  | a :: l' =>
      match act wsc a with
      | Some wsc' => acts wsc' l'
      | None => None
      end
  end.

End WS.

(* ===================================================================== *)
(** * Properties of the radix tree *)
(* ===================================================================== *)

Module RadixFacts.
Import Radix.
Section RadixFacts.
Context {V : Type}.
Implicit Types (n c : Node V) (k r p : str) (b : ascii) (v : V).

(** ** Induction over nodes *)

Lemma height_child n b c : children n !! b = Some c → height c < height n.
Proof.
  destruct n as [nk nv ch]; simpl. intros Hc. apply Nat.lt_succ_r.
  revert c Hc.
  induction ch as [|i x m Hi Hfst IH] using map_first_key_ind; intros c.
  - by rewrite lookup_empty.
  - rewrite map_fold_insert_first_key by done.
    rewrite lookup_insert. case_decide; intros Hc; simplify_eq; [lia|].
    specialize (IH _ Hc). lia.
Qed.

Lemma node_ind (P : Node V → Prop) :
  (∀ n, (∀ b c, children n !! b = Some c → P c) → P n) → ∀ n, P n.
Proof.
  intros Hstep n. remember (height n) as h eqn:Hh. revert n Hh.
  induction h as [h IH] using lt_wf_ind. intros n ->.
  apply Hstep. intros b c Hc. eapply IH; [|done]. by eapply height_child.
Qed.

(** ** The recursive functions in their direct form *)

Lemma size_children_0 n b : size (children n) = 0 → children n !! b = None.
Proof. intros ->%map_size_empty_iff. apply lookup_empty. Qed.

Lemma findLoop_unfold n k :
  findLoop n k =
  match k with
  | [] => None
  | b :: _ =>
      match children n !! b with
      | None => None
      | Some c =>
          if decide (length k < length (key c)) then None
          else if decide (take (length (key c)) k ≠ key c) then None
          else if decide (length (key c) = length k) then Some c
          else findLoop c (drop (length (key c)) k)
      end
  end.
Proof.
  destruct n as [nk nv ch], k as [|b k']; simpl; [done|].
  rewrite lookup_fmap. case_decide as Hsz.
  - apply map_size_empty_iff in Hsz. simpl in Hsz. by rewrite Hsz, lookup_empty.
  - by destruct (ch !! b).
Qed.

Lemma valueAt_nil n : valueAt n [] = value n.
Proof. by destruct n. Qed.

Lemma valueAt_cons n b r :
  valueAt n (b :: r) =
  c ← children n !! b; r' ← strip (key c) (b :: r); valueAt c r'.
Proof.
  destruct n as [nk nv ch]; simpl. rewrite lookup_fmap.
  destruct (ch !! b) as [c|]; simpl; [|done]. by destruct (strip _ _).
Qed.

Lemma valueAt_unfold n r :
  valueAt n r =
  match r with
  | [] => value n
  | b :: _ =>
      match children n !! b with
      | Some c => atChild c r
      | None => None
      end
  end.
Proof.
  destruct r as [|b r]; [apply valueAt_nil|]. rewrite valueAt_cons.
  by destruct (children n !! b).
Qed.

Lemma insert_unfold n k v :
  insert n k v =
  match k with
  | [] => n
  | b :: _ =>
    match children n !! b with
    | None => set_child n b (leaf k v)
    | Some c =>
      let prefixLen := commonPrefixLen k (key c) in
      if decide (prefixLen = length k ∧ prefixLen = length (key c)) then
        set_child n b (mkNode (key c) (Some v) (children c))
      else if decide (prefixLen = length k) then
        let childSuffix := drop prefixLen (key c) in
        let sub :=
          match childSuffix with
          | [] => ∅
          | b' :: _ => {[ b' := mkNode childSuffix (value c) (children c) ]}
          end in
        set_child n b (mkNode k (Some v) sub)
      else if decide (prefixLen = length (key c)) then
        set_child n b (insert c (drop prefixLen k) v)
      else
        let childSuffix := drop prefixLen (key c) in
        let keySuffix := drop prefixLen k in
        match childSuffix with
        | [] => n
        | cb :: _ =>
          let moved := mkNode childSuffix (value c) (children c) in
          let newNode :=
            match keySuffix with
            | kb :: _ =>
                mkNode (take prefixLen k) None
                       (<[kb := leaf keySuffix v]> {[ cb := moved ]})
            | [] => mkNode (take prefixLen k) (Some v) {[ cb := moved ]}
            end in
          set_child n b newNode
        end
    end
  end.
Proof.
  destruct n as [nk nv ch], k as [|b k']; simpl; [done|].
  rewrite lookup_fmap. case_decide as Hsz.
  - apply map_size_empty_iff in Hsz. simpl in Hsz. by rewrite Hsz, lookup_empty.
  - by destruct (ch !! b).
Qed.

Lemma delete_unfold n k :
  delete n k =
  match k with
  | [] => (n, false)
  | b :: _ =>
    match children n !! b with
    | None => (n, false)
    | Some c =>
      if decide (length k < length (key c)
                 ∨ take (length (key c)) k ≠ key c) then (n, false)
      else if decide (length k = length (key c)) then
        if decide (0 < size (children c)) then
          if hasValue c
          then (set_child n b (mkNode (key c) None (children c)), true)
          else (n, false)
        else (del_child n b, true)
      else
        let r := delete c (drop (length (key c)) k) in
        let c' := r.1 in
        if r.2 then
          if negb (hasValue c') && bool_decide (size (children c') = 0)
          then (del_child n b, true)
          else if negb (hasValue c') && bool_decide (size (children c') = 1)
          then (with_children n
                  (merge_into (<[b := c']> (children n)) b c'), true)
          else (set_child n b c', true)
        else (set_child n b c', false)
    end
  end.
Proof.
  destruct n as [nk nv ch], k as [|b k']; simpl; [done|].
  rewrite lookup_fmap. by destruct (ch !! b).
Qed.

(** ** Prefixes *)

Lemma strip_Some p k r : strip p k = Some r ↔ k = p ++ r.
Proof.
  unfold strip. case_decide as Hp; split.
  - intros [= <-]. by rewrite <- Hp at 1; rewrite take_drop.
  - intros ->. by rewrite drop_app_length.
  - done.
  - intros ->. by rewrite take_app_length in Hp.
Qed.

Lemma strip_app_l p r : strip p (p ++ r) = Some r.
Proof. by apply strip_Some. Qed.

Lemma strip_None p k : strip p k = None ↔ ∀ r, k ≠ p ++ r.
Proof.
  split.
  - intros Hn r ->. by rewrite strip_app_l in Hn.
  - intros Hn. destruct (strip p k) as [r|] eqn:E; [|done].
    apply strip_Some in E. by destruct (Hn r).
Qed.

Lemma strip_app p q k : strip (p ++ q) k = strip p k ≫= strip q.
Proof.
  destruct (strip p k) as [r|] eqn:Ep; simpl.
  - apply strip_Some in Ep as ->.
    destruct (strip q r) as [r'|] eqn:Eq.
    + apply strip_Some in Eq as ->. apply strip_Some. by rewrite app_assoc.
    + apply strip_None. intros r' E. rewrite <- app_assoc in E.
      simplify_list_eq. by rewrite strip_app_l in Eq.
  - apply strip_None. intros r E. rewrite <- app_assoc in E.
    by rewrite E, strip_app_l in Ep.
Qed.

Lemma strip_nil_r p : p ≠ [] → strip p [] = None.
Proof. intros Hp. apply strip_None. intros r E. by destruct p. Qed.

Lemma strip_head_ne x y p r : x ≠ y → strip (x :: p) (y :: r) = None.
Proof. intros Hxy. apply strip_None. intros r' E. naive_solver. Qed.

Lemma strip_self p : strip p p = Some [].
Proof. apply strip_Some. by rewrite app_nil_r. Qed.

Lemma commonPrefixLen_split (s1 s2 : str) :
  ∃ p (t1 t2 : str),
    s1 = p ++ t1 ∧ s2 = p ++ t2 ∧ commonPrefixLen s1 s2 = length p ∧
    match t1, t2 with x :: _, y :: _ => x ≠ y | _, _ => True end.
Proof.
  revert s2. induction s1 as [|x s1 IH]; intros [|y s2]; simpl.
  - by exists [], [], [].
  - by exists [], [], (y :: s2).
  - by exists [], (x :: s1), [].
  - case_decide as E.
    + subst. destruct (IH s2) as (p & t1 & t2 & -> & -> & -> & Hd).
      by exists (y :: p), t1, t2.
    + by exists [], (x :: s1), (y :: s2).
Qed.

(** ** Well-formed nodes and their meaning *)

Lemma wf_child n b c :
  wf n → children n !! b = Some c → head (key c) = Some b ∧ wf c.
Proof. intros [n' Hn]. apply Hn. Qed.

Lemma atChild_mk p (val : option V) (ch : gmap ascii (Node V)) r :
  atChild (mkNode p val ch) r =
  match strip p r with
  | Some [] => val
  | Some (x :: r') =>
      match ch !! x with
      | Some c => atChild c (x :: r')
      | None => None
      end
  | None => None
  end.
Proof.
  unfold atChild. cbn [key]. destruct (strip p r) as [r'|]; [|done].
  rewrite valueAt_unfold. by destruct r'.
Qed.

Lemma atChild_eta c r : atChild c r = atChild (mkNode (key c) (value c) (children c)) r.
Proof. by destruct c. Qed.

Lemma atChild_head c x r b :
  head (key c) = Some b → x ≠ b → atChild c (x :: r) = None.
Proof.
  intros Hh Hx. unfold atChild. destruct (key c) as [|y p]; simplify_eq/=.
  by rewrite strip_head_ne.
Qed.

Lemma atChild_nil c b : head (key c) = Some b → atChild c [] = None.
Proof.
  intros Hh. unfold atChild. rewrite strip_nil_r; [done|].
  by destruct (key c).
Qed.

Lemma set_child_spec n b c' k (o : option V) :
  wf n → wf c' → head (key c') = Some b → head k = Some b →
  (∀ r, atChild c' r =
        if decide (r = k) then o
        else match children n !! b with
             | Some c => atChild c r
             | None => None
             end) →
  key (set_child n b c') = key n ∧ wf (set_child n b c') ∧
  ∀ r, valueAt (set_child n b c') r
       = if decide (r = k) then o else valueAt n r.
Proof.
  intros Hn Hc' Hh Hk Hat. split_and!; [done| |].
  - constructor. intros x c; simpl. rewrite lookup_insert.
    case_decide; [intros [= <-]; by subst|]. by apply wf_child.
  - intros r. rewrite !(valueAt_unfold _ r). destruct r as [|x r]; simpl.
    + case_decide; [by subst|done].
    + rewrite lookup_insert. case_decide as Hx.
      * subst x. apply Hat.
      * case_decide; [|done]. subst k. naive_solver.
Qed.

Lemma del_child_spec n b k :
  wf n → head k = Some b →
  (∀ r, r ≠ k → match children n !! b with
                | Some c => atChild c r
                | None => None
                end = None) →
  key (del_child n b) = key n ∧ wf (del_child n b) ∧
  ∀ r, valueAt (del_child n b) r
       = if decide (r = k) then None else valueAt n r.
Proof.
  intros Hn Hk Hat. split_and!; [done| |].
  - constructor. intros x c; simpl. rewrite lookup_delete.
    case_decide; [done|]. by apply wf_child.
  - intros r. rewrite !(valueAt_unfold _ r). destruct r as [|x r]; simpl.
    + case_decide; [by subst|done].
    + rewrite lookup_delete. case_decide as Hx.
      * subst x. case_decide; [done|]. symmetry. by apply Hat.
      * case_decide; [|done]. subst k. naive_solver.
Qed.

Lemma unchanged_spec n k :
  valueAt n k = None →
  key n = key n ∧ (wf n → wf n) ∧
  ∀ r, valueAt n r = if decide (r = k) then None else valueAt n r.
Proof. intros Hk. split_and!; [done..|]. intros r. case_decide; by subst. Qed.

Lemma valueAt_barren n r : value n = None → children n = ∅ → valueAt n r = None.
Proof.
  intros Hv Hch. rewrite valueAt_unfold. destruct r; [done|].
  by rewrite Hch, lookup_empty.
Qed.

Lemma map_size_1_singleton {A} (m : gmap ascii A) :
  size m = 1 → ∃ i x, m = {[ i := x ]}.
Proof.
  intros Hsz. destruct (map_size_ne_0_lookup_1 m) as (i & x & Hi); [lia|].
  exists i, x. rewrite <- (insert_delete_id m i x Hi).
  assert (base.delete i m = ∅) as ->; [|done].
  apply map_size_empty_iff. rewrite map_size_delete_Some by eauto. lia.
Qed.

Lemma merge_into_singleton (ch : gmap ascii (Node V)) b c bg g :
  children c = {[ bg := g ]} →
  merge_into ch b c
  = <[b := mkNode (key c ++ key g) (value g) (children g)]> ch.
Proof. intros Hc. unfold merge_into. by rewrite Hc, map_to_list_singleton. Qed.

Lemma merged_atChild c bg g r :
  wf c → value c = None → children c = {[ bg := g ]} →
  atChild (mkNode (key c ++ key g) (value g) (children g)) r = atChild c r.
Proof.
  intros Hc Hv Hch. rewrite (atChild_eta c), !atChild_mk, Hv, Hch, strip_app.
  destruct (wf_child c bg g Hc) as [Hg _]; [by rewrite Hch, lookup_singleton_eq|].
  destruct (strip (key c) r) as [r'|]; simpl; [|done].
  destruct r' as [|x r'].
  - rewrite strip_nil_r; [done|]. by destruct (key g).
  - rewrite lookup_singleton. case_decide as Hx.
    + subst x. rewrite (atChild_eta g), atChild_mk. done.
    + destruct (key g) as [|y q]; simplify_eq/=. by rewrite strip_head_ne.
Qed.

(** Decide the length tests of [insert] and [delete] once the keys are
    written as concatenations. *)
Ltac dec_len :=
  match goal with
  | |- context [decide ?P] =>
      first [ rewrite (decide_True (P:=P))
                by (rewrite ?length_app; simpl; intuition lia)
            | rewrite (decide_False (P:=P))
                by (rewrite ?length_app; simpl; intuition lia) ]
  end.

Lemma insert_spec n :
  wf n → ∀ k v, k ≠ [] →
  key (insert n k v) = key n ∧ wf (insert n k v) ∧
  ∀ r, valueAt (insert n k v) r
       = if decide (r = k) then Some v else valueAt n r.
Proof.
  induction n as [n IH] using node_ind. intros Hn k v Hk.
  destruct k as [|b k']; [done|]. rewrite insert_unfold.
  destruct (children n !! b) as [c|] eqn:Hc.
  2:{ (* no child under this byte: a fresh leaf *)
    apply set_child_spec; [done| |done|done|].
    - constructor. intros x c; simpl. by rewrite lookup_empty.
    - intros r. rewrite Hc. unfold leaf. rewrite atChild_mk.
      destruct (strip (b :: k') r) as [[|x r']|] eqn:E.
      + apply strip_Some in E. rewrite app_nil_r in E. by rewrite decide_True.
      + apply strip_Some in E. rewrite lookup_empty, decide_False; [done|].
        intros ->. by apply (f_equal length) in E; rewrite length_app in E; simpl in E; lia.
      + rewrite decide_False; [done|]. intros ->. by rewrite strip_self in E. }
  destruct (wf_child _ _ _ Hn Hc) as [Hhc Hwc].
  destruct (commonPrefixLen_split (b :: k') (key c))
    as (p & t1 & t2 & Ek & Ec & -> & Hd).
  assert (Hp : head p = Some b).
  { destruct p as [|x p']; simplify_eq/=; [|done].
    destruct (key c) as [|y q]; simplify_eq/=. }
  rewrite Ek, Ec. cbv zeta. rewrite !drop_app_length, !take_app_length.
  clear Hk Ek k'.
  assert (Hk : ∀ t, head (p ++ t) = Some b) by (intros; by destruct p).
  destruct t1 as [|kb t1], t2 as [|cb t2];
    try rewrite app_nil_r in Ec; rewrite ?app_nil_r.
  - (* the key is already in the tree *)
    repeat dec_len.
    apply set_child_spec; try (simpl; first [assumption | apply Hk | apply Hp]).
    { constructor. intros x d; simpl. by apply wf_child. }
    intros r. rewrite Hc, (atChild_eta c), !atChild_mk, Ec.
    destruct (strip p r) as [[|x r']|] eqn:E.
    + apply strip_Some in E. rewrite app_nil_r in E. by rewrite decide_True.
    + apply strip_Some in E. rewrite decide_False; [done|].
      intros ->. apply (f_equal length) in E. rewrite length_app in E.
      simpl in E. lia.
    + rewrite decide_False; [done|]. intros ->. by rewrite strip_self in E.
  - (* the key is a proper prefix of the child key: split the child *)
    repeat dec_len.
    apply set_child_spec; try (simpl; first [assumption | apply Hk | apply Hp]).
    { constructor. intros x d; simpl. rewrite lookup_singleton.
      case_decide; [|done]. intros [= <-]; subst x. split; [done|].
      constructor. intros y e; simpl. by apply wf_child. }
    intros r. rewrite Hc, (atChild_eta c), !atChild_mk, Ec, strip_app.
    destruct (strip p r) as [r'|] eqn:E; simpl.
    2:{ rewrite decide_False; [done|]. intros ->. by rewrite strip_self in E. }
    apply strip_Some in E. subst r. destruct r' as [|x r'].
    { rewrite app_nil_r. by rewrite decide_True. }
    rewrite decide_False.
    2:{ intros E. apply (f_equal length) in E. rewrite length_app in E.
        simpl in E. lia. }
    rewrite lookup_singleton. case_decide as Hx.
    + subst x. by rewrite atChild_mk.
    + by rewrite strip_head_ne.
  - (* the child key is a proper prefix of the key: recurse *)
    repeat dec_len.
    destruct (IH _ _ Hc Hwc (kb :: t1) v) as (Hkey & Hwf & Hat); [done|].
    apply set_child_spec; try (simpl; first [assumption | apply Hk | apply Hp]).
    { by rewrite Hkey. }
    intros r. rewrite Hc. unfold atChild. rewrite Hkey, Ec.
    destruct (strip p r) as [r'|] eqn:E.
    2:{ rewrite decide_False; [done|]. intros ->. by rewrite strip_app_l in E. }
    apply strip_Some in E. subst r. rewrite Hat.
    repeat case_decide; simplify_list_eq; done.
  - (* neither is a prefix of the other: split at the common prefix *)
    repeat dec_len.
    apply set_child_spec; try (simpl; first [assumption | apply Hk | apply Hp]).
    { constructor. intros x d; simpl. rewrite lookup_insert.
      case_decide; [intros [= <-]; subst x; split; [done|]|].
      - constructor. intros y e; simpl. by rewrite lookup_empty.
      - rewrite lookup_singleton. case_decide; [|done].
        intros [= <-]; subst x. split; [done|].
        constructor. intros y e; simpl. by apply wf_child. }
    intros r. rewrite Hc, (atChild_eta c), !atChild_mk, Ec, strip_app.
    destruct (strip p r) as [r'|] eqn:E; simpl.
    2:{ rewrite decide_False; [done|]. intros ->. by rewrite strip_app_l in E. }
    apply strip_Some in E. subst r. destruct r' as [|x r'].
    { rewrite decide_False; [done|]. intros E. by simplify_list_eq. }
    rewrite lookup_insert. case_decide as Hx.
    + subst x. unfold leaf. rewrite atChild_mk, (strip_head_ne cb kb) by done.
      destruct (strip (kb :: t1) (kb :: r')) as [[|y r'']|] eqn:E;
        [apply strip_Some in E; rewrite app_nil_r in E; simplify_eq;
         by rewrite decide_True
        |apply strip_Some in E; rewrite lookup_empty, decide_False; [done|];
         intros E'; simplify_list_eq;
         apply (f_equal length) in E; rewrite length_app in E; simpl in E; lia
        |rewrite decide_False; [done|]; intros E'; simplify_list_eq;
         by rewrite strip_self in E].
    + rewrite decide_False by (intros E; by simplify_list_eq).
      rewrite lookup_singleton. case_decide as Hy.
      * subst x. by rewrite atChild_mk.
      * by rewrite strip_head_ne.
Qed.


Lemma negb_hasValue (n : Node V) : negb (hasValue n) = true ↔ value n = None.
Proof.
  unfold hasValue. destruct (value n); simpl; split; (done || eauto).
Qed.

Lemma delete_spec n :
  wf n → ∀ k, k ≠ [] →
  key (delete n k).1 = key n ∧ wf (delete n k).1 ∧
  ∀ r, valueAt (delete n k).1 r
       = if decide (r = k) then None else valueAt n r.
Proof.
  induction n as [n IH] using node_ind. intros Hn k Hk.
  destruct k as [|b k']; [done|]. rewrite delete_unfold.
  assert (Hsame : valueAt n (b :: k') = None →
          key n = key n ∧ wf n ∧
          ∀ r, valueAt n r
               = if decide (r = b :: k') then None else valueAt n r).
  { intros E. split_and!; [done..|]. intros r. case_decide; by subst. }
  destruct (children n !! b) as [c|] eqn:Hc.
  2:{ apply Hsame. by rewrite valueAt_unfold, Hc. }
  destruct (wf_child _ _ _ Hn Hc) as [Hhc Hwc].
  case_decide as Hmis.
  { simpl. apply Hsame. rewrite valueAt_unfold, Hc. unfold atChild, strip.
    rewrite decide_False; [done|]. intros E. destruct Hmis as [Hlt|]; [|done].
    apply (f_equal length) in E. rewrite length_take in E. lia. }
  assert (∃ rem, b :: k' = key c ++ rem) as [rem Ek].
  { exists (drop (length (key c)) (b :: k')).
    rewrite <- (take_drop (length (key c)) (b :: k')) at 1.
    f_equal. destruct (decide (take (length (key c)) (b :: k') = key c));
      [done|]. destruct Hmis. by right. }
  clear Hmis Hsame Hk. rewrite Ek. clear Ek k'.
  assert (Hk : head (key c ++ rem) = Some b) by (by destruct (key c)).
  rewrite drop_app_length.
  assert (Hsame : valueAt n (key c ++ rem) = None →
          key n = key n ∧ wf n ∧
          ∀ r, valueAt n r
               = if decide (r = key c ++ rem) then None else valueAt n r).
  { intros E. split_and!; [done..|]. intros r. case_decide; by subst. }
  assert (Hatn : valueAt n (key c ++ rem) = valueAt c rem).
  { rewrite valueAt_unfold. destruct (key c ++ rem) eqn:E; simplify_eq/=.
    rewrite Hc. unfold atChild. by rewrite <- E, strip_app_l. }
  destruct rem as [|x rem].
  - (* the whole key is matched *)
    rewrite app_nil_r in Hk, Hsame, Hatn. rewrite app_nil_r.
    rewrite (decide_True (P := length (key c) = length (key c))) by done.
    case_decide as Hsz.
    + destruct (value c) as [v|] eqn:Hv.
      * replace (hasValue c) with true by (unfold hasValue; by rewrite Hv).
        simpl. apply set_child_spec; try (simpl; first [assumption | apply Hk]).
        { constructor. intros y d; simpl. by apply wf_child. }
        intros r. rewrite Hc, (atChild_eta c), !atChild_mk.
        destruct (strip (key c) r) as [[|y r']|] eqn:E.
        -- apply strip_Some in E. rewrite app_nil_r in E.
           by rewrite decide_True.
        -- apply strip_Some in E. rewrite decide_False; [done|].
           intros ->. apply (f_equal length) in E. rewrite length_app in E.
           simpl in E. lia.
        -- rewrite decide_False; [done|]. intros ->.
           by rewrite strip_self in E.
      * replace (hasValue c) with false by (unfold hasValue; by rewrite Hv).
        simpl. apply Hsame. by rewrite Hatn, valueAt_nil.
    + simpl. apply del_child_spec; try (simpl; first [assumption | apply Hk]).
      intros r Hr. rewrite Hc. unfold atChild.
      destruct (strip (key c) r) as [r'|] eqn:E; [|done].
      apply strip_Some in E. subst r. rewrite valueAt_unfold.
      destruct r' as [|y r']; [by rewrite app_nil_r in Hr|].
      assert (children c = ∅) as -> by (apply map_size_empty_iff; lia).
      by rewrite lookup_empty.
  - (* the key continues below the child *)
    rewrite (decide_False (P := length (key c ++ x :: rem) = length (key c)))
      by (rewrite length_app; simpl; lia).
    destruct (IH _ _ Hc Hwc (x :: rem)) as (Hkey & Hwf & Hat); [done|].
    destruct (delete c (x :: rem)) as [c' deleted]. simpl in *.
    assert (Hat' : ∀ r, atChild c' r =
                        if decide (r = key c ++ x :: rem) then None
                        else match children n !! b with
                             | Some c => atChild c r
                             | None => None
                             end).
    { intros r. rewrite Hc. unfold atChild. rewrite Hkey.
      destruct (strip (key c) r) as [r'|] eqn:E.
      - apply strip_Some in E. subst r. rewrite Hat.
        repeat case_decide; simplify_list_eq; done.
      - rewrite decide_False; [done|]. intros ->.
        by rewrite strip_app_l in E. }
    assert (Hset : key (set_child n b c') = key n ∧ wf (set_child n b c') ∧
              ∀ r, valueAt (set_child n b c') r
                   = if decide (r = key c ++ x :: rem) then None
                     else valueAt n r).
    { apply set_child_spec; try (simpl; first [assumption | apply Hk]). by rewrite Hkey. }
    destruct deleted; simpl; [|done].
    destruct (negb (hasValue c')) eqn:Hnv; simpl; [|done].
    apply negb_hasValue in Hnv.
    case_bool_decide as Hsz0; simpl.
    { apply del_child_spec; try (simpl; first [assumption | apply Hk]). intros r Hr.
      specialize (Hat' r). rewrite decide_False in Hat' by done.
      rewrite <- Hat'. unfold atChild. destruct (strip (key c') r); [|done].
      apply valueAt_barren; [done|]. by apply map_size_empty_iff. }
    case_bool_decide as Hsz1; simpl; [|done].
    destruct (map_size_1_singleton _ Hsz1) as (bg & g & Hch).
    rewrite (merge_into_singleton _ _ _ bg g Hch), insert_insert_eq.
    destruct (wf_child c' bg g Hwf) as [Hg Hwg];
      [by rewrite Hch, lookup_singleton_eq|].
    apply (set_child_spec n b _ (key c ++ x :: rem) None);
      try (simpl; first [assumption | apply Hk]).
    + constructor. intros y e; simpl. by apply wf_child.
    + simpl. rewrite Hkey. by destruct (key c).
    + intros r. rewrite (merged_atChild c' bg g r Hwf Hnv Hch). apply Hat'.
Qed.

(** ** [Get] reads the meaning of the tree *)

Lemma findLoop_valueAt n k :
  k ≠ [] → findLoop n k ≫= value = valueAt n k.
Proof.
  revert k. induction n as [n IH] using node_ind. intros k Hk.
  rewrite findLoop_unfold, valueAt_unfold. destruct k as [|b k']; [done|].
  destruct (children n !! b) as [c|] eqn:Hc; [|done].
  unfold atChild, strip. case_decide as Hlt.
  { rewrite decide_False; [done|]. intros E. apply (f_equal length) in E.
    rewrite length_take in E. lia. }
  case_decide as Hne; [by rewrite decide_False|].
  rewrite (decide_True (P := take (length (key c)) (b :: k') = key c))
    by done.
  case_decide as Hlen.
  - rewrite drop_ge by lia. simpl. by rewrite valueAt_nil.
  - apply (IH b c Hc). intros E.
    assert (El : length (drop (length (key c)) (b :: k')) = 0)
      by (by rewrite E).
    rewrite length_drop in El. lia.
Qed.

Lemma Get_valueAt (t : Tree V) k :
  value (root t) = None → Get t k = valueAt (root t) k.
Proof.
  intros Hv. unfold Get, findNode. destruct k as [|b k'].
  - by rewrite valueAt_nil.
  - rewrite <- findLoop_valueAt by done. by destruct (findLoop _ _).
Qed.

(** ** Sequences of operations *)

Lemma run_snoc (ops : list (op V)) o : run (ops ++ [o]) = apply (run ops) o.
Proof. unfold run. by rewrite foldl_app. Qed.

Lemma denote_snoc (ops : list (op V)) o :
  denote (ops ++ [o]) = denote_op (denote ops) o.
Proof. unfold denote. by rewrite foldl_app. Qed.

Lemma denote_nil_key (ops : list (op V)) : denote ops !! ([] : str) = None.
Proof.
  induction ops as [|o ops IH] using rev_ind; [done|].
  rewrite denote_snoc. destruct o as [[|b k] v|k]; simpl; [done| |].
  - by rewrite lookup_insert_ne.
  - rewrite lookup_delete. by case_decide.
Qed.

Lemma delete_nil n : delete n [] = (n, false).
Proof. by destruct n. Qed.

Lemma root_Insert (t : Tree V) b k v :
  root (Insert t (b :: k) v) = insert (root t) (b :: k) v.
Proof. done. Qed.

Lemma root_Delete (t : Tree V) k : root (Delete t k).1 = (delete (root t) k).1.
Proof. done. Qed.

(** What every tree reached by [Insert] and [Delete] satisfies, and its
    meaning. *)
Lemma run_invariant (ops : list (op V)) :
  wf (root (run ops)) ∧ key (root (run ops)) = [] ∧
  ∀ k, valueAt (root (run ops)) k = denote ops !! k.
Proof.
  induction ops as [|o ops (Hwf & Hkey & Hat)] using rev_ind.
  - split_and!; [|reflexivity|].
    + constructor. intros b c; simpl. by rewrite lookup_empty.
    + intros k. change (denote []) with (∅ : gmap str V).
      rewrite lookup_empty. by apply valueAt_barren.
  - rewrite run_snoc, denote_snoc.
    destruct o as [[|b k'] v|[|b k']]; cbn [apply denote_op].
    + by split_and!.
    + rewrite root_Insert.
      destruct (insert_spec _ Hwf (b :: k') v) as (Hkey' & Hwf' & Hat');
        [discriminate|].
      split_and!; [exact Hwf'|congruence|]. intros r.
      rewrite Hat', lookup_insert, Hat.
      repeat case_decide; congruence.
    + rewrite root_Delete, delete_nil. cbn [fst].
      split_and!; [exact Hwf|exact Hkey|]. intros r.
      rewrite Hat, lookup_delete.
      case_decide; [|reflexivity]. subst r. apply denote_nil_key.
    + rewrite root_Delete.
      destruct (delete_spec _ Hwf (b :: k')) as (Hkey' & Hwf' & Hat');
        [discriminate|].
      split_and!; [exact Hwf'|congruence|]. intros r.
      rewrite Hat', lookup_delete, Hat.
      repeat case_decide; congruence.
Qed.

(** ** [Walk] *)

Lemma walk_unfold (fn : str → V → bool) n prefix :
  walk fn n prefix =
  let fullKey := prefix ++ key n in
  let below :=
    walkChildren (prod_map id (walk fn) <$> map_to_list (children n))
                 fullKey in
  match value n with
  | Some v =>
      if fn fullKey v then ([(fullKey, v)], true)
      else ((fullKey, v) :: below.1, below.2)
  | None => below
  end.
Proof. destruct n as [nk nv ch]; simpl. by rewrite map_to_list_fmap. Qed.

Lemma walkChildren_all (l : list (ascii * Node V)) (pre : str) :
  (∀ bc, bc ∈ l → (walk visitAll bc.2 pre).2 = false) →
  walkChildren (prod_map id (walk visitAll) <$> l) pre
  = (l ≫= λ bc, (walk visitAll bc.2 pre).1, false).
Proof.
  induction l as [|[b c] l IH]; intros Hall; [done|].
  assert (Hc : (walk visitAll c pre).2 = false)
    by (apply (Hall (b, c)); left).
  assert (IH' := IH (λ bc Hbc, Hall bc (list_elem_of_further _ _ _ Hbc))).
  cbn [fmap list_fmap walkChildren prod_map fst snd id] in IH' |- *.
  by rewrite Hc, IH'.
Qed.

Lemma walk_visitAll n :
  ∀ pre, walk visitAll n pre
  = (own_visit n pre
       ++ (map_to_list (children n)
             ≫= λ bc, (walk visitAll bc.2 (pre ++ key n)).1), false).
Proof.
  induction n as [n IH] using node_ind. intros pre.
  rewrite walk_unfold. cbv zeta. rewrite walkChildren_all.
  - unfold own_visit. by destruct (value n).
  - intros [b c] Hbc%elem_of_map_to_list. simpl.
    by rewrite (IH b c Hbc).
Qed.

Lemma walk_elem_of n :
  wf n → ∀ pre k v,
  (k, v) ∈ (walk visitAll n pre).1 ↔
  ∃ r, k = pre ++ key n ++ r ∧ valueAt n r = Some v.
Proof.
  induction n as [n IH] using node_ind. intros Hn pre k v.
  rewrite walk_visitAll. simpl. rewrite elem_of_app, list_elem_of_bind.
  split.
  - intros [Hown|([b c] & Hin & Hbc)].
    + exists []. unfold own_visit in Hown. rewrite valueAt_nil, app_nil_r.
      destruct (value n); [|by apply elem_of_nil in Hown].
      apply list_elem_of_singleton in Hown. by simplify_eq.
    + apply elem_of_map_to_list in Hbc. simpl in Hin.
      destruct (wf_child _ _ _ Hn Hbc) as [Hh Hwc].
      apply (IH b c Hbc Hwc) in Hin as (r' & -> & Hv).
      exists (key c ++ r'). split; [by rewrite <- !app_assoc|].
      rewrite valueAt_unfold. destruct (key c) as [|x q] eqn:Ekc; [done|].
      simplify_eq/=. rewrite Hbc. unfold atChild.
      change (b :: q ++ r') with ((b :: q) ++ r').
      by rewrite <- Ekc, strip_app_l.
  - intros (r & -> & Hv). rewrite valueAt_unfold in Hv.
    destruct r as [|x r].
    + left. unfold own_visit. rewrite Hv, app_nil_r. by left.
    + right. destruct (children n !! x) as [c|] eqn:Hc; [|done].
      exists (x, c). split; [|by apply elem_of_map_to_list].
      destruct (wf_child _ _ _ Hn Hc) as [Hh Hwc]. simpl.
      apply (IH x c Hc Hwc). unfold atChild in Hv.
      destruct (strip (key c) (x :: r)) as [r'|] eqn:E; [|done].
      apply strip_Some in E. exists r'. rewrite E. by rewrite <- !app_assoc.
Qed.

Lemma fmap_bind_list {A B C} (f : B → C) (g : A → list B) (l : list A) :
  f <$> (l ≫= g) = l ≫= (λ x, f <$> g x).
Proof.
  induction l as [|x l IH]; [done|].
  by rewrite !bind_cons, fmap_app, IH.
Qed.

Lemma walk_NoDup n : wf n → ∀ pre, NoDup (walk visitAll n pre).1.*1.
Proof.
  induction n as [n IH] using node_ind. intros Hn pre.
  rewrite walk_visitAll. simpl. rewrite fmap_app. apply NoDup_app.
  split_and!.
  - unfold own_visit. destruct (value n); simpl;
      [apply NoDup_singleton|apply NoDup_nil_2].
  - intros k Hown Hbelow. unfold own_visit in Hown.
    destruct (value n); simpl in Hown; [|by apply elem_of_nil in Hown].
    apply list_elem_of_singleton in Hown. subst k.
    apply list_elem_of_fmap in Hbelow as ([k v'] & Ek & Hin). simpl in Ek.
    apply list_elem_of_bind in Hin as ([b c] & Hin & Hbc).
    apply elem_of_map_to_list in Hbc. simpl in Hin.
    destruct (wf_child _ _ _ Hn Hbc) as [Hh Hwc].
    apply (walk_elem_of c Hwc) in Hin as (r' & -> & _).
    apply (f_equal length) in Ek. rewrite !length_app in Ek.
    destruct (key c); simplify_eq/=. lia.
  - rewrite fmap_bind_list. apply NoDup_bind.
    + intros [b1 c1] [b2 c2] k H1 H2 Hk1 Hk2.
      apply elem_of_map_to_list in H1, H2. simpl in Hk1, Hk2.
      destruct (wf_child _ _ _ Hn H1) as [Hh1 Hw1].
      destruct (wf_child _ _ _ Hn H2) as [Hh2 Hw2].
      apply list_elem_of_fmap in Hk1 as ([k1 v1] & -> & Hk1).
      apply list_elem_of_fmap in Hk2 as ([k2 v2] & Ek & Hk2).
      apply (walk_elem_of c1 Hw1) in Hk1 as (r1 & -> & _).
      apply (walk_elem_of c2 Hw2) in Hk2 as (r2 & -> & _).
      simpl in Ek. apply app_inv_head in Ek.
      destruct (key c1) as [|x1 q1], (key c2) as [|x2 q2]; simplify_eq/=.
      congruence.
    + intros [b c] Hbc%elem_of_map_to_list. simpl.
      destruct (wf_child _ _ _ Hn Hbc) as [Hh Hwc]. by apply (IH b c).
    + apply NoDup_map_to_list.
Qed.

(** ** The tree as a finite map *)

(** C1.  For every sequence of [Insert] and [Delete] operations starting
    from [New], [Get] of any key returns exactly what the sequence leaves
    in the map it denotes: the value of the most recent [Insert] of the
    key when the key was inserted and not deleted afterwards, not-found
    when it was deleted or never inserted (the empty key, which [Insert]
    rejects, is never present).  [Walk] with a visitor that never stops
    visits exactly the keys present, each with its value and each once. *)
Theorem trie_get_walk_correct (ops : list (op V)) :
  (∀ k, Get (run ops) k = denote ops !! k) ∧
  (∀ k v, (k, v) ∈ Walk (run ops) visitAll ↔ denote ops !! k = Some v) ∧
  NoDup (Walk (run ops) visitAll).*1.
Proof.
  destruct (run_invariant ops) as (Hwf & Hkey & Hat).
  assert (Hv : value (root (run ops)) = None).
  { rewrite <- valueAt_nil, Hat. apply denote_nil_key. }
  split_and!.
  - intros k. by rewrite Get_valueAt, Hat.
  - intros k v. unfold Walk. rewrite walk_elem_of by exact Hwf.
    rewrite Hkey. simpl. split.
    + intros (r & -> & Hr). by rewrite <- Hat.
    + intros Hk. exists k. by rewrite Hat.
  - unfold Walk. by apply walk_NoDup.
Qed.

(** ** Further properties of the tree *)

Lemma Get_run (ops : list (op V)) k : Get (run ops) k = denote ops !! k.
Proof.
  destruct (run_invariant ops) as (_ & _ & Hat).
  rewrite Get_valueAt, Hat; [reflexivity|].
  rewrite <- valueAt_nil, Hat. apply denote_nil_key.
Qed.

(** X1.  [commonPrefixLen a b] is the length of the longest common prefix of
    [a] and [b]. *)
Theorem commonPrefixLen_longest (s1 s2 : str) :
  let n := commonPrefixLen s1 s2 in
  (n ≤ length s1 ∧ n ≤ length s2 ∧ take n s1 = take n s2 ∧
   ∀ m, m ≤ length s1 → m ≤ length s2 → take m s1 = take m s2 → m ≤ n)%nat.
Proof.
  cbv zeta.
  destruct (commonPrefixLen_split s1 s2) as (p & t1 & t2 & -> & -> & -> & Hd).
  rewrite !length_app, !take_app_length. split_and!; [lia|lia|done|].
  intros m Hm1 Hm2 Hm. destruct (decide (m ≤ length p)%nat) as [|Hgt]; [done|].
  exfalso. rewrite !take_app in Hm. apply app_inj_1 in Hm as [_ Hm].
  2:{ rewrite !length_take. lia. }
  destruct t1 as [|x t1], t2 as [|y t2]; simpl in *; try lia.
  replace (m - length p)%nat with (S (m - length p - 1)) in Hm by lia.
  simpl in Hm. by simplify_eq.
Qed.

(** *** [Walk] with a visitor that may stop *)

Lemma untilStop_app (fn : str → V → bool) (l1 l2 : list (str * V)) :
  untilStop fn (l1 ++ l2) =
  if (untilStop fn l1).2 then untilStop fn l1
  else ((untilStop fn l1).1 ++ (untilStop fn l2).1, (untilStop fn l2).2).
Proof.
  induction l1 as [|[k v] l1 IH]; simpl.
  - by destruct (untilStop fn l2).
  - destruct (fn k v); [done|]. rewrite IH.
    by destruct (untilStop fn l1) as [s1 [|]].
Qed.

(** *** [Walk] under any iteration order *)

Lemma rangeOver_fmap {X Y} (f : X → Y) order fullKey (m : gmap ascii X) :
  rangeOver order fullKey (f <$> m)
  = prod_map id f <$> rangeOver order fullKey m.
Proof.
  unfold rangeOver. rewrite map_to_list_fmap.
  assert (Hk : (prod_map id f <$> map_to_list m).*1 = (map_to_list m).*1).
  { rewrite <- list_fmap_compose. apply list_fmap_ext. by intros i [b x]. }
  rewrite Hk. generalize (order fullKey (map_to_list m).*1). intros l.
  induction l as [|b l IH]; [done|].
  cbn [omap list_omap]. rewrite lookup_fmap.
  destruct (m !! b) as [x|]; cbn; by rewrite IH.
Qed.

Lemma rangeOver_elem_of {X} order fullKey (m : gmap ascii X) b x :
  (b, x) ∈ rangeOver order fullKey m → m !! b = Some x.
Proof.
  unfold rangeOver. intros (b' & _ & Hb)%list_elem_of_omap.
  destruct (m !! b') as [x'|] eqn:E; simplify_eq/=. done.
Qed.

Lemma omap_keys_lookup {X} (m : gmap ascii X) (l : list (ascii * X)) :
  (∀ b x, (b, x) ∈ l → m !! b = Some x) →
  omap (λ b, pair b <$> m !! b) l.*1 = l.
Proof.
  induction l as [|[b x] l IH]; intros Hl; [done|].
  cbn [fmap list_fmap omap list_omap fst].
  rewrite (Hl b x) by left. cbn. f_equal.
  apply IH. intros b' x' Hin. apply Hl. by right.
Qed.

Lemma rangeOver_perm {X} order fullKey (m : gmap ascii X) :
  (∀ p bs, order p bs ≡ₚ bs) →
  rangeOver order fullKey m ≡ₚ map_to_list m.
Proof.
  intros Hp. unfold rangeOver. rewrite Hp.
  rewrite omap_keys_lookup; [done|].
  intros b x. apply elem_of_map_to_list.
Qed.

Lemma walkIn_unfold order (fn : str → V → bool) n prefix :
  walkIn order fn n prefix =
  let fullKey := prefix ++ key n in
  let below :=
    walkChildren
      (prod_map id (walkIn order fn) <$> rangeOver order fullKey (children n))
      fullKey in
  match value n with
  | Some v =>
      if fn fullKey v then ([(fullKey, v)], true)
      else ((fullKey, v) :: below.1, below.2)
  | None => below
  end.
Proof. destruct n as [nk nv ch]; simpl. by rewrite rangeOver_fmap. Qed.

Lemma walkChildren_never (g : Node V → str → list (str * V) * bool)
    (l : list (ascii * Node V)) (pre : str) :
  (∀ bc, bc ∈ l → (g bc.2 pre).2 = false) →
  walkChildren (prod_map id g <$> l) pre
  = (l ≫= λ bc, (g bc.2 pre).1, false).
Proof.
  induction l as [|[b c] l IH]; intros Hall; [done|].
  assert (Hc : (g c pre).2 = false) by (apply (Hall (b, c)); left).
  assert (IH' := IH (λ bc Hbc, Hall bc (list_elem_of_further _ _ _ Hbc))).
  cbn [fmap list_fmap walkChildren prod_map fst snd id] in IH' |- *.
  by rewrite Hc, IH'.
Qed.

Lemma walkIn_visitAll order n :
  ∀ pre, walkIn order visitAll n pre
  = (own_visit n pre
       ++ (rangeOver order (pre ++ key n) (children n)
             ≫= λ bc, (walkIn order visitAll bc.2 (pre ++ key n)).1), false).
Proof.
  induction n as [n IH] using node_ind. intros pre.
  rewrite walkIn_unfold. cbv zeta. rewrite walkChildren_never.
  - unfold own_visit. by destruct (value n).
  - intros [b c] Hbc%rangeOver_elem_of. simpl.
    by rewrite (IH b c Hbc).
Qed.

Lemma bind_perm_ext {A B} (f g : A → list B) (l : list A) :
  (∀ x, x ∈ l → f x ≡ₚ g x) → l ≫= f ≡ₚ l ≫= g.
Proof.
  induction l as [|x l IH]; intros Hfg; [done|].
  rewrite !bind_cons. rewrite (Hfg x) by left.
  apply Permutation_app_head, IH. intros y Hy. apply Hfg. by right.
Qed.

(** Whatever the order, a walk that is never stopped visits what the
    walk in the order of [map_to_list] visits. *)
Lemma walkIn_perm order n :
  (∀ p bs, order p bs ≡ₚ bs) →
  ∀ pre, (walkIn order visitAll n pre).1 ≡ₚ (walk visitAll n pre).1.
Proof.
  intros Hp. induction n as [n IH] using node_ind. intros pre.
  rewrite walkIn_visitAll, walk_visitAll. cbn [fst].
  apply Permutation_app_head.
  rewrite (rangeOver_perm order _ (children n) Hp).
  apply bind_perm_ext. intros [b c] Hbc%elem_of_map_to_list. simpl.
  by apply (IH b c).
Qed.

Lemma walkChildren_stops (fn : str → V → bool)
    (g gAll : Node V → str → list (str * V) * bool)
    (l : list (ascii * Node V)) (pre : str) :
  (∀ bc, bc ∈ l → g bc.2 pre = untilStop fn (gAll bc.2 pre).1) →
  walkChildren (prod_map id g <$> l) pre
  = untilStop fn (l ≫= λ bc, (gAll bc.2 pre).1).
Proof.
  induction l as [|[b c] l IH]; intros Hall; [done|].
  rewrite bind_cons, untilStop_app.
  assert (Hc := Hall (b, c) ltac:(left)).
  assert (IH' := IH (λ bc Hbc, Hall bc (list_elem_of_further _ _ _ Hbc))).
  cbn [fmap list_fmap walkChildren prod_map fst snd id] in Hc, IH' |- *.
  rewrite Hc, IH'.
  destruct (untilStop fn (gAll c pre).1) as [seen [|]]; simpl;
    [done|]. by destruct (untilStop fn _).
Qed.

Lemma walkIn_untilStop order (fn : str → V → bool) n :
  ∀ pre, walkIn order fn n pre
         = untilStop fn (walkIn order visitAll n pre).1.
Proof.
  induction n as [n IH] using node_ind. intros pre.
  rewrite walkIn_visitAll, walkIn_unfold. cbv zeta. cbn [fst].
  rewrite (walkChildren_stops fn _ (walkIn order visitAll)).
  - unfold own_visit. destruct (value n) as [v|]; simpl; [|done].
    destruct (fn (pre ++ key n) v); [done|]. by destruct (untilStop fn _).
  - intros [b c] Hbc%rangeOver_elem_of. simpl. by apply (IH b c).
Qed.

Lemma walkChildren_ext (g g' : Node V → str → list (str * V) * bool)
    (l : list (ascii * Node V)) (pre : str) :
  (∀ bc, bc ∈ l → ∀ pre', g bc.2 pre' = g' bc.2 pre') →
  walkChildren (prod_map id g <$> l) pre
  = walkChildren (prod_map id g' <$> l) pre.
Proof.
  induction l as [|[b c] l IH]; intros Hall; [done|].
  assert (Hc := Hall (b, c) ltac:(left) pre).
  assert (IH' := IH (λ bc Hbc, Hall bc (list_elem_of_further _ _ _ Hbc))).
  cbn [fmap list_fmap walkChildren prod_map fst snd id] in Hc, IH' |- *.
  by rewrite Hc, IH'.
Qed.

(** The order of [map_to_list] is one of the orders: [walk] is the run of
    [walkIn] that takes the children as [map_to_list] lists them. *)
Lemma walk_is_walkIn (fn : str → V → bool) n :
  ∀ pre, walkIn (λ _ bs, bs) fn n pre = walk fn n pre.
Proof.
  induction n as [n IH] using node_ind. intros pre.
  rewrite walkIn_unfold, walk_unfold. cbv zeta.
  assert (Hr : rangeOver (λ _ bs, bs) (pre ++ key n) (children n)
               = map_to_list (children n)).
  { unfold rangeOver. apply omap_keys_lookup.
    intros b x. apply elem_of_map_to_list. }
  rewrite Hr.
  rewrite (walkChildren_ext (walkIn (λ _ bs, bs) fn) (walk fn)).
  - reflexivity.
  - intros [b c] Hbc%elem_of_map_to_list pre'. simpl. by apply (IH b c).
Qed.

Lemma untilStop_prefix (fn : str → V → bool) (l : list (str * V)) :
  (untilStop fn l).1 `prefix_of` l.
Proof.
  induction l as [|[k v] l IH]; [done|]. cbn [untilStop].
  destruct (fn k v); cbn [fst].
  - by apply (prefix_cons _ []), prefix_nil.
  - by apply prefix_cons.
Qed.

Lemma untilStop_last (fn : str → V → bool) (l : list (str * V)) i k v :
  (untilStop fn l).1 !! i = Some (k, v) → fn k v = true →
  length (untilStop fn l).1 = S i.
Proof.
  revert i. induction l as [|[k' v'] l IH]; intros i; [done|].
  cbn [untilStop]. destruct (fn k' v') eqn:E; cbn [fst].
  - destruct i as [|i]; [done|]. by destruct i.
  - destruct i as [|i]; cbn.
    + intros [= -> ->] Hf. congruence.
    + intros Hi Hf. f_equal. by apply IH.
Qed.

Lemma untilStop_all (fn : str → V → bool) (l : list (str * V)) :
  (∀ k v, (k, v) ∈ (untilStop fn l).1 → fn k v = false) →
  (untilStop fn l).1 = l.
Proof.
  induction l as [|[k v] l IH]; [done|]. cbn [untilStop].
  destruct (fn k v) eqn:E; cbn [fst]; intros Hall.
  - specialize (Hall k v ltac:(left)). congruence.
  - f_equal. apply IH. intros k' v' Hin. apply Hall. by right.
Qed.

Lemma Walk_entries (ops : list (op V)) :
  Walk (run ops) visitAll ≡ₚ map_to_list (denote ops).
Proof.
  destruct (run_invariant ops) as (Hwf & Hkey & Hat).
  apply NoDup_Permutation.
  - eapply NoDup_fmap_1. unfold Walk. by apply walk_NoDup.
  - apply NoDup_map_to_list.
  - intros [k v]. rewrite elem_of_map_to_list. unfold Walk.
    rewrite walk_elem_of by exact Hwf. rewrite Hkey. simpl. split.
    + intros (r & -> & Hr). by rewrite <- Hat.
    + intros Hk. exists k. by rewrite Hat.
Qed.

(** X2.  In every run, whatever order the [range] loops take the children
    in, the visitor calls [Walk] makes are an enumeration of the entries
    present in the tree, each at most once, cut off after the first call
    on which the visitor returns [true]: every call is for a key present,
    with its value; no key is visited twice; no call follows one that
    returned [true]; and when no call returned [true], every entry
    present has been visited. *)
Theorem Walk_stops_at_first_true (ops : list (op V))
    (order : str → list ascii → list ascii) (fn : str → V → bool) :
  (∀ p bs, order p bs ≡ₚ bs) →
  let calls := WalkIn order (run ops) fn in
  (∃ full, full ≡ₚ map_to_list (denote ops) ∧
           walkIn order fn (root (run ops)) [] = untilStop fn full) ∧
  (∀ k v, (k, v) ∈ calls → denote ops !! k = Some v) ∧
  NoDup calls.*1 ∧
  (∀ i k v, calls !! i = Some (k, v) → fn k v = true →
            length calls = S i) ∧
  ((∀ k v, (k, v) ∈ calls → fn k v = false) →
   calls ≡ₚ map_to_list (denote ops)).
Proof.
  intros Hp calls. unfold calls, WalkIn.
  set (full := (walkIn order visitAll (root (run ops)) []).1).
  assert (Hfull : full ≡ₚ map_to_list (denote ops)).
  { unfold full. rewrite (walkIn_perm order _ Hp). apply Walk_entries. }
  assert (Hcut : walkIn order fn (root (run ops)) [] = untilStop fn full)
    by apply walkIn_untilStop.
  rewrite Hcut.
  assert (Hpre := untilStop_prefix fn full).
  assert (Hnd : NoDup full.*1).
  { rewrite Hfull. apply NoDup_fst_map_to_list. }
  split_and!.
  - by exists full.
  - intros k v Hin. apply elem_of_map_to_list. rewrite <- Hfull.
    destruct Hpre as [rest Hrest]. rewrite Hrest.
    apply elem_of_app. by left.
  - destruct Hpre as [rest Hrest]. rewrite Hrest, fmap_app in Hnd.
    by apply NoDup_app in Hnd as [Hnd _].
  - intros i k v. apply untilStop_last.
  - intros Hall. by rewrite untilStop_all.
Qed.

(** *** [LongestPrefix] *)

Lemma longestLoop_unfold n (pre k : str) (last : option (str * V)) :
  longestLoop n pre k last =
  let last' := match value n with
               | Some v => Some (pre, v)
               | None => last
               end in
  match k with
  | [] => last'
  | b :: _ =>
      match children n !! b with
      | None => last'
      | Some c =>
          if decide (length k < length (key c)) then last'
          else if decide (take (length (key c)) k ≠ key c) then last'
          else longestLoop c (pre ++ key c) (drop (length (key c)) k) last'
      end
  end.
Proof.
  destruct n as [nk nv ch], k as [|b k']; simpl; [done|].
  rewrite lookup_fmap. by destruct (ch !! b).
Qed.

Lemma valueAt_descend n b c r :
  children n !! b = Some c → head (key c) = Some b →
  valueAt n (key c ++ r) = valueAt c r.
Proof.
  intros Hc Hh. rewrite valueAt_unfold.
  destruct (key c) as [|x q] eqn:E; simplify_eq/=.
  rewrite Hc. unfold atChild. rewrite E.
  change (b :: q ++ r) with ((b :: q) ++ r). by rewrite strip_app_l.
Qed.

Lemma longest_here n (pre k : str) (last : option (str * V)) :
  (∀ r v, r `prefix_of` k → valueAt n r = Some v → r = []) →
  longest_spec n pre k last
    (match value n with Some v => Some (pre, v) | None => last end).
Proof.
  intros Honly. split.
  - destruct (value n) as [v0|] eqn:Hv; [right|by left].
    exists [], v0. rewrite app_nil_r, valueAt_nil.
    split_and!; [done|apply prefix_nil|done].
  - intros r v Hr Hv. assert (r = []) as -> by (by eapply Honly).
    rewrite valueAt_nil in Hv. rewrite Hv. exists [], v.
    rewrite app_nil_r, valueAt_nil. split_and!; [done|apply prefix_nil|done..].
Qed.

Lemma longestLoop_spec n :
  wf n → ∀ pre k last, longest_spec n pre k last (longestLoop n pre k last).
Proof.
  induction n as [n IH] using node_ind. intros Hn pre k last.
  rewrite longestLoop_unfold. cbv zeta.
  destruct k as [|b k'].
  { apply longest_here. intros r v Hr _. by apply prefix_nil_inv. }
  assert (Hcand : ∀ r v, r `prefix_of` b :: k' → valueAt n r = Some v →
            r = [] ∨ ∃ c r2, children n !! b = Some c ∧ r = key c ++ r2 ∧
                             valueAt c r2 = Some v).
  { intros r v Hr Hv. destruct r as [|x r]; [by left|right].
    assert (x = b) as -> by (destruct Hr as [t Ht]; by simplify_eq/=).
    rewrite valueAt_unfold in Hv.
    destruct (children n !! b) as [c|] eqn:Hc; [|done].
    unfold atChild in Hv.
    destruct (strip (key c) (b :: r)) as [r2|] eqn:E; [|done].
    apply strip_Some in E. by exists c, r2. }
  destruct (children n !! b) as [c|] eqn:Hc.
  2:{ apply longest_here. intros r v Hr Hv.
      destruct (Hcand r v Hr Hv) as [|(c & r2 & ? & _)]; done. }
  destruct (wf_child _ _ _ Hn Hc) as [Hhc Hwc].
  case_decide as Hlt.
  { apply longest_here. intros r v Hr Hv.
    destruct (Hcand r v Hr Hv) as [|(c' & r2 & ? & -> & _)]; [done|].
    simplify_eq. apply prefix_length in Hr. rewrite length_app in Hr.
    lia. }
  case_decide as Hne.
  { apply longest_here. intros r v Hr Hv.
    destruct (Hcand r v Hr Hv) as [|(c' & r2 & ? & -> & _)]; [done|].
    simplify_eq. destruct Hr as [t Ht]. destruct Hne.
    rewrite Ht, <- app_assoc. by rewrite take_app_length. }
  assert (Ek : b :: k' = key c ++ drop (length (key c)) (b :: k')).
  { rewrite <- Hne at 1. by rewrite take_drop. }
  set (k2 := drop (length (key c)) (b :: k')) in *.
  destruct (IH b c Hc Hwc (pre ++ key c) k2
              (match value n with Some v => Some (pre, v) | None => last end))
    as [H1 H2].
  assert (Hup : ∀ r2 v, r2 `prefix_of` k2 → valueAt c r2 = Some v →
            key c ++ r2 `prefix_of` b :: k' ∧
            valueAt n (key c ++ r2) = Some v).
  { intros r2 v Hr2 Hv. split.
    - rewrite Ek. by apply prefix_app.
    - by rewrite (valueAt_descend n b c). }
  assert (Hk2 : ∀ r2, key c ++ r2 `prefix_of` b :: k' → r2 `prefix_of` k2).
  { intros r2 Hr2. rewrite Ek in Hr2. by apply prefix_app_inv in Hr2. }
  remember (longestLoop c (pre ++ key c) k2 _) as res eqn:Eres. clear Eres.
  split.
  - destruct H1 as [->|(r2 & v & -> & Hr2 & Hv)].
    + destruct (value n) as [v0|] eqn:Hv0; [right|by left].
      exists [], v0. rewrite app_nil_r, valueAt_nil.
      split_and!; [done|apply prefix_nil|done].
    + right. exists (key c ++ r2), v. rewrite <- app_assoc.
      destruct (Hup r2 v Hr2 Hv). by split_and!.
  - intros r v Hr Hv.
    destruct (Hcand r v Hr Hv) as [->|(c' & r2 & Ec' & Er & Hv2)];
      [|assert (c' = c) as -> by congruence; subst r].
    + rewrite valueAt_nil in Hv. rewrite Hv in H1.
      destruct H1 as [->|(r2 & v2 & -> & Hr2 & Hv2)].
      * exists [], v. rewrite app_nil_r, valueAt_nil.
        split_and!; [done|apply prefix_nil|done..].
      * exists (key c ++ r2), v2. rewrite <- app_assoc.
        destruct (Hup r2 v2 Hr2 Hv2). split_and!; [done..|simpl; lia].
    + destruct (H2 r2 v (Hk2 _ Hr) Hv2) as (r' & v' & -> & Hr' & Hv' & Hl).
      exists (key c ++ r'), v'. rewrite <- app_assoc.
      destruct (Hup r' v' Hr' Hv'). split_and!; [done..|].
      rewrite !length_app. lia.
Qed.

(** X3.  [LongestPrefix] returns the longest key present in the tree that is a
    prefix of the given key, with its value, and reports no match exactly
    when no key present is a prefix of it (in particular for the empty
    key). *)
Theorem LongestPrefix_correct (ops : list (op V)) (k : str) :
  match LongestPrefix (run ops) k with
  | Some (p, v) =>
      p `prefix_of` k ∧ denote ops !! p = Some v ∧
      ∀ p' v', p' `prefix_of` k → denote ops !! p' = Some v' →
               length p' ≤ length p
  | None => ∀ p', p' `prefix_of` k → denote ops !! p' = None
  end.
Proof.
  destruct (run_invariant ops) as (Hwf & Hkey & Hat).
  unfold LongestPrefix. destruct k as [|b k'].
  { intros p' ->%prefix_nil_inv. apply denote_nil_key. }
  destruct (longestLoop_spec _ Hwf [] (b :: k') None) as [H1 H2].
  destruct (longestLoop (root (run ops)) [] (b :: k') None) as [[p v]|].
  - destruct H1 as [|(r & v0 & [= -> ->] & Hr & Hv)]; [done|].
    rewrite Hat in Hv. split_and!; [done..|].
    intros p' v' Hp' Hv'. rewrite <- Hat in Hv'.
    destruct (H2 p' v' Hp' Hv') as (r' & v2 & [= -> ->] & _ & _ & Hl). done.
  - intros p' Hp'. destruct (denote ops !! p') as [v'|] eqn:Hv'; [|done].
    rewrite <- Hat in Hv'.
    by destruct (H2 p' v' Hp' Hv') as (r' & v2 & ? & _).
Qed.

(** *** The flag of [Delete] and [Size] *)

Lemma node_eta n : mkNode (key n) (value n) (children n) = n.
Proof. by destruct n. Qed.

Lemma set_child_same n b c : children n !! b = Some c → set_child n b c = n.
Proof.
  intros Hc. unfold set_child, with_children.
  by rewrite insert_id, node_eta.
Qed.

Lemma delete_false n : ∀ k, (delete n k).2 = false → (delete n k).1 = n.
Proof.
  induction n as [n IH] using node_ind. intros k. rewrite delete_unfold.
  destruct k as [|b k']; [done|].
  destruct (children n !! b) as [c|] eqn:Hc; [|done].
  repeat case_decide; try done.
  - by destruct (hasValue c).
  - cbv zeta. destruct (delete c _) as [c' [|]] eqn:Ed; simpl.
    + by repeat case_match.
    + intros _. assert (c' = c) as ->.
      { specialize (IH b c Hc (drop (length (key c)) (b :: k'))).
        rewrite Ed in IH. by apply IH. }
      by apply set_child_same.
Qed.

Lemma leafy_child n b c :
  leafy n → children n !! b = Some c →
  (is_Some (value c) ∨ children c ≠ ∅) ∧ leafy c.
Proof. intros [n' Hn]. apply Hn. Qed.

Lemma leafy_set_child n b c :
  leafy n → is_Some (value c) ∨ children c ≠ ∅ → leafy c →
  leafy (set_child n b c).
Proof.
  intros Hn Hc Hlc. constructor. intros x d; simpl. rewrite lookup_insert.
  case_decide; [by intros [= <-]|]. by apply leafy_child.
Qed.

Lemma leafy_del_child n b : leafy n → leafy (del_child n b).
Proof.
  intros Hn. constructor. intros x d; simpl. rewrite lookup_delete.
  case_decide; [done|]. by apply leafy_child.
Qed.

Lemma leafy_mk (p : str) (val : option V) (ch : gmap ascii (Node V)) :
  (∀ b c, ch !! b = Some c →
          (is_Some (value c) ∨ children c ≠ ∅) ∧ leafy c) →
  leafy (mkNode p val ch).
Proof. intros Hch. by constructor. Qed.

Lemma insert_has_child n b k v :
  is_Some (children (insert n (b :: k) v) !! b).
Proof.
  rewrite insert_unfold.
  destruct (children n !! b) as [c|] eqn:Hc.
  - cbv zeta. repeat (case_decide || case_match); simpl;
      rewrite ?lookup_insert_eq; eauto.
  - simpl. rewrite lookup_insert_eq. eauto.
Qed.

Lemma insert_leafy n : leafy n → ∀ k v, leafy (insert n k v).
Proof.
  induction n as [n IH] using node_ind. intros Hn k v.
  rewrite insert_unfold. destruct k as [|b k']; [done|].
  destruct (children n !! b) as [c|] eqn:Hc.
  2:{ apply leafy_set_child; [done|left; by eexists|].
      apply leafy_mk. intros x d. by rewrite lookup_empty. }
  destruct (leafy_child _ _ _ Hn Hc) as [Hcv Hlc].
  assert (Hmoved : ∀ p, (is_Some (value (mkNode p (value c) (children c)))
                         ∨ children (mkNode p (value c) (children c)) ≠ ∅)
                        ∧ leafy (mkNode p (value c) (children c))).
  { intros p. split; [done|]. apply leafy_mk. intros x d. by apply leafy_child. }
  cbv zeta. repeat case_decide.
  - apply leafy_set_child; [done|left; by eexists|].
    apply leafy_mk. intros x d. by apply leafy_child.
  - apply leafy_set_child; [done|left; by eexists|].
    apply leafy_mk. intros x d. case_match.
    + by rewrite lookup_empty.
    + rewrite lookup_singleton. case_decide; [|done]. intros [= <-].
      apply Hmoved.
  - apply leafy_set_child; [done| |by apply (IH b c)].
    destruct (drop _ (b :: k')) as [|x r] eqn:Ed.
    + replace (insert c [] v) with c by (by destruct c). done.
    + right. intros He. destruct (insert_has_child c x r v) as [d Hd].
      by rewrite He, lookup_empty in Hd.
  - destruct (drop _ (key c)) as [|cb cs]; [exact Hn|].
    destruct (drop _ (b :: k')) as [|kb ks].
    + apply leafy_set_child; [exact Hn|left; by eexists|].
      apply leafy_mk. intros x d. rewrite lookup_singleton.
      case_decide; [|discriminate]. intros [= <-]. apply Hmoved.
    + apply leafy_set_child; [exact Hn| |].
      * right. cbn [children]. intros He.
        apply (f_equal (lookup kb)) in He.
        rewrite lookup_insert_eq, lookup_empty in He. discriminate.
      * apply leafy_mk. intros x d. rewrite lookup_insert.
        case_decide; [intros [= <-]|].
        -- split; [left; by eexists|]. apply leafy_mk. intros y e.
           rewrite lookup_empty. discriminate.
        -- rewrite lookup_singleton. case_decide; [|discriminate].
           intros [= <-]. apply Hmoved.
Qed.

Lemma valueAt_no_match n b k' c :
  children n !! b = Some c →
  length (b :: k') < length (key c)
  ∨ take (length (key c)) (b :: k') ≠ key c →
  valueAt n (b :: k') = None.
Proof.
  intros Hc Hmis. rewrite valueAt_unfold, Hc. unfold atChild, strip.
  rewrite decide_False; [reflexivity|]. intros E.
  destruct Hmis as [Hlt|Hne]; [|by destruct Hne].
  apply (f_equal length) in E. rewrite length_take in E. lia.
Qed.

Lemma delete_flag n :
  wf n → leafy n → ∀ k,
  leafy (delete n k).1 ∧
  ((delete n k).2 = true ↔ k ≠ [] ∧ is_Some (valueAt n k)).
Proof.
  induction n as [n IH] using node_ind. intros Hn Hl k.
  rewrite delete_unfold. destruct k as [|b k'].
  { split; [exact Hl|]. split; [discriminate|]. by intros [? _]. }
  assert (Hno : valueAt n (b :: k') = None →
          leafy n ∧ (false = true ↔ b :: k' ≠ [] ∧ is_Some (valueAt n (b :: k')))).
  { intros E. split; [exact Hl|]. rewrite E. split; [discriminate|].
    intros [_ [? ?]]. discriminate. }
  assert (Hyes : ∀ v, valueAt n (b :: k') = Some v →
          true = true ↔ b :: k' ≠ [] ∧ is_Some (valueAt n (b :: k'))).
  { intros v E. rewrite E. split; [|reflexivity]. intros _.
    split; [discriminate|by eexists]. }
  destruct (children n !! b) as [c|] eqn:Hc.
  2:{ apply Hno. by rewrite valueAt_unfold, Hc. }
  destruct (wf_child _ _ _ Hn Hc) as [Hhc Hwc].
  destruct (leafy_child _ _ _ Hl Hc) as [Hcv Hlc].
  destruct (decide (length (b :: k') < length (key c)
                    ∨ take (length (key c)) (b :: k') ≠ key c)) as [Hmis|Hmis].
  { apply Hno. by eapply valueAt_no_match. }
  assert (∃ rem, b :: k' = key c ++ rem) as [rem Ek].
  { exists (drop (length (key c)) (b :: k')).
    rewrite <- (take_drop (length (key c)) (b :: k')) at 1.
    f_equal. destruct (decide (take (length (key c)) (b :: k') = key c));
      [done|]. destruct Hmis. by right. }
  assert (Hat : valueAt n (b :: k') = valueAt c rem).
  { rewrite Ek. by apply (valueAt_descend n b c). }
  clear Hmis. revert Hno Hyes. rewrite Hat, Ek. clear Hat Ek k'.
  intros Hno Hyes. rewrite drop_app_length.
  destruct rem as [|x rem].
  - rewrite app_nil_r in Hno, Hyes. rewrite app_nil_r.
    rewrite (decide_True (P := length (key c) = length (key c))) by done.
    rewrite valueAt_nil in Hno, Hyes. rewrite !valueAt_nil.
    destruct (decide (0 < size (children c))) as [Hsz|Hsz].
    + destruct (value c) as [v|] eqn:Hv.
      * replace (hasValue c) with true by (unfold hasValue; by rewrite Hv).
        cbn [fst snd]. split; [|by apply (Hyes v)].
        apply leafy_set_child; [exact Hl| |].
        -- right. cbn [children]. intros He. rewrite He, map_size_empty in Hsz.
           lia.
        -- apply leafy_mk. intros y d. by apply leafy_child.
      * replace (hasValue c) with false by (unfold hasValue; by rewrite Hv).
        cbn [fst snd]. by apply Hno.
    + cbn [fst snd]. split; [by apply leafy_del_child|].
      destruct Hcv as [[v Hv]|Hne]; [by apply (Hyes v)|].
      destruct Hne. apply map_size_empty_iff. lia.
  - rewrite (decide_False (P := length (key c ++ x :: rem) = length (key c)))
      by (rewrite length_app; simpl; lia).
    destruct (IH _ _ Hc Hwc Hlc (x :: rem)) as [Hl' Hflag].
    assert (Hfalse := delete_false c (x :: rem)).
    cbv zeta. destruct (delete c (x :: rem)) as [c' deleted].
    cbn [fst snd] in *.
    destruct deleted.
    + assert (is_Some (valueAt c (x :: rem))) as [v Hv] by (by apply Hflag).
      destruct (negb (hasValue c')) eqn:Hnv; cbn [andb].
      * apply negb_hasValue in Hnv.
        destruct (bool_decide (size (children c') = 0)) eqn:Hsz0.
        { split; [by apply leafy_del_child|by apply (Hyes v)]. }
        destruct (bool_decide (size (children c') = 1)) eqn:Hsz1.
        -- apply bool_decide_eq_true in Hsz1.
           destruct (map_size_1_singleton _ Hsz1) as (bg & g & Hch).
           rewrite (merge_into_singleton _ _ _ bg g Hch), insert_insert_eq.
           destruct (leafy_child c' bg g Hl') as [Hgv Hlg];
             [by rewrite Hch, lookup_singleton_eq|].
           split; [|by apply (Hyes v)].
           apply (leafy_set_child n b (mkNode (key c' ++ key g) (value g)
                                             (children g)));
             [exact Hl|exact Hgv|].
           apply leafy_mk. intros y e. by apply leafy_child.
        -- apply bool_decide_eq_false in Hsz0.
           split; [|by apply (Hyes v)].
           apply leafy_set_child; [exact Hl| |exact Hl'].
           right. intros He. apply Hsz0. by rewrite He, map_size_empty.
      * split; [|by apply (Hyes v)].
        apply leafy_set_child; [exact Hl| |exact Hl'].
        left. apply negb_false_iff in Hnv. unfold hasValue in Hnv.
        by apply bool_decide_eq_true in Hnv.
    + assert (c' = c) as -> by (by apply Hfalse).
      rewrite (set_child_same n b c Hc). apply Hno.
      destruct (valueAt c (x :: rem)) as [v|] eqn:Hv; [|reflexivity].
      assert (false = true) by (apply Hflag; split; [discriminate|by eexists]).
      discriminate.
Qed.

Lemma apply_step (t : Tree V) (m : gmap str V) (o : op V) :
  wf (root t) → leafy (root t) → m !! ([] : str) = None →
  (∀ k, valueAt (root t) k = m !! k) →
  wf (root (apply t o)) ∧ leafy (root (apply t o)) ∧
  denote_op m o !! ([] : str) = None ∧
  (∀ k, valueAt (root (apply t o)) k = denote_op m o !! k) ∧
  tsize (apply t o) = (tsize t + sizeDelta m [o])%Z ∧
  (∀ k, o = OpDelete k → (Delete t k).2 = true ↔ is_Some (m !! k)).
Proof.
  intros Hwf Hl Hnil Hat.
  assert (Hdel : ∀ k, (Delete t k).2 = true ↔ is_Some (m !! k)).
  { intros k. unfold Delete. cbn [snd].
    destruct (delete_flag _ Hwf Hl k) as [_ ->]. rewrite Hat.
    split; [by intros [_ ?]|]. intros Hs. split; [|exact Hs].
    intros ->. rewrite Hnil in Hs. by destruct Hs. }
  destruct o as [[|b k'] v|k]; cbn [apply denote_op sizeDelta].
  - change (Insert t [] v) with t.
    split_and!; [exact Hwf|exact Hl|exact Hnil|exact Hat|lia|discriminate].
  - rewrite root_Insert.
    destruct (insert_spec _ Hwf (b :: k') v) as (_ & Hwf' & Hat');
      [discriminate|].
    split_and!; [exact Hwf'|by apply insert_leafy|by rewrite lookup_insert_ne
                |..].
    + intros r. rewrite Hat', lookup_insert, Hat.
      repeat case_decide; congruence.
    + unfold Insert. cbn [tsize]. lia.
    + discriminate.
  - rewrite root_Delete.
    destruct (delete_flag _ Hwf Hl k) as [Hl' _].
    assert (Hsz : tsize (Delete t k).1
                  = (tsize t + (match m !! k with Some _ => -1 | None => 0 end
                                + 0))%Z).
    { pose proof (Hdel k) as Hd. unfold Delete in *. cbn [fst snd tsize] in *.
      destruct (delete (root t) k) as [r [|]]; cbn [fst snd] in *.
      - destruct (m !! k); [lia|]. destruct Hd as [Hd _].
        by destruct (Hd eq_refl).
      - destruct (m !! k); [|lia]. destruct Hd as [_ Hd].
        by specialize (Hd (mk_is_Some _ _ eq_refl)). }
    destruct k as [|b k'].
    + rewrite delete_nil. cbn [fst].
      split_and!; [exact Hwf|exact Hl|by rewrite lookup_delete_eq| |exact Hsz|].
      * intros r. rewrite Hat, lookup_delete.
        case_decide; [|reflexivity]. by subst r.
      * intros k [= <-]. apply Hdel.
    + destruct (delete_spec _ Hwf (b :: k')) as (_ & Hwf' & Hat');
        [discriminate|].
      split_and!; [exact Hwf'|exact Hl'|by rewrite lookup_delete_ne| |exact Hsz|].
      * intros r. rewrite Hat', lookup_delete, Hat.
        repeat case_decide; congruence.
      * intros k [= <-]. apply Hdel.
Qed.

Lemma New_represents :
  wf (root (New (V:=V))) ∧ leafy (root (New (V:=V))) ∧
  ∀ k, valueAt (root (New (V:=V))) k = (∅ : gmap str V) !! k.
Proof.
  split_and!.
  - constructor. intros b c; simpl. by rewrite lookup_empty.
  - constructor. intros b c; simpl. by rewrite lookup_empty.
  - intros k. rewrite lookup_empty. by apply valueAt_barren.
Qed.

Lemma fold_represents (ops : list (op V)) :
  ∀ (t : Tree V) (m : gmap str V),
  wf (root t) → leafy (root t) → m !! ([] : str) = None →
  (∀ k, valueAt (root t) k = m !! k) →
  wf (root (foldl apply t ops)) ∧ leafy (root (foldl apply t ops)) ∧
  foldl denote_op m ops !! ([] : str) = None ∧
  (∀ k, valueAt (root (foldl apply t ops)) k = foldl denote_op m ops !! k) ∧
  tsize (foldl apply t ops) = (tsize t + sizeDelta m ops)%Z ∧
  (Z.of_nat (size (foldl denote_op m ops))
   ≤ Z.of_nat (size m) + sizeDelta m ops)%Z.
Proof.
  induction ops as [|o ops IH]; intros t m Hwf Hl Hnil Hat.
  - cbn [foldl sizeDelta]. split_and!; try done; lia.
  - cbn [foldl].
    destruct (apply_step t m o Hwf Hl Hnil Hat)
      as (Hwf' & Hl' & Hnil' & Hat' & Hsz & _).
    destruct (IH _ _ Hwf' Hl' Hnil' Hat') as (? & ? & ? & ? & Hsz' & Hle).
    split_and!; try done.
    + rewrite Hsz', Hsz. cbn [sizeDelta]. lia.
    + cbn [sizeDelta].
      assert (Z.of_nat (size (denote_op m o))
              ≤ Z.of_nat (size m)
                + match o with
                  | OpInsert [] _ => 0
                  | OpInsert _ _ => 1
                  | OpDelete k => match m !! k with Some _ => -1 | None => 0 end
                  end)%Z; [|lia].
      destruct o as [[|b k'] v|k]; cbn [denote_op].
      * lia.
      * pose proof (map_size_insert (b :: k') v m) as Hi.
        destruct (m !! (b :: k')); unfold id in Hi; lia.
      * pose proof (map_size_delete k m) as Hd.
        destruct (m !! k) eqn:E; unfold id in Hd; [|lia].
        assert (size m ≠ 0%nat); [|lia].
        intros E0%map_size_empty_iff. by rewrite E0, lookup_empty in E.
Qed.

(** X4.  [Delete] returns [true] exactly when the key was present (so it
    returns [false] for the empty key and for a key that is only a
    prefix of, or only extends, keys that are present). *)
Theorem Delete_reports_presence (ops : list (op V)) (k : str) :
  (Delete (run ops) k).2 = true ↔ is_Some (denote ops !! k).
Proof.
  destruct New_represents as (Hwf & Hl & Hat).
  destruct (fold_represents ops New ∅ Hwf Hl (lookup_empty _) Hat)
    as (Hwf' & Hl' & Hnil' & Hat' & _).
  destruct (apply_step _ _ (OpDelete k) Hwf' Hl' Hnil' Hat')
    as (_ & _ & _ & _ & _ & Hdel).
  by apply Hdel.
Qed.

(** X5.  [Size] is the number of [Insert] calls with a non-empty key minus the
    number of [Delete] calls that found their key.  [Insert] adds one
    also when it overwrites a key that is already present, so [Size] is
    at least the number of keys present and can exceed it. *)
Theorem Size_counts_calls (ops : list (op V)) :
  Size (run ops) = sizeDelta ∅ ops ∧
  (Z.of_nat (size (denote ops)) ≤ Size (run ops))%Z.
Proof.
  destruct New_represents as (Hwf & Hl & Hat).
  destruct (fold_represents ops New ∅ Hwf Hl (lookup_empty _) Hat)
    as (_ & _ & _ & _ & Hsz & Hle).
  unfold Size, run, denote. rewrite Hsz. rewrite map_size_empty in Hle.
  cbn [tsize New]. split; lia.
Qed.

(** *** Path compression under [Insert] *)

Lemma compact_child n b c :
  compact n → children n !! b = Some c →
  (is_Some (value c) ∨ 2 ≤ size (children c)) ∧ compact c.
Proof. intros [n' Hn]. apply Hn. Qed.

Lemma compact_set_child n b c :
  compact n → is_Some (value c) ∨ 2 ≤ size (children c) → compact c →
  compact (set_child n b c).
Proof.
  intros Hn Hc Hlc. constructor. intros x d; simpl. rewrite lookup_insert.
  case_decide; [by intros [= <-]|]. by apply compact_child.
Qed.

Lemma compact_mk (p : str) (val : option V) (ch : gmap ascii (Node V)) :
  (∀ b c, ch !! b = Some c →
          (is_Some (value c) ∨ 2 ≤ size (children c)) ∧ compact c) →
  compact (mkNode p val ch).
Proof. intros Hch. by constructor. Qed.

Lemma insert_size_ge n k v :
  size (children n) ≤ size (children (insert n k v)).
Proof.
  assert (Hset : ∀ b x, size (children n) ≤ size (children (set_child n b x))).
  { intros b x. simpl. rewrite map_size_insert.
    destruct (children n !! b); unfold id; lia. }
  rewrite insert_unfold. destruct k as [|b k']; [done|].
  destruct (children n !! b) as [c|]; [|apply Hset].
  cbv zeta. repeat case_decide; try apply Hset.
  destruct (drop _ (key c)); [done|]. apply Hset.
Qed.

Lemma insert_compact n :
  wf n → compact n → ∀ k v, k ≠ [] → compact (insert n k v).
Proof.
  induction n as [n IH] using node_ind. intros Hn Hcn k v Hk.
  destruct k as [|b k']; [done|]. rewrite insert_unfold.
  destruct (children n !! b) as [c|] eqn:Hc.
  2:{ apply compact_set_child; [exact Hcn|left; by eexists|].
      apply compact_mk. intros x d. rewrite lookup_empty. discriminate. }
  destruct (wf_child _ _ _ Hn Hc) as [Hhc Hwc].
  destruct (compact_child _ _ _ Hcn Hc) as [Hcv Hcc].
  assert (Hmoved : ∀ p,
            (is_Some (value (mkNode p (value c) (children c)))
             ∨ 2 ≤ size (children (mkNode p (value c) (children c))))
            ∧ compact (mkNode p (value c) (children c))).
  { intros p. split; [exact Hcv|]. apply compact_mk. intros x d.
    by apply compact_child. }
  destruct (commonPrefixLen_split (b :: k') (key c))
    as (p & t1 & t2 & Ek & Ec & -> & Hd).
  rewrite Ek, Ec. cbv zeta. rewrite !drop_app_length, !take_app_length.
  clear Hk Ek k'.
  destruct t1 as [|kb t1], t2 as [|cb t2];
    try rewrite app_nil_r in Ec; rewrite ?app_nil_r.
  - repeat dec_len.
    apply compact_set_child; [exact Hcn|left; by eexists|].
    apply compact_mk. intros x d. by apply compact_child.
  - repeat dec_len.
    apply compact_set_child; [exact Hcn|left; by eexists|].
    apply compact_mk. intros x d. rewrite lookup_singleton.
    case_decide; [|discriminate]. intros [= <-]. apply Hmoved.
  - repeat dec_len.
    destruct (insert_spec c Hwc (kb :: t1) v) as (_ & _ & Hat);
      [discriminate|].
    apply compact_set_child; [exact Hcn| |by apply (IH b c)].
    destruct Hcv as [[v0 Hv0]|Hsz].
    + left. specialize (Hat []). rewrite !valueAt_nil in Hat.
      rewrite decide_False in Hat by discriminate. rewrite Hat. by eexists.
    + right. pose proof (insert_size_ge c (kb :: t1) v). lia.
  - repeat dec_len.
    apply compact_set_child; [exact Hcn| |].
    + right. cbn [children]. rewrite map_size_insert, lookup_singleton_ne
        by (intros ->; by apply Hd).
      by rewrite map_size_singleton.
    + apply compact_mk. intros x d. rewrite lookup_insert.
      case_decide; [intros [= <-]|].
      * split; [left; by eexists|]. apply compact_mk. intros y e.
        rewrite lookup_empty. discriminate.
      * rewrite lookup_singleton. case_decide; [|discriminate].
        intros [= <-]. apply Hmoved.
Qed.

Lemma existsb_false {A} (f : A → bool) (l : list A) :
  (∀ x, x ∈ l → f x = false) → existsb f l = false.
Proof.
  induction l as [|x l IH]; intros Hall; [done|]. simpl.
  rewrite (Hall x) by left. apply IH. intros y Hy. apply Hall. by right.
Qed.

Lemma compact_not_redundant n : compact n → redundantBelow n = false.
Proof.
  induction n as [n IH] using node_ind. intros Hn.
  destruct n as [nk nv ch]. cbn [redundantBelow children] in *.
  apply existsb_false. intros [b [c r]] Hin.
  apply elem_of_map_to_list in Hin. rewrite lookup_fmap in Hin.
  destruct (ch !! b) as [c0|] eqn:Hc; [|discriminate].
  injection Hin as <- <-. cbn [fst snd].
  destruct (compact_child _ _ _ Hn Hc) as [Hcv Hcc].
  rewrite (IH b c0 Hc Hcc), orb_false_r. unfold redundant.
  destruct Hcv as [Hv|Hsz].
  - unfold hasValue. by rewrite bool_decide_eq_true_2.
  - rewrite (bool_decide_eq_false_2 (size (children c0) = 1)) by lia.
    apply andb_false_r.
Qed.

(** X6.  A tree built by [Insert] calls alone (as the router builds its
    static routes) is path-compressed: no node other than the root is
    without a value and with fewer than two children. *)
Theorem Insert_keeps_compression (ops : list (op V)) :
  forallb is_insert ops = true →
  compact (root (run ops)) ∧ redundantBelow (root (run ops)) = false.
Proof.
  intros Hins. assert (Hc : compact (root (run ops))).
  { induction ops as [|o ops IH] using rev_ind.
    - constructor. intros b c; simpl. rewrite lookup_empty. discriminate.
    - rewrite forallb_app in Hins. apply andb_true_iff in Hins as [Hops Ho].
      rewrite run_snoc. destruct (run_invariant ops) as (Hwf & _).
      destruct o as [[|b k'] v|k]; [by apply IH| |discriminate].
      cbn [apply]. rewrite root_Insert.
      apply insert_compact; [exact Hwf|by apply IH|discriminate]. }
  split; [exact Hc|by apply compact_not_redundant].
Qed.

End RadixFacts.

(** C2.  Deleting a key whose node still has exactly one child leaves that
    node in the tree without a value: after inserting [a] and [ab] and
    deleting [a], the root's child [a] has no value and the single child
    [b]; the chain is not merged into one node [ab].  (The merge is only
    done for the parent of a removed node, on the way back from the
    recursive call.) *)
Example delete_leaves_single_child_chain :
  let t0 := Insert (Insert New (s2b "a") 1) (s2b "ab") 2 in
  let t := (Delete t0 (s2b "a")).1 in
  (Delete t0 (s2b "a")).2 = true ∧
  redundantBelow (root t0) = false ∧
  redundantBelow (root t) = true ∧
  (c ← children (root t) !! "a"%char;
   Some (key c, value c, size (children c))) = Some (s2b "a", None, 1) ∧
  (c ← children (root t) !! "a"%char; g ← children c !! "b"%char;
   Some (key g, value g, size (children g))) = Some (s2b "b", Some 2, 0) ∧
  Get t (s2b "ab") = Some 2 ∧ Get t (s2b "a") = None.
Proof. cbv zeta. split_and!; vm_compute; reflexivity. Qed.

Lemma Insert_keeps_compression_witness :
  let ops := [OpInsert (s2b "a") 1; OpInsert (s2b "ab") 2;
              OpInsert (s2b "ac") 3] in
  forallb is_insert ops = true ∧
  compact (root (run ops)) ∧ redundantBelow (root (run ops)) = false.
Proof.
  cbv zeta. split; [reflexivity|].
  apply Insert_keeps_compression. reflexivity.
Defined.

Lemma Walk_stops_at_first_true_witness :
  let ops := [OpInsert (s2b "b") 1; OpInsert (s2b "a") 2;
              OpInsert (s2b "c") 3; OpInsert (s2b "ab") 4] in
  let order : str → list ascii → list ascii := λ _ bs, reverse bs in
  let fn : str → nat → bool := λ _ v, bool_decide (v = 1) in
  (∀ p bs, order p bs ≡ₚ bs) ∧
  let calls := WalkIn order (run ops) fn in
  (∃ full, full ≡ₚ map_to_list (denote ops) ∧
           walkIn order fn (root (run ops)) [] = untilStop fn full) ∧
  (∀ k v, (k, v) ∈ calls → denote ops !! k = Some v) ∧
  NoDup calls.*1 ∧
  (∀ i k v, calls !! i = Some (k, v) → fn k v = true →
            length calls = S i) ∧
  ((∀ k v, (k, v) ∈ calls → fn k v = false) →
   calls ≡ₚ map_to_list (denote ops)).
Proof.
  cbv zeta. split; [intros p bs; apply reverse_Permutation|].
  apply (Walk_stops_at_first_true
           [OpInsert (s2b "b") 1; OpInsert (s2b "a") 2;
            OpInsert (s2b "c") 3; OpInsert (s2b "ab") 4]
           (λ _ bs, reverse bs) (λ _ v, bool_decide (v = 1))).
  intros p bs. apply reverse_Permutation.
Defined.

(** Two runs on one tree: with the children taken in the order of
    [map_to_list] and in the reverse order, a visitor that stops at once
    is called on different entries. *)
Example Walk_depends_on_order :
  let t := Insert (Insert (Insert New (s2b "b") 1) (s2b "a") 2) (s2b "c") 3 in
  let stop : str → nat → bool := λ _ _, true in
  WalkIn (λ _ bs, bs) t stop ≠ WalkIn (λ _ bs, reverse bs) t stop.
Proof. cbv zeta. vm_compute. discriminate. Qed.

(** [Size] over-counts after an overwrite: two [Insert]s of one key. *)
Example Size_after_overwrite :
  let t := Insert (Insert New (s2b "a") 1) (s2b "a") 2 in
  Size t = 2%Z ∧ Walk t visitAll = [(s2b "a", 2)].
Proof. cbv zeta. split; vm_compute; reflexivity. Qed.

End RadixFacts.

(* ===================================================================== *)
(** * Properties of the rate limiter *)
(* ===================================================================== *)

Module LimiterFacts.
Import Limiter.
#[local] Open Scope Z_scope.

Lemma Allow_some rl :
  0 < tokens rl → Allow rl = (mkRateLimiter (tokens rl - 1) (maxTokens rl), true).
Proof. intros Ht. unfold Allow. by rewrite decide_True. Qed.

Lemma Allow_none rl : tokens rl ≤ 0 → Allow rl = (rl, false).
Proof. intros Ht. unfold Allow. by rewrite decide_False by lia. Qed.

(** With [t] tokens left, [t] calls succeed and empty the bucket. *)
Lemma allowN_drain (t : nat) (m : Z) :
  allowN t (mkRateLimiter (Z.of_nat t) m) = (mkRateLimiter 0 m, repeat true t).
Proof.
  induction t as [|t IH]; [done|].
  cbn [allowN]. rewrite Allow_some by (simpl; lia). cbn [fst snd tokens maxTokens].
  replace (Z.of_nat (S t) - 1) with (Z.of_nat t) by lia.
  by rewrite IH.
Qed.

(** With no token left, every call fails and changes nothing. *)
Lemma allowN_empty (k : nat) (m : Z) :
  allowN k (mkRateLimiter 0 m) = (mkRateLimiter 0 m, repeat false k).
Proof.
  induction k as [|k IH]; [done|].
  cbn [allowN]. rewrite Allow_none by (simpl; lia). cbn [fst snd].
  by rewrite IH.
Qed.

Lemma allowN_app (a b : nat) rl :
  allowN (a + b) rl =
  ((allowN b (allowN a rl).1).1, (allowN a rl).2 ++ (allowN b (allowN a rl).1).2).
Proof.
  revert rl. induction a as [|a IH]; intros rl.
  - simpl. by destruct (allowN b rl).
  - cbn [Nat.add allowN fst snd]. by rewrite IH.
Qed.

Lemma step_bounds rl e :
  0 ≤ tokens rl ≤ maxTokens rl →
  0 ≤ tokens (step rl e) ≤ maxTokens (step rl e)
  ∧ maxTokens (step rl e) = maxTokens rl.
Proof.
  intros Hb. destruct e; simpl.
  - unfold Allow. case_decide; simpl; lia.
  - lia.
Qed.

Lemma run_bounds rl es :
  0 ≤ tokens rl ≤ maxTokens rl →
  0 ≤ tokens (run rl es) ≤ maxTokens (run rl es)
  ∧ maxTokens (run rl es) = maxTokens rl.
Proof.
  revert rl. induction es as [|e es IH]; intros rl Hb; [by simpl|].
  simpl. destruct (step_bounds rl e Hb) as [Hb' Hm].
  destruct (IH _ Hb') as [Hb'' Hm']. split; [done|congruence].
Qed.

(** C8.  For a limiter created with [maxTokens > 0]: the first
    [maxTokens] calls of [Allow] return true and empty the bucket; any
    number of further calls return false; after one refill tick the next
    [maxTokens] calls return true again and every call after them returns
    false (exactly [maxTokens] succeed); and under every interleaving of
    [Allow] calls and refill ticks [tokens] stays within
    [0, maxTokens]. *)
Theorem limiter_token_bucket (maxTokens : Z) :
  0 < maxTokens →
  let n := Z.to_nat maxTokens in
  let full := NewRateLimiter maxTokens in
  let empty := mkRateLimiter 0 maxTokens in
  allowN n full = (empty, repeat true n) ∧
  (∀ k, allowN (n + k) full = (empty, repeat true n ++ repeat false k)) ∧
  (∀ k, refillTick (allowN (n + k) full).1 = full) ∧
  (∀ k, allowN (n + k) (refillTick empty)
        = (empty, repeat true n ++ repeat false k)) ∧
  (∀ es, 0 ≤ tokens (run full es) ≤ maxTokens).
Proof.
  intros Hpos n full empty.
  assert (Hfull : full = mkRateLimiter (Z.of_nat n) maxTokens).
  { unfold full, NewRateLimiter, n. by rewrite Z2Nat.id by lia. }
  assert (Hdrain : ∀ k, allowN (n + k) full
                        = (empty, repeat true n ++ repeat false k)).
  { intros k. rewrite allowN_app, Hfull, allowN_drain. cbn [fst snd].
    by rewrite allowN_empty. }
  split_and!.
  - by rewrite Hfull, allowN_drain.
  - exact Hdrain.
  - intros k. by rewrite Hdrain.
  - intros k. exact (Hdrain k).
  - intros es. destruct (run_bounds full es) as [Hb Hm]; [simpl; lia|].
    simpl in Hm. lia.
Qed.

Lemma limiter_token_bucket_witness :
  0 < 3 ∧
  allowN 3 (NewRateLimiter 3) = (mkRateLimiter 0 3, [true; true; true]) ∧
  allowN 5 (refillTick (mkRateLimiter 0 3))
  = (mkRateLimiter 0 3, [true; true; true; false; false]).
Proof.
  split; [lia|].
  destruct (limiter_token_bucket 3 ltac:(lia)) as (H1 & _ & _ & H4 & _).
  split; [exact H1|exact (H4 2%nat)].
Defined.

End LimiterFacts.

(* ===================================================================== *)
(** * Properties of the worker pool *)
(* ===================================================================== *)

Module PoolFacts.
Import Pool.
Section PoolFacts.
Context {Task : Type}.
Implicit Types (wp : WorkerPool Task) (task : Task).

(** What [Submit] does, by the state of the task channel. *)
Lemma Submit_cases wp task :
  Submit wp task =
  if Chan.closed (tasks wp) then Panics
  else if decide (length (Chan.buf (tasks wp)) < Chan.cap (tasks wp))
       then Returns None
              (mkPool (Chan.mkChan (Chan.buf (tasks wp) ++ [task])
                                   (Chan.cap (tasks wp)) false)
                      (wg wp + 1) (size wp))
       else Blocks (mkPool (tasks wp) (wg wp + 1) (size wp)).
Proof.
  unfold Submit, Chan.send; simpl.
  destruct (Chan.closed (tasks wp)); [done|]. by case_decide.
Qed.

Lemma Submit_error_free wp task e wp' : Submit wp task ≠ Returns (Some e) wp'.
Proof.
  rewrite Submit_cases. destruct (Chan.closed (tasks wp)); [done|].
  by case_decide.
Qed.

(** ** Order, blocking and shutdown *)

Lemma submitAll_fits (ts : list Task) :
  ∀ buf cap w sz,
  length buf + length ts ≤ cap →
  submitAll (mkPool (Chan.mkChan buf cap false) w sz) ts
  = Some (mkPool (Chan.mkChan (buf ++ ts) cap false)
                 (w + Z.of_nat (length ts)) sz).
Proof.
  induction ts as [|t ts IH]; intros buf cap w sz Hfit.
  - cbn [submitAll length]. rewrite app_nil_r.
    by replace (w + Z.of_nat 0)%Z with w by lia.
  - cbn [submitAll]. rewrite Submit_cases. cbn [tasks Chan.closed Chan.buf
      Chan.cap wg size]. cbn [length] in Hfit.
    rewrite decide_True by lia.
    rewrite IH by (rewrite length_app; simpl; lia).
    rewrite <- app_assoc. cbn [app].
    by replace (w + 1 + Z.of_nat (length ts))%Z
      with (w + Z.of_nat (length (t :: ts)))%Z by (cbn [length]; lia).
Qed.

Lemma workN_drains (buf : list Task) :
  ∀ more cap cl w sz,
  workN (length buf) (mkPool (Chan.mkChan (buf ++ more) cap cl) w sz)
  = (buf, mkPool (Chan.mkChan more cap cl) (w - Z.of_nat (length buf)) sz).
Proof.
  induction buf as [|t buf IH]; intros more cap cl w sz.
  - cbn [workN length app].
    by replace (w - Z.of_nat 0)%Z with w by lia.
  - cbn [workN length app]. unfold workerStep, Chan.recv.
    cbn [tasks Chan.buf Chan.cap Chan.closed wg size].
    rewrite IH. cbn [fst snd].
    by replace (w - 1 - Z.of_nat (length buf))%Z
      with (w - Z.of_nat (S (length buf)))%Z by lia.
Qed.

(** X7.  Up to [size*10] tasks submitted to a new pool are all accepted at
    once ([Submit] returns [nil] each time), and the workers receive
    them in the order of submission, each exactly once; afterwards the
    queue is empty and the wait-group counter is back at zero.  One more
    task submitted to the full queue suspends the submitter. *)
Theorem pool_is_fifo (sz : nat) (ts : list Task) :
  length ts ≤ sz * 10 →
  ∃ wp, submitAll (NewWorkerPool sz) ts = Some wp ∧
        workN (length ts) wp = (ts, NewWorkerPool sz) ∧
        (length ts = sz * 10 →
         ∀ t, Submit wp t
              = Blocks (mkPool (tasks wp) (wg wp + 1) (size wp))).
Proof.
  intros Hfit. eexists. split_and!.
  - unfold NewWorkerPool, Chan.make. apply submitAll_fits. simpl. lia.
  - cbn [app]. rewrite <- (app_nil_r ts) at 2. rewrite workN_drains.
    unfold NewWorkerPool, Chan.make.
    by replace (0 + Z.of_nat (length ts) - Z.of_nat (length ts))%Z
      with 0%Z by lia.
  - intros Hfull t. rewrite Submit_cases.
    cbn [tasks Chan.closed Chan.buf Chan.cap app].
    rewrite decide_False by lia. reflexivity.
Qed.

(** X8.  A submitter suspended on a full queue is resumed by the next worker
    step: the worker takes the oldest task, and the pending task is then
    queued behind the others and [Submit] returns [nil]. *)
Theorem blocked_submit_resumes wp task wp1 t0 wp2 :
  length (Chan.buf (tasks wp)) ≤ Chan.cap (tasks wp) →
  Submit wp task = Blocks wp1 →
  workerStep wp1 = Some (t0, wp2) →
  ∃ rest, Chan.buf (tasks wp) = t0 :: rest ∧
          resume wp2 task
          = Returns None
              (mkPool (Chan.mkChan (rest ++ [task]) (Chan.cap (tasks wp))
                                   false)
                      (wg wp + 1 - 1) (size wp)).
Proof.
  intros Hinv. rewrite Submit_cases. destruct wp as [[buf cap cl] w sz].
  cbn [tasks Chan.closed Chan.buf Chan.cap wg size] in *.
  destruct cl; [discriminate|]. case_decide as Hroom; [discriminate|].
  intros [= <-]. unfold workerStep, Chan.recv.
  cbn [tasks Chan.closed Chan.buf Chan.cap wg size].
  destruct buf as [|t buf]; [discriminate|]. intros [= <- <-].
  exists buf. split; [reflexivity|]. unfold resume, Chan.send.
  cbn [tasks Chan.closed Chan.buf Chan.cap wg size]. cbn [length] in Hinv.
  rewrite decide_True by lia. reflexivity.
Qed.

(** X9.  After [Shutdown] the pool accepts no more work: every [Submit]
    panics (send on a closed channel) and a second [Shutdown] panics
    (close of a closed channel); tasks still queued are handed to the
    workers in order. *)
Theorem after_Shutdown wp wp' :
  Shutdown wp = Some wp' →
  (∀ task, Submit wp' task = Panics) ∧
  Shutdown wp' = None ∧
  workN (length (Chan.buf (tasks wp))) wp'
  = (Chan.buf (tasks wp),
     mkPool (Chan.mkChan [] (Chan.cap (tasks wp)) true)
            (wg wp - Z.of_nat (length (Chan.buf (tasks wp)))) (size wp)).
Proof.
  unfold Shutdown, Chan.close. destruct wp as [[buf cap cl] w sz].
  cbn [tasks Chan.closed Chan.buf Chan.cap wg size].
  destruct cl; [discriminate|]. intros [= <-]. split_and!.
  - intros task. by rewrite Submit_cases.
  - reflexivity.
  - rewrite <- (app_nil_r buf) at 2. by rewrite workN_drains.
Qed.

End PoolFacts.

Lemma pool_is_fifo_witness :
  length [1; 2; 3] ≤ 1 * 10 ∧
  ∃ wp, submitAll (NewWorkerPool 1) [1; 2; 3] = Some wp ∧
        workN (length [1; 2; 3]) wp = ([1; 2; 3], NewWorkerPool 1) ∧
        (length [1; 2; 3] = 1 * 10 →
         ∀ t, Submit wp t
              = Blocks (mkPool (tasks wp) (wg wp + 1) (size wp))).
Proof.
  assert (Hfit : length [1; 2; 3] ≤ 1 * 10) by (simpl; lia).
  split; [exact Hfit|]. exact (pool_is_fifo 1 [1; 2; 3] Hfit).
Defined.

Lemma blocked_submit_resumes_witness :
  let wp := mkPool (Chan.mkChan [1] 1 false) 0 1 in
  ∃ rest, Chan.buf (tasks wp) = 1 :: rest ∧
          resume (mkPool (Chan.mkChan [] 1 false) (0 + 1 - 1) 1) 2
          = Returns None
              (mkPool (Chan.mkChan (rest ++ [2]) (Chan.cap (tasks wp)) false)
                      (wg wp + 1 - 1) (size wp)).
Proof.
  cbv zeta.
  apply (blocked_submit_resumes (mkPool (Chan.mkChan [1] 1 false) 0 1) 2
           (mkPool (Chan.mkChan [1] 1 false) (0 + 1) 1) 1).
  - simpl. lia.
  - reflexivity.
  - reflexivity.
Defined.

Lemma after_Shutdown_witness :
  let wp := mkPool (Chan.mkChan [7; 8] 10 false) 2 1 in
  Shutdown wp = Some (mkPool (Chan.mkChan [7; 8] 10 true) 2 1) ∧
  (∀ task, Submit (mkPool (Chan.mkChan [7; 8] 10 true) 2 1) task = Panics) ∧
  Shutdown (mkPool (Chan.mkChan [7; 8] 10 true) 2 1) = None.
Proof.
  cbv zeta. split; [reflexivity|].
  destruct (after_Shutdown (mkPool (Chan.mkChan [7; 8] 10 false) 2 1)
              (mkPool (Chan.mkChan [7; 8] 10 true) 2 1) eq_refl)
    as (H1 & H2 & _).
  split; [exact H1|exact H2].
Defined.

End PoolFacts.


(* ===================================================================== *)
(** * Properties of the pattern matcher and the dispatcher *)
(* ===================================================================== *)

Module RouteFacts.
Import Route.
Section RouteFacts.
Context {H : Type}.
Implicit Types (r : Router H) (h : H).

Lemma executeHandler_no_503 r h : (executeHandler r h).2 ≠ Status 503.
Proof.
  unfold executeHandler.
  destruct (rateLimiter r) as [rl|]; simpl.
  - destruct (Limiter.Allow rl) as [rl' [|]]; simpl; [|done].
    destruct (workerPool r) as [wp|]; [|done].
    pose proof (PoolFacts.Submit_error_free wp
                  (foldr (λ (m : Middleware) acc, m acc) h (middlewares r)))
      as Hne.
    destruct (Pool.Submit _ _) as [[e|] wp'| |]; simpl; try done.
    by destruct (Hne e wp').
  - destruct (workerPool r) as [wp|]; [|done].
    pose proof (PoolFacts.Submit_error_free wp
                  (foldr (λ (m : Middleware) acc, m acc) h (middlewares r)))
      as Hne.
    destruct (Pool.Submit _ _) as [[e|] wp'| |]; simpl; try done.
    by destruct (Hne e wp').
Qed.

(** C10.  [Submit] never returns an error: on an open task channel it
    returns [nil] with the task appended to the queue when the queue has
    room, and suspends the submitter (nothing is dropped, nothing is
    rejected) when the queue is full; the only other behaviour is the
    runtime panic of a send on the channel [Shutdown] has closed.  The
    queue of a new pool has capacity [size*10].  Hence the branch of
    [executeHandler] that answers 503 is never taken. *)
Theorem submit_never_rejects (wp : Pool.WorkerPool H) (task : H) :
  (∀ e wp', Pool.Submit wp task ≠ Pool.Returns (Some e) wp') ∧
  Pool.Submit wp task =
    (if Chan.closed (Pool.tasks wp) then Pool.Panics
     else if decide (length (Chan.buf (Pool.tasks wp))
                     < Chan.cap (Pool.tasks wp))
          then Pool.Returns None
                 (Pool.mkPool
                    (Chan.mkChan (Chan.buf (Pool.tasks wp) ++ [task])
                                 (Chan.cap (Pool.tasks wp)) false)
                    (Pool.wg wp + 1) (Pool.size wp))
          else Pool.Blocks
                 (Pool.mkPool (Pool.tasks wp) (Pool.wg wp + 1)
                              (Pool.size wp))) ∧
  (∀ size, Chan.cap (Pool.tasks (Pool.NewWorkerPool (Task:=H) size))
           = (size * 10)%nat) ∧
  (∀ r h, (executeHandler r h).2 ≠ Status 503).
Proof.
  split_and!.
  - intros e wp'. apply PoolFacts.Submit_error_free.
  - apply PoolFacts.Submit_cases.
  - done.
  - apply executeHandler_no_503.
Qed.

(** C3.  When only the dynamic route [GET /users/:id] is registered,
    [GET /users/42] runs its handler with the captured parameter
    [id = 42], but [POST /users/42] is answered not-found (404) and not
    method-not-allowed (405): the loop over the dynamic routes tests
    pattern and method together, skips the route whose pattern matches
    but whose method differs, and ends in [http.NotFound].  The static
    branch of the same function handles this situation: with the static
    route [GET /users] registered, [POST /users] is answered 405 with
    [Allow: GET].  The dynamic branch lacks that case. *)
Theorem users_route_resolution h :
  let r := Handle New (s2b "GET") (s2b "/users/:id") h in
  let r' := Handle New (s2b "GET") (s2b "/users") h in
  resolve r (s2b "GET") (s2b "/users/42")
  = RunDynamic (mkRoute (s2b "GET") (s2b "/users/:id") h)
               {[ s2b "id" := s2b "42" ]} ∧
  matchPattern (s2b "/users/:id") (s2b "/users/42")
  = Some {[ s2b "id" := s2b "42" ]} ∧
  resolve r (s2b "POST") (s2b "/users/42") = NotFound ∧
  resolutionStatus (resolve r (s2b "POST") (s2b "/users/42")) = Some 404%Z ∧
  resolutionStatus (resolve r (s2b "POST") (s2b "/users/42")) ≠ Some 405%Z ∧
  resolve r' (s2b "POST") (s2b "/users") = MethodNotAllowed (s2b "GET") ∧
  resolutionStatus (resolve r' (s2b "POST") (s2b "/users")) = Some 405%Z.
Proof.
  cbv zeta. split_and!; try (vm_compute; reflexivity).
  vm_compute. discriminate.
Qed.

(** ** Registration and resolution *)

Lemma Get_after_Insert (ops : list (Radix.op (route H))) p rt p' :
  p ≠ [] →
  Radix.Get (Radix.Insert (Radix.run ops) p rt) p'
  = if decide (p' = p) then Some rt else Radix.Get (Radix.run ops) p'.
Proof.
  intros Hp.
  assert (Hrun : Radix.Insert (Radix.run ops) p rt
                 = Radix.run (ops ++ [Radix.OpInsert p rt]))
    by (by rewrite RadixFacts.run_snoc).
  rewrite Hrun, !RadixFacts.Get_run, RadixFacts.denote_snoc.
  cbn [Radix.denote_op].
  destruct p as [|b p0]; [done|]. rewrite lookup_insert.
  repeat case_decide; congruence.
Qed.

Lemma resolve_Handle_static r ops m p h m' p' :
  staticRoutes r = Radix.run ops →
  containsAny p (s2b ":*") = false → p ≠ [] →
  resolve (Handle r m p h) m' p'
  = if decide (p' = p)
    then (if decide (m = m' ∨ m' = MethodOptions)
          then RunStatic (mkRoute m p h) else MethodNotAllowed m)
    else resolve r m' p'.
Proof.
  intros Hst Hstatic Hp. unfold Handle. rewrite Hstatic. cbn [negb].
  unfold resolve. cbn [staticRoutes dynamicRoutes]. rewrite Hst.
  rewrite Get_after_Insert by exact Hp.
  destruct (decide (p' = p)); reflexivity.
Qed.

Lemma staticRoutes_Handle r ops m p h :
  staticRoutes r = Radix.run ops →
  containsAny p (s2b ":*") = false →
  staticRoutes (Handle r m p h)
  = Radix.run (ops ++ [Radix.OpInsert p (mkRoute m p h)]).
Proof.
  intros Hst Hstatic. unfold Handle. rewrite Hstatic. cbn [negb staticRoutes].
  by rewrite Hst, RadixFacts.run_snoc.
Qed.

(** X10.  Registering a static pattern (no [:] or [*], not empty) makes the
    router answer requests for exactly that path from the new route,
    whatever was registered before and whatever the dynamic routes are:
    the handler runs when the method is the route's or [OPTIONS],
    otherwise the answer is 405 with [Allow] set to the route's method.
    Requests for other paths are resolved as before. *)
Theorem static_route_resolves r ops m p h m' :
  staticRoutes r = Radix.run ops →
  containsAny p (s2b ":*") = false → p ≠ [] →
  resolve (Handle r m p h) m' p
  = (if decide (m = m' ∨ m' = MethodOptions)
     then RunStatic (mkRoute m p h) else MethodNotAllowed m) ∧
  (∀ p', p' ≠ p → resolve (Handle r m p h) m' p' = resolve r m' p') ∧
  staticRoutes (Handle r m p h)
  = Radix.run (ops ++ [Radix.OpInsert p (mkRoute m p h)]).
Proof.
  intros Hst Hstatic Hp. split_and!.
  - rewrite (resolve_Handle_static r ops) by assumption.
    by rewrite decide_True.
  - intros p' Hne. rewrite (resolve_Handle_static r ops) by assumption.
    by rewrite decide_False.
  - by apply staticRoutes_Handle.
Qed.

(** X11.  A static path holds one route: registering a second method for the
    same path replaces the first registration, and a request with the
    first method is then answered 405 with [Allow] naming the second. *)
Theorem second_static_method_replaces_first r ops m1 h1 m2 h2 p :
  staticRoutes r = Radix.run ops →
  containsAny p (s2b ":*") = false → p ≠ [] →
  m1 ≠ m2 → m1 ≠ MethodOptions →
  let r' := Handle (Handle r m1 p h1) m2 p h2 in
  resolve r' m2 p = RunStatic (mkRoute m2 p h2) ∧
  resolve r' m1 p = MethodNotAllowed m2.
Proof.
  intros Hst Hstatic Hp Hm Hopt r'. unfold r'.
  pose proof (staticRoutes_Handle r ops m1 p h1 Hst Hstatic) as Hst1.
  split.
  - rewrite (resolve_Handle_static _ _ m2 p h2 m2 p Hst1 Hstatic Hp).
    rewrite (decide_True (P := p = p)) by reflexivity.
    destruct (decide (m2 = m2 ∨ m2 = MethodOptions)) as [_|Hn];
      [reflexivity|]. destruct Hn. by left.
  - rewrite (resolve_Handle_static _ _ m2 p h2 m1 p Hst1 Hstatic Hp).
    rewrite (decide_True (P := p = p)) by reflexivity.
    destruct (decide (m2 = m1 ∨ m1 = MethodOptions)) as [[?|?]|_];
      [congruence|congruence|reflexivity].
Qed.

(** X12.  Among the dynamic routes the first one, in registration order, whose
    pattern matches the path and whose method fits wins; when none does
    the answer is not-found.  The scan never answers 405. *)
Theorem scanDynamic_first_match (rts : list (route H)) reqMethod path :
  match scanDynamic rts reqMethod path with
  | RunDynamic rt params =>
      ∃ before after,
        rts = before ++ rt :: after ∧
        matchPattern (pattern rt) path = Some params ∧
        (method rt = reqMethod ∨ reqMethod = MethodOptions) ∧
        ∀ rt', rt' ∈ before → ¬ serves rt' reqMethod path
  | NotFound => ∀ rt, rt ∈ rts → ¬ serves rt reqMethod path
  | _ => False
  end.
Proof.
  induction rts as [|rt rts IH]; cbn [scanDynamic].
  - intros rt Hrt. by apply elem_of_nil in Hrt.
  - assert (Hskip : ¬ serves rt reqMethod path →
      match scanDynamic rts reqMethod path with
      | RunDynamic rt0 params =>
          ∃ before after,
            rt :: rts = before ++ rt0 :: after ∧
            matchPattern (pattern rt0) path = Some params ∧
            (method rt0 = reqMethod ∨ reqMethod = MethodOptions) ∧
            ∀ rt', rt' ∈ before → ¬ serves rt' reqMethod path
      | NotFound => ∀ rt0, rt0 ∈ rt :: rts → ¬ serves rt0 reqMethod path
      | _ => False
      end).
    { intros Hno. destruct (scanDynamic rts reqMethod path) as [|rt0 ps| |].
      - exact IH.
      - destruct IH as (before & after & -> & Hm & Hmeth & Hbefore).
        exists (rt :: before), after. split_and!; [reflexivity|exact Hm
          |exact Hmeth|].
        intros rt' [->|Hin]%elem_of_cons; [exact Hno|by apply Hbefore].
      - exact IH.
      - intros rt0 [->|Hin]%elem_of_cons; [exact Hno|by apply IH]. }
    destruct (matchPattern (pattern rt) path) as [params|] eqn:Hm.
    + case_decide as Hmeth.
      * exists [], rts. split_and!; [reflexivity|exact Hm|exact Hmeth|].
        intros rt' Hin. by apply elem_of_nil in Hin.
      * apply Hskip. by intros [_ ?].
    + apply Hskip. intros [[? Hs] _]. unfold serves in *. congruence.
Qed.

(** ** Middleware and admission *)

Lemma Use_all (ms : list (@Middleware H)) r :
  foldl Use r ms
  = mkRouter (staticRoutes r) (dynamicRoutes r) (middlewares r ++ ms)
             (workerPool r) (rateLimiter r).
Proof.
  revert r. induction ms as [|m ms IH]; intros r; cbn [foldl].
  - rewrite app_nil_r. by destruct r.
  - rewrite IH. unfold Use. cbn [staticRoutes dynamicRoutes middlewares
      workerPool rateLimiter]. by rewrite <- app_assoc.
Qed.

(** X13.  Middlewares wrap the handler in registration order from the outside
    in: the first one registered with [Use] is outermost (it runs first
    on the way in), the last one registered is applied directly to the
    handler. *)
Theorem middleware_order (ms : list (@Middleware H)) (m : @Middleware H) h :
  executeHandler (foldl Use New ms) h
  = (foldl Use New ms, RanInline (chain ms h)) ∧
  chain (m :: ms) h = m (chain ms h) ∧
  chain (ms ++ [m]) h = chain ms (m h).
Proof.
  split_and!.
  - rewrite Use_all. reflexivity.
  - reflexivity.
  - unfold chain. by rewrite foldr_app.
Qed.

Lemma serveN_limited (k : nat) :
  ∀ (t : nat) st dyn ms mx (h : H),
  serveN k (mkRouter st dyn ms None (Some (Limiter.mkRateLimiter (Z.of_nat t) mx))) h
  = repeat (RanInline (chain ms h)) (k `min` t)
    ++ repeat (Status 429) (k - t).
Proof.
  induction k as [|k IH]; intros t st dyn ms mx h; [reflexivity|].
  cbn [serveN]. unfold executeHandler.
  cbn [rateLimiter workerPool middlewares staticRoutes dynamicRoutes].
  unfold Limiter.Allow. cbn [Limiter.tokens Limiter.maxTokens].
  destruct t as [|t].
  - rewrite decide_False by (simpl; lia). cbn [fst snd negb].
    rewrite (IH 0%nat). rewrite Nat.min_0_r, Nat.sub_0_r. reflexivity.
  - rewrite decide_True by lia. cbn [fst snd negb].
    replace (Z.of_nat (S t) - 1)%Z with (Z.of_nat t) by lia.
    rewrite (IH t). reflexivity.
Qed.

(** X14.  With a rate limiter of [maxTokens] tokens and no refill in between,
    of [k] consecutive requests the first [maxTokens] run the wrapped
    handler and every later one is answered 429 without the handler
    being run. *)
Theorem rate_limited_requests (k maxTokens : nat) (r : Router H) (h : H) :
  workerPool r = None →
  serveN k (WithRateLimiter r (Z.of_nat maxTokens)) h
  = repeat (RanInline (chain (middlewares r) h)) (k `min` maxTokens)
    ++ repeat (Status 429) (k - maxTokens).
Proof.
  intros Hnp. unfold WithRateLimiter, Limiter.NewRateLimiter. rewrite Hnp.
  apply serveN_limited.
Qed.

(** ** The pattern matcher *)

Lemma matchParts_param (name : str) (ps : list str) (seg : str)
    (segs : list str) (params : gmap str str) :
  matchParts ((":"%char :: name) :: ps) (seg :: segs) params
  = matchParts ps segs (<[name := seg]> params).
Proof. reflexivity. Qed.

Lemma not_param_cases (part : str) :
  ¬ is_param part →
  (∀ (ps : list str) (seg : str) (segs : list str) (params : gmap str str),
     matchParts (part :: ps) (seg :: segs) params
     = if decide (part ≠ seg) then None else matchParts ps segs params) ∧
  (∀ (ps : list str) (seg : str) (segs : list str) (params : gmap str str),
     captures (part :: ps) (seg :: segs) params = captures ps segs params).
Proof.
  intros Hnp. destruct part as [|a name]; [by split|].
  destruct a as [[] [] [] [] [] [] [] []];
    first [by split | by destruct Hnp].
Qed.

Lemma matchParts_spec (ps : list str) :
  ∀ (segs : list str) (params : gmap str str),
  (Forall2 (λ part seg, is_param part ∨ part = seg) ps segs →
   matchParts ps segs params = Some (captures ps segs params)) ∧
  (length ps = length segs →
   ¬ Forall2 (λ part seg, is_param part ∨ part = seg) ps segs →
   matchParts ps segs params = None).
Proof.
  induction ps as [|part ps IH]; intros segs params.
  - split; [by intros ->%Forall2_nil_inv_l|].
    destruct segs; [|discriminate]. intros _ Hn. destruct Hn. constructor.
  - destruct segs as [|seg segs].
    { split; [by intros ?%Forall2_nil_inv_r|done]. }
    assert (Hpar : is_param part ∨ ¬ is_param part).
    { destruct part as [|a name]; [right; intros []|].
      destruct (decide (a = ":"%char)) as [->|Hne]; [left; exact I|right].
      intros Hp. apply Hne.
      destruct a as [[] [] [] [] [] [] [] []];
        first [reflexivity | destruct Hp]. }
    destruct Hpar as [Hp|Hnp].
    + destruct part as [|a name]; [destruct Hp|].
      assert (a = ":"%char) as ->.
      { destruct a as [[] [] [] [] [] [] [] []];
          first [reflexivity | destruct Hp]. }
      rewrite matchParts_param. cbn [captures].
      destruct (IH segs (<[name := seg]> params)) as [IH1 IH2]. split.
      * intros [_ Hall]%Forall2_cons. by apply IH1.
      * intros [= Hlen] Hn. apply IH2; [exact Hlen|].
        intros Hall. apply Hn. constructor; [by left|exact Hall].
    + destruct (not_param_cases part Hnp) as [-> ->].
      destruct (IH segs params) as [IH1 IH2]. split.
      * intros Hf. apply Forall2_cons in Hf as [Hh Hall].
        destruct Hh as [Hh|Heq]; [by destruct Hnp|]. subst seg.
        rewrite decide_False by (intros Hne; by apply Hne). by apply IH1.
      * intros [= Hlen] Hn. case_decide as Hne; [reflexivity|].
        subst seg. apply IH2; [exact Hlen|].
        intros Hall. apply Hn. constructor; [by right|exact Hall].
Qed.

(** X15.  [matchPattern] succeeds exactly when pattern and path have the same
    number of segments and every pattern segment either starts with [:]
    or is byte-equal to the path segment at the same position; the
    result then holds the path segments at the positions of the [:name]
    segments.  Any other pair, in particular one with different segment
    counts, fails. *)
Theorem matchPattern_spec (pattern path : str) :
  let ok := Forall2 (λ part seg, is_param part ∨ part = seg)
                    (splitPath pattern) (splitPath path) in
  (ok → matchPattern pattern path
        = Some (captures (splitPath pattern) (splitPath path) ∅)) ∧
  (¬ ok → matchPattern pattern path = None) ∧
  (length (splitPath pattern) ≠ length (splitPath path) →
   matchPattern pattern path = None).
Proof.
  cbv zeta. unfold matchPattern.
  destruct (matchParts_spec (splitPath pattern) (splitPath path) ∅)
    as [H1 H2].
  split_and!.
  - intros Hok. rewrite decide_False; [by apply H1|].
    intros Hne. apply Hne. by eapply Forall2_length.
  - intros Hno. case_decide as Hlen; [reflexivity|].
    by apply H2.
  - intros Hlen. by rewrite decide_True.
Qed.

Lemma fieldsFunc_app_sep (f : ascii → bool) (sep : ascii) (s1 s2 : str) :
  f sep = true →
  ∀ cur, fieldsFunc f (s1 ++ sep :: s2) cur
         = fieldsFunc f s1 cur ++ fieldsFunc f s2 [].
Proof.
  intros Hsep. induction s1 as [|c s1 IH]; intros cur.
  - cbn [app fieldsFunc]. rewrite Hsep. by destruct cur.
  - cbn [app fieldsFunc]. destruct (f c).
    + destruct cur; [apply IH|]. cbn [app]. f_equal. apply IH.
    + apply IH.
Qed.

Lemma fieldsFunc_segments (f : ascii → bool) (s : str) :
  ∀ cur, Forall (λ c, f c = false) cur →
  Forall (λ seg, seg ≠ [] ∧ Forall (λ c, f c = false) seg)
         (fieldsFunc f s cur).
Proof.
  induction s as [|c s IH]; intros cur Hcur; cbn [fieldsFunc].
  - destruct cur; [constructor|].
    constructor; [split; [discriminate|exact Hcur]|constructor].
  - destruct (f c) eqn:Hc.
    + destruct cur; [by apply IH|].
      constructor; [split; [discriminate|exact Hcur]|]. apply IH. constructor.
    + apply IH. apply Forall_app. split; [exact Hcur|].
      constructor; [exact Hc|constructor].
Qed.

(** X16.  [splitPath] yields only non-empty segments without a slash, and
    slashes only separate: splitting around any slash gives the segments
    before it followed by those after it, so leading, trailing and
    repeated slashes change nothing, and the matcher ignores them. *)
Theorem splitPath_slashes (s1 s2 pattern : str) :
  Forall (λ seg, seg ≠ [] ∧ "/"%char ∉ seg) (splitPath s1) ∧
  splitPath (s1 ++ "/"%char :: s2) = splitPath s1 ++ splitPath s2 ∧
  splitPath (s1 ++ [ "/"%char ]) = splitPath s1 ∧
  splitPath ("/"%char :: s1) = splitPath s1 ∧
  matchPattern pattern (s1 ++ [ "/"%char ]) = matchPattern pattern s1.
Proof.
  assert (Hsep : bool_decide ("/"%char = "/"%char) = true)
    by (by apply bool_decide_eq_true).
  assert (Happ : ∀ a b, splitPath (a ++ "/"%char :: b)
                        = splitPath a ++ splitPath b).
  { intros a b. unfold splitPath.
    by rewrite (fieldsFunc_app_sep _ "/"%char a b Hsep). }
  assert (Htrail : splitPath (s1 ++ [ "/"%char ]) = splitPath s1).
  { rewrite Happ. unfold splitPath at 2. cbn [fieldsFunc].
    by rewrite app_nil_r. }
  split_and!.
  - unfold splitPath.
    eapply Forall_impl; [apply fieldsFunc_segments; constructor|].
    intros seg [Hne Hall]. split; [exact Hne|]. intros Hin.
    rewrite Forall_forall in Hall. specialize (Hall _ Hin). simpl in Hall.
    discriminate.
  - apply Happ.
  - exact Htrail.
  - apply (Happ [] s1).
  - unfold matchPattern. by rewrite Htrail.
Qed.

End RouteFacts.

(** C7.  A pattern segment [*name] is compared literally: the pattern
    [/files/*filepath] does not match the path [/files/a.txt], it matches
    only the path that spells [*filepath] itself, with no parameter
    captured; so a route registered with it (filed under the dynamic
    routes by [Handle] because of the [*]) answers not-found. *)
Example wildcard_segment_is_literal :
  matchPattern (s2b "/files/*filepath") (s2b "/files/a.txt") = None ∧
  matchPattern (s2b "/files/*filepath") (s2b "/files/*filepath") = Some ∅ ∧
  matchPattern (s2b "/files/:filepath") (s2b "/files/a.txt")
  = Some {[ s2b "filepath" := s2b "a.txt" ]} ∧
  (let r := Handle New (s2b "GET") (s2b "/files/*filepath") tt in
   dynamicRoutes r = [mkRoute (s2b "GET") (s2b "/files/*filepath") tt] ∧
   resolve r (s2b "GET") (s2b "/files/a.txt") = NotFound).
Proof. cbv zeta. split_and!; vm_compute; reflexivity. Qed.

Lemma static_route_resolves_witness :
  let r := Handle New (s2b "GET") (s2b "/a") tt in
  staticRoutes r
  = Radix.run [Radix.OpInsert (s2b "/a") (mkRoute (s2b "GET") (s2b "/a") tt)] ∧
  resolve (Handle r (s2b "POST") (s2b "/about") tt) (s2b "GET") (s2b "/about")
  = MethodNotAllowed (s2b "POST").
Proof.
  cbv zeta. split; [reflexivity|].
  exact (proj1 (static_route_resolves
                  (Handle New (s2b "GET") (s2b "/a") tt)
                  [Radix.OpInsert (s2b "/a")
                     (mkRoute (s2b "GET") (s2b "/a") tt)]
                  (s2b "POST") (s2b "/about") tt (s2b "GET")
                  eq_refl eq_refl ltac:(discriminate))).
Defined.

Lemma second_static_method_replaces_first_witness :
  let r' := Handle (Handle New (s2b "GET") (s2b "/x") tt)
                   (s2b "POST") (s2b "/x") tt in
  resolve r' (s2b "POST") (s2b "/x")
  = RunStatic (mkRoute (s2b "POST") (s2b "/x") tt) ∧
  resolve r' (s2b "GET") (s2b "/x") = MethodNotAllowed (s2b "POST").
Proof.
  exact (second_static_method_replaces_first New [] (s2b "GET") tt
           (s2b "POST") tt (s2b "/x") eq_refl eq_refl
           ltac:(discriminate) ltac:(discriminate) ltac:(discriminate)).
Defined.

Lemma rate_limited_requests_witness :
  serveN 5 (WithRateLimiter (Use New (λ h : nat, S h)) (Z.of_nat 2)) 0
  = [RanInline 1; RanInline 1; Status 429; Status 429; Status 429].
Proof.
  exact (rate_limited_requests 5 2 (Use New (λ h : nat, S h)) 0 eq_refl).
Defined.

End RouteFacts.

(* ===================================================================== *)
(** * Properties of the WebSocket engine *)
(* ===================================================================== *)

Module WSFacts.
Import WS.
#[local] Open Scope Z_scope.

(** ** Big-endian integers *)

Lemma testbit_above b n i :
  0 ≤ n → 0 ≤ b < 2 ^ n → n ≤ i → Z.testbit b i = false.
Proof.
  intros Hn Hb Hi. destruct (decide (b = 0)) as [->|Hb0].
  - apply Z.bits_0.
  - apply Z.bits_above_log2; [lia|].
    assert (Z.log2 b < n) by (apply Z.log2_lt_pow2; lia). lia.
Qed.

Lemma lor_shiftl_low a b n :
  0 ≤ n → 0 ≤ b < 2 ^ n → Z.lor (Z.shiftl a n) b = a * 2 ^ n + b.
Proof.
  intros Hn Hb. rewrite <- Z.shiftl_mul_pow2 by done.
  rewrite <- Z.add_lor_land.
  assert (Z.land (Z.shiftl a n) b = 0) as ->; [|lia].
  apply Z.bits_inj'. intros i Hi. rewrite Z.land_spec, Z.bits_0.
  destruct (decide (i < n)).
  - by rewrite Z.shiftl_spec_low.
  - rewrite (testbit_above b n i) by lia. apply andb_false_r.
Qed.

Lemma to_byte_range x : 0 ≤ to_byte x < 256.
Proof. unfold to_byte. apply Z.mod_pos_bound. lia. Qed.

Lemma be_get_acc acc n v :
  0 ≤ v →
  foldl (λ a b, Z.lor (Z.shiftl a 8) b) acc (be_put n v)
  = acc * 2 ^ (8 * Z.of_nat n) + v mod 2 ^ (8 * Z.of_nat n).
Proof.
  intros Hv. revert acc. induction n as [|n IH]; intros acc.
  - simpl. rewrite Z.mod_1_r. lia.
  - cbn [be_put foldl]. rewrite IH.
    rewrite (lor_shiftl_low acc _ 8) by (pose proof (to_byte_range
      (Z.shiftr v (8 * Z.of_nat n))); lia).
    unfold to_byte. rewrite Z.shiftr_div_pow2 by lia.
    replace (8 * Z.of_nat (S n)) with (8 * Z.of_nat n + 8) by lia.
    rewrite Z.pow_add_r by lia.
    rewrite (Z.rem_mul_r v (2 ^ (8 * Z.of_nat n)) (2 ^ 8)) by lia.
    change 256 with (2 ^ 8). ring.
Qed.

Lemma be_get_put n v :
  0 ≤ v < 2 ^ (8 * Z.of_nat n) → be_get (be_put n v) = v.
Proof.
  intros Hv. unfold be_get. rewrite be_get_acc by lia.
  rewrite Z.mod_small by lia. lia.
Qed.

Lemma length_be_put n v : length (be_put n v) = n.
Proof. induction n; simpl; congruence. Qed.

(** ** Reading *)

Lemma readFull_app n (bs rest : list Z) :
  length bs = n → readFull n (bs ++ rest) = (Ok bs, rest).
Proof.
  intros <-. unfold readFull. rewrite decide_True by (rewrite length_app; lia).
  by rewrite take_app_length, drop_app_length.
Qed.

Lemma small_length_bits l :
  0 ≤ l < 126 → Z.land l 0x80 = 0 ∧ Z.land l 0x7F = l.
Proof.
  intros Hl. split.
  - apply Z.bits_inj'. intros i Hi. rewrite Z.land_spec, Z.bits_0.
    destruct (decide (i = 7)) as [->|].
    + rewrite (testbit_above l 7 7); [done|lia|lia|lia].
    + replace (Z.testbit 128 i) with false; [apply andb_false_r|].
      symmetry. change 128 with (2 ^ 7). apply Z.pow2_bits_false. lia.
  - change 127 with (Z.ones 7). rewrite Z.land_ones by lia.
    apply Z.mod_small. lia.
Qed.

Lemma bind_readFull {B} n (bs rest : list Z) (f : list Z → Reader B) :
  length bs = n → bind (readFull n) f (bs ++ rest) = f bs rest.
Proof. intros Hn. unfold bind. by rewrite readFull_app. Qed.

Lemma bind_ret {A B} (a : A) (f : A → Reader B) s : bind (ret a) f s = f a s.
Proof. done. Qed.

Lemma bind_assoc {A B C} (m : Reader A) (f : A → Reader B)
    (g : B → Reader C) s :
  bind (bind m f) g s = bind m (λ x, bind (f x) g) s.
Proof. unfold bind. by destruct (m s) as [[a|e] s']. Qed.

(** ** Writing *)

Lemma writeFrame_ok out opcode payload :
  writeFrame (mkWriter out false) opcode payload
  = Ok (mkWriter (out ++ [to_byte (Z.lor 0x80 (Z.land opcode 0x0F))]
                      ++ lengthField (Z.of_nat (length payload))
                      ++ payload) false).
Proof.
  unfold writeFrame, Write, lengthField; simpl.
  repeat case_decide; simpl; by rewrite <- ?app_assoc.
Qed.

Lemma encodeFrame_eq opcode payload :
  encodeFrame opcode payload
  = [to_byte (Z.lor 0x80 (Z.land opcode 0x0F))]
      ++ lengthField (Z.of_nat (length payload)) ++ payload.
Proof. unfold encodeFrame. by rewrite writeFrame_ok. Qed.

Lemma writeFrame_broken out opcode payload :
  writeFrame (mkWriter out true) opcode payload = Err ErrWrite.
Proof. done. Qed.

(** Decoding an unmasked, final frame: header byte [0x80 | opcode],
    length field, payload. *)
Lemma readFrame_encoded opcode payload rest :
  0 ≤ opcode < 16 →
  Z.of_nat (length payload) < 2 ^ 63 →
  readFrame (encodeFrame opcode payload ++ rest)
  = (Ok (opcode, payload), rest).
Proof.
  intros Hop Hlen. rewrite encodeFrame_eq.
  assert (Hfb : ∃ fb, to_byte (Z.lor 0x80 (Z.land opcode 0x0F)) = fb
                      ∧ Z.land fb 0x80 ≠ 0 ∧ Z.land fb 0x0F = opcode).
  { eexists. split; [done|].
    assert (opcode ∈ seqZ 0 16) as Hin by (apply elem_of_seqZ; lia).
    revert Hin. generalize opcode. apply Forall_forall.
    vm_compute. repeat constructor; done. }
  destruct Hfb as (fb & -> & Hfin & Hopc).
  set (len := Z.of_nat (length payload)) in *.
  assert (Hlen0 : 0 ≤ len) by (unfold len; lia).
  assert (Hpay : ∀ l, l = len →
            bind (if decide (l < 0) then fail PanicMakeSlice
                  else readFull (Z.to_nat l))
                 (λ payload0, if negb (bool_decide (Z.land fb 0x80 ≠ 0))
                              then fail ErrFragmented
                              else ret (Z.land fb 0x0F, payload0))
                 (payload ++ rest)
            = (Ok (opcode, payload), rest)).
  { intros l ->. rewrite decide_False by lia.
    rewrite bind_readFull by (unfold len; lia).
    by rewrite bool_decide_eq_true_2, Hopc. }
  rewrite <- !app_assoc. unfold readFrame.
  rewrite (bind_readFull 1 [fb]) by done. cbn [nth].
  unfold lengthField.
  destruct (decide (len < 126)) as [H126|H126];
    [|destruct (decide (len ≤ 65535)) as [H64k|H64k]].
  - (* 7-bit length *)
    destruct (small_length_bits len) as [Hm Hl]; [lia|].
    unfold to_byte. rewrite (Z.mod_small len 256) by lia.
    rewrite (bind_readFull 1 [len]) by done. cbn [nth].
    rewrite Hm, Hl. rewrite bool_decide_eq_false_2 by (intros E; by apply E).
    rewrite (decide_False (P := len = 126)) by lia.
    rewrite (decide_False (P := len = 127)) by lia.
    rewrite !bind_ret. by apply Hpay.
  - (* 16-bit length *)
    change (126 :: be_put 2 len) with ([126] ++ be_put 2 len).
    rewrite <- !app_assoc.
    rewrite (bind_readFull 1 [126]) by done. cbn [nth].
    change (Z.land 126 128) with 0. change (Z.land 126 127) with 126.
    rewrite bool_decide_eq_false_2 by (intros E; by apply E).
    rewrite (decide_True (P := 126 = 126)) by done.
    rewrite bind_assoc, (bind_readFull 2 (be_put 2 len)) by done.
    rewrite !bind_ret.
    apply Hpay. apply be_get_put. change (2 ^ (8 * Z.of_nat 2)) with 65536.
    lia.
  - (* 64-bit length *)
    change (127 :: be_put 8 len) with ([127] ++ be_put 8 len).
    rewrite <- !app_assoc.
    rewrite (bind_readFull 1 [127]) by done. cbn [nth].
    change (Z.land 127 128) with 0. change (Z.land 127 127) with 127.
    rewrite bool_decide_eq_false_2 by (intros E; by apply E).
    rewrite (decide_False (P := 127 = 126)) by done.
    rewrite (decide_True (P := 127 = 127)) by done.
    rewrite bind_assoc, (bind_readFull 8 (be_put 8 len)) by done.
    rewrite !bind_ret.
    apply Hpay. rewrite be_get_put.
    + unfold int64_of_uint64. by rewrite decide_True.
    + change (2 ^ (8 * Z.of_nat 8)) with (2 ^ 64). lia.
Qed.


(** C4.  For each of the six opcodes and every payload (a Go slice has
    fewer than 2^63 bytes), [writeFrame] succeeds on a working stream, the
    frame it writes carries the fin bit, and [readFrame] applied to the
    bytes written returns the same opcode and the same payload, byte for
    byte, consuming exactly the frame.  The three length encodings (7-bit
    below 126, 16-bit up to 65535, 64-bit from 65536) are all covered. *)
Theorem frame_roundtrip (opcode : Z) (payload rest : list Z) :
  opcode ∈ [OpContinuation; OpText; OpBinary; OpClose; OpPing; OpPong] →
  Z.of_nat (length payload) < 2 ^ 63 →
  writeFrame (mkWriter [] false) opcode payload
  = Ok (mkWriter (encodeFrame opcode payload) false) ∧
  Z.land (nth 0 (encodeFrame opcode payload) 0) 0x80 = 0x80 ∧
  readFrame (encodeFrame opcode payload ++ rest) = (Ok (opcode, payload), rest).
Proof.
  intros Hop Hlen.
  assert (Hrange : 0 ≤ opcode < 16).
  { unfold OpContinuation, OpText, OpBinary, OpClose, OpPing, OpPong in Hop.
    repeat (apply elem_of_cons in Hop as [->|Hop]; [lia|]).
    by apply elem_of_nil in Hop. }
  split_and!.
  - by rewrite writeFrame_ok, encodeFrame_eq.
  - rewrite encodeFrame_eq. cbn [app nth].
    unfold OpContinuation, OpText, OpBinary, OpClose, OpPing, OpPong in Hop.
    repeat (apply elem_of_cons in Hop as [->|Hop]; [by vm_compute|]).
    by apply elem_of_nil in Hop.
  - by apply readFrame_encoded.
Qed.

Lemma frame_roundtrip_witness :
  let payload := repeat 7 126 in
  OpBinary ∈ [OpContinuation; OpText; OpBinary; OpClose; OpPing; OpPong] ∧
  Z.of_nat (length payload) < 2 ^ 63 ∧
  readFrame (encodeFrame OpBinary payload ++ [1; 2]) = (Ok (OpBinary, payload), [1; 2]).
Proof.
  cbv zeta.
  assert (Hin : OpBinary ∈ [OpContinuation; OpText; OpBinary; OpClose;
                            OpPing; OpPong])
    by (do 2 apply list_elem_of_further; apply list_elem_of_here).
  assert (Hlen : Z.of_nat (length (repeat 7 126)) < 2 ^ 63) by reflexivity.
  split_and!; [exact Hin|exact Hlen|].
  exact (proj2 (proj2 (frame_roundtrip OpBinary (repeat 7 126) [1; 2] Hin Hlen))).
Defined.

(** C5.  [generateAcceptKey] is base64 of the SHA-1 digest of the key
    followed by the protocol GUID, and on the key of the RFC 6455 example
    it yields the accept token of that example. *)
Theorem accept_key_rfc6455 :
  generateAcceptKey (s2b "dGhlIHNhbXBsZSBub25jZQ==")
  = s2b "s3pPLMBiTxaQ9kYGzzhZRbK+xOo=" ∧
  ∀ key, generateAcceptKey key
         = EncodeToString
             (sha1_sum (bytes_of_str
                          (key ++ s2b "258EAFA5-E914-47DA-95CA-C5AB0DC85B11"))).
Proof. split; [by vm_compute|done]. Qed.

(** ** The connection state machine *)

Ltac unpack_coherent H :=
  let c := fresh "c" in
  destruct H as (c & ? & ? & ? & ? & ? & ? & ?);
  repeat match goal with
         | w : WebSocketConn |- _ => destruct w as [? [] [] ?]
         end;
  destruct c as [? ? ? [] ? ?]; simplify_eq/=.

Lemma coherent_new inp : coherent (newWebSocketConn (newConnection inp)).
Proof. eexists. by split_and!. Qed.

Lemma Close_coherent wsc :
  coherent wsc →
  ∃ wsc', Close wsc = Done wsc' ∧ coherent wsc' ∧ Closed wsc' = true ∧
          ReceiveChan wsc' = ReceiveChan wsc ∧
          (Closed wsc = true → wsc' = wsc).
Proof.
  intros Hco. unpack_coherent Hco.
  match goal with |- context [Close (mkWS _ _ _ ?cl)] => destruct cl end.
  - eexists. split; [done|]. split_and!; try done. eexists. by split_and!.
  - eexists. split; [done|]. split_and!; try done. eexists. by split_and!.
Qed.

Lemma leave_coherent wsc :
  coherent wsc →
  ∃ wsc', leave wsc = Done (wsc', false) ∧ coherent wsc' ∧
          Closed wsc' = true ∧ ReceiveChan wsc' = ReceiveChan wsc.
Proof.
  intros Hco. destruct (Close_coherent wsc Hco) as (wsc' & E & ? & ? & ? & _).
  exists wsc'. unfold leave. by rewrite E.
Qed.

Lemma coherent_with_input wsc c inp :
  coherent wsc → conn wsc = Some c →
  coherent (with_conn wsc (with_input c inp)).
Proof. intros Hco Hc. unpack_coherent Hco. eexists. by split_and!. Qed.

Lemma coherent_with_output wsc c w :
  coherent wsc → conn wsc = Some c →
  coherent (with_conn wsc (with_output c w)).
Proof. intros Hco Hc. unpack_coherent Hco. eexists. by split_and!. Qed.

Lemma Send_coherent wsc m wsc' :
  coherent wsc → Send wsc m = Done wsc' →
  coherent wsc' ∧ Closed wsc' = Closed wsc.
Proof.
  intros Hco. unpack_coherent Hco. unfold Send, Chan.trySend, Chan.send.
  simpl. repeat (case_match || case_decide); intros; simplify_eq/=.
  split; [|done]. eexists. by split_and!.
Qed.

Lemma Send_no_panic wsc m : coherent wsc → Send wsc m ≠ Panic.
Proof.
  intros Hco. unpack_coherent Hco. unfold Send, Chan.trySend, Chan.send.
  simpl. by repeat (case_match || case_decide).
Qed.

Ltac crush_step :=
  unfold readPumpStep, writePumpStep, leave, Close, close, Send,
    Chan.trySend, Chan.send, Chan.close, Chan.recv,
    with_conn, with_input, with_output in *;
  simpl in *;
  repeat (case_match || case_decide); intros; simplify_eq/=.

Lemma readPumpStep_coherent wsc wsc' b :
  coherent wsc → readPumpStep wsc = Done (wsc', b) →
  coherent wsc' ∧ (Closed wsc = true → Closed wsc' = true).
Proof.
  intros Hco. unpack_coherent Hco.
  unfold readPumpStep. cbn [conn closeChan Chan.closed input].
  destruct (readFrame _) as [[[op pl]|e] rest].
  - crush_step; (split; [eexists; by split_and!|done]).
  - crush_step; (split; [eexists; by split_and!|done]).
Qed.

Lemma readPumpStep_no_panic wsc :
  coherent wsc →
  (∀ c, conn wsc = Some c → (readFrame (input c)).1 ≠ Err PanicMakeSlice) →
  readPumpStep wsc ≠ Panic.
Proof.
  intros Hco Hrd. unpack_coherent Hco.
  specialize (Hrd _ eq_refl). simpl in Hrd.
  unfold readPumpStep. cbn [conn closeChan Chan.closed input].
  destruct (readFrame _) as [[[op pl]|e] rest]; simpl in Hrd.
  - crush_step; done.
  - destruct e; crush_step; done.
Qed.

Lemma writePumpStep_coherent ev wsc wsc' b :
  coherent wsc → writePumpStep ev wsc = Done (wsc', b) →
  coherent wsc' ∧ (Closed wsc = true → Closed wsc' = true).
Proof.
  intros Hco. unpack_coherent Hco.
  unfold writePumpStep. cbn [conn output].
  destruct ev.
  - destruct (writeFrame _ OpClose _), (Chan.recv _) as [[[msg|] sc]|] eqn:Er;
      try destruct (writeFrame _ OpText _);
      crush_step; (split; [eexists; by split_and!|done]).
  - destruct (writeFrame _ OpPing _);
      crush_step; (split; [eexists; by split_and!|done]).
  - crush_step; (split; [eexists; by split_and!|done]).
Qed.

Lemma writePumpStep_no_panic ev wsc :
  coherent wsc → writePumpStep ev wsc ≠ Panic.
Proof.
  intros Hco. unpack_coherent Hco.
  unfold writePumpStep. cbn [conn output].
  destruct ev.
  - destruct (writeFrame _ OpClose _), (Chan.recv _) as [[[msg|] sc]|] eqn:Er;
      try destruct (writeFrame _ OpText _); crush_step; done.
  - destruct (writeFrame _ OpPing _); crush_step; done.
  - crush_step; done.
Qed.

Lemma act_coherent wsc a wsc' :
  coherent wsc → act wsc a = Some wsc' →
  coherent wsc' ∧ (Closed wsc = true → Closed wsc' = true).
Proof.
  intros Hco. destruct a as [m| | | |ev]; unfold act.
  - destruct (Send wsc m) as [w|e|] eqn:E; intros; simplify_eq; [|done].
    destruct (Send_coherent _ _ _ Hco E) as [? Hcl]. split; [done|].
    by rewrite Hcl.
  - destruct (Close_coherent wsc Hco) as (w & E & ? & ? & _).
    rewrite E. intros; by simplify_eq.
  - unpack_coherent Hco. crush_step; (split; [eexists; by split_and!|done]).
  - destruct (readPumpStep wsc) as [[w b]|e|] eqn:E; intros; simplify_eq.
    by eapply readPumpStep_coherent.
  - destruct (writePumpStep ev wsc) as [[w b]|e|] eqn:E; intros; simplify_eq.
    by eapply writePumpStep_coherent.
Qed.

Lemma reachable_coherent wsc : reachable wsc → coherent wsc.
Proof.
  induction 1 as [inp|wsc a wsc' _ IH Ha|wsc c more _ IH Hc|wsc c _ IH Hc].
  - apply coherent_new.
  - by destruct (act_coherent _ _ _ IH Ha).
  - by apply coherent_with_input.
  - by apply coherent_with_output.
Qed.

Lemma acts_reachable wsc l wsc' :
  reachable wsc → acts wsc l = Some wsc' → reachable wsc'.
Proof.
  revert wsc. induction l as [|a l IH]; intros wsc Hr; simpl.
  - by intros [= <-].
  - destruct (act wsc a) as [w|] eqn:Ea; [|done].
    apply IH. by eapply reach_act.
Qed.

Lemma acts_stay_closed wsc l wsc' :
  coherent wsc → Closed wsc = true → acts wsc l = Some wsc' →
  Closed wsc' = true.
Proof.
  revert wsc. induction l as [|a l IH]; intros wsc Hco Hcl; simpl.
  - by intros [= <-].
  - destruct (act wsc a) as [w|] eqn:Ea; [|done].
    destruct (act_coherent _ _ _ Hco Ea) as [Hco' Hcl']. apply IH; auto.
Qed.

Lemma rangeReceive_open wsc :
  Chan.closed (ReceiveChan wsc) = false → rangeReceive wsc ≠ EndOfSequence.
Proof.
  intros Hopen. unfold rangeReceive, Chan.recv.
  destruct (Chan.buf (ReceiveChan wsc)); [|done]. by rewrite Hopen.
Qed.

(** C6.  When the read pump of an open connection decodes a close frame,
    that iteration ends the loop with [Closed] set, [SendChan] closed and
    the raw stream released (one call of [netConn.Close]).  [ReceiveChan]
    is left as it was: it is not closed, neither then nor by anything that
    happens later, so the handler's [range] over it never sees the end of
    the sequence. *)
Theorem close_frame_leaves_ReceiveChan_open wsc c payload rest :
  reachable wsc → conn wsc = Some c → Closed wsc = false →
  readFrame (input c) = (Ok (OpClose, payload), rest) →
  ∃ wsc' c',
    readPumpStep wsc = Done (wsc', false) ∧
    Closed wsc' = true ∧
    Chan.closed (SendChan wsc') = true ∧
    conn wsc' = Some c' ∧ isClosed c' = true ∧ netConnCloses c' = 1%nat ∧
    ReceiveChan wsc' = ReceiveChan wsc ∧
    Chan.closed (ReceiveChan wsc') = false ∧
    ∀ l wsc'', acts wsc' l = Some wsc'' →
               Chan.closed (ReceiveChan wsc'') = false ∧
               rangeReceive wsc'' ≠ EndOfSequence.
Proof.
  intros Hr Hc Hopen Hrd.
  assert (Hco := reachable_coherent _ Hr).
  destruct (readPumpStep wsc) as [[w b]|e|] eqn:E.
  2,3: exfalso; unpack_coherent Hco; unfold readPumpStep in E;
       cbn [conn closeChan Chan.closed input] in E; rewrite Hrd in E;
       crush_step.
  assert (Hr' : reachable w).
  { apply (reach_act wsc ActReadPump). - done. - unfold act. by rewrite E. }
  assert (Hco' := reachable_coherent _ Hr').
  assert (b = false ∧ Closed w = true ∧ ReceiveChan w = ReceiveChan wsc)
    as (-> & Hcl & Hrc).
  { clear Hr Hr' Hco'. unpack_coherent Hco. unfold readPumpStep in E.
    cbn [conn closeChan Chan.closed input] in E. rewrite Hrd in E.
    crush_step. done. }
  destruct Hco' as (c' & Hc' & Hrcv & Hsc & Hic & _ & _ & Hn).
  exists w, c'. rewrite Hcl in *. split_and!; try done.
  intros l w'' Hl.
  destruct (reachable_coherent _ (acts_reachable _ _ _ Hr' Hl))
    as (? & _ & Hopen'' & _).
  split; [done|]. by apply rangeReceive_open.
Qed.

Lemma close_frame_leaves_ReceiveChan_open_witness :
  let wsc := newWebSocketConn (newConnection [0x88; 0x00]) in
  Closed wsc = false ∧
  ∃ wsc' c',
    readPumpStep wsc = Done (wsc', false) ∧
    Closed wsc' = true ∧
    Chan.closed (SendChan wsc') = true ∧
    conn wsc' = Some c' ∧ isClosed c' = true ∧ netConnCloses c' = 1%nat ∧
    ReceiveChan wsc' = ReceiveChan wsc ∧
    Chan.closed (ReceiveChan wsc') = false ∧
    ∀ l wsc'', acts wsc' l = Some wsc'' →
               Chan.closed (ReceiveChan wsc'') = false ∧
               rangeReceive wsc'' ≠ EndOfSequence.
Proof.
  cbv zeta. split; [reflexivity|].
  apply (close_frame_leaves_ReceiveChan_open
           (newWebSocketConn (newConnection [0x88; 0x00]))
           (newConnection [0x88; 0x00]) [] []).
  - apply reach_new.
  - reflexivity.
  - reflexivity.
  - vm_compute. reflexivity.
Defined.

(** C9.  In every state a connection can reach: once [Closed] is set,
    [Send] returns the error "connection closed" and [Closed] stays set
    whatever happens next; the raw stream has been released exactly once
    if [Closed] is set and never otherwise; and [Close] always succeeds,
    sets [Closed], leaves the stream released exactly once, and changes
    nothing when called again. *)
Theorem closed_rejects_and_releases_once wsc :
  reachable wsc →
  (Closed wsc = true →
   (∀ m, Send wsc m = Failed ErrClosed) ∧
   (∀ l wsc', acts wsc l = Some wsc' →
              Closed wsc' = true ∧ ∀ m, Send wsc' m = Failed ErrClosed)) ∧
  (∃ c, conn wsc = Some c ∧
        netConnCloses c = (if Closed wsc then 1 else 0)%nat) ∧
  (∃ wsc' c', Close wsc = Done wsc' ∧ Closed wsc' = true ∧
              conn wsc' = Some c' ∧ netConnCloses c' = 1%nat ∧
              Close wsc' = Done wsc' ∧
              ∀ l wsc'' c'', acts wsc' l = Some wsc'' →
                             conn wsc'' = Some c'' →
                             netConnCloses c'' = 1%nat).
Proof.
  intros Hr. assert (Hco := reachable_coherent _ Hr).
  assert (Hsend : ∀ w, Closed w = true → ∀ m, Send w m = Failed ErrClosed).
  { intros w Hw m. unfold Send. by rewrite Hw. }
  split_and!.
  - intros Hcl. split; [by apply Hsend|]. intros l w' Hl.
    assert (Closed w' = true) by (by eapply acts_stay_closed).
    split; [done|by apply Hsend].
  - destruct Hco as (c & Hc & _ & _ & _ & _ & _ & Hn). by exists c.
  - destruct (Close_coherent wsc Hco) as (w & E & Hco' & Hcl & _ & _).
    assert (Hr' : reachable w).
    { apply (reach_act wsc ActClose); [done|]. unfold act. by rewrite E. }
    destruct (Close_coherent w Hco') as (w2 & E2 & _ & _ & _ & Hsame).
    rewrite (Hsame Hcl) in E2.
    destruct Hco' as (c' & Hc' & _ & _ & _ & _ & _ & Hn).
    rewrite Hcl in Hn. exists w, c'. split_and!; try done.
    intros l w'' c'' Hl Hc''.
    assert (Hcl'' : Closed w'' = true).
    { eapply acts_stay_closed; [|exact Hcl|exact Hl].
      by apply reachable_coherent. }
    destruct (reachable_coherent _ (acts_reachable _ _ _ Hr' Hl))
      as (d & Hd & _ & _ & _ & _ & _ & Hn'').
    rewrite Hcl'' in Hn''. congruence.
Qed.

Lemma closed_rejects_and_releases_once_witness :
  let wsc := newWebSocketConn (newConnection []) in
  ∃ wsc' c', Close wsc = Done wsc' ∧ Closed wsc' = true ∧
             conn wsc' = Some c' ∧ netConnCloses c' = 1%nat ∧
             Close wsc' = Done wsc' ∧
             ∀ l wsc'' c'', acts wsc' l = Some wsc'' →
                            conn wsc'' = Some c'' →
                            netConnCloses c'' = 1%nat.
Proof.
  cbv zeta.
  exact (proj2 (proj2 (closed_rejects_and_releases_once
                         (newWebSocketConn (newConnection []))
                         (reach_new [])))).
Defined.

(** ** Further properties of the frame codec *)

Lemma unmask_length key i p : length (unmask key i p) = length p.
Proof. revert i. induction p as [|b p IH]; intros i; simpl; congruence. Qed.

Lemma unmask_involutive key i p : unmask key i (unmask key i p) = p.
Proof.
  revert i. induction p as [|b p IH]; intros i; [done|].
  cbn [unmask]. rewrite IH. f_equal.
  by rewrite Z.lxor_assoc, Z.lxor_nilpotent, Z.lxor_0_r.
Qed.

Lemma masked_length_bits l :
  0 ≤ l < 126 →
  Z.land (Z.lor 0x80 l) 0x80 = 0x80 ∧ Z.land (Z.lor 0x80 l) 0x7F = l.
Proof.
  intros Hl. destruct (small_length_bits l Hl) as [H1 H2].
  rewrite !Z.land_lor_distr_l, H1, H2. split; reflexivity.
Qed.

Lemma bind_readFull_1 {B} (b : Z) (rest : list Z) (f : list Z → Reader B) :
  bind (readFull 1) f (b :: rest) = f [b] rest.
Proof. by apply (bind_readFull 1 [b]). Qed.

(** Decoding a frame from the wire, masked or not, final or not. *)
Lemma readFrame_wire fb (masked : bool) key body rest :
  Z.of_nat (length body) < 2 ^ 63 →
  (masked = true → length key = 4%nat) →
  readFrame (wireFrame fb masked key body ++ rest)
  = if bool_decide (Z.land fb 0x80 ≠ 0)
    then (Ok (Z.land fb 0x0F, if masked then unmask key 0 body else body),
          rest)
    else (Err ErrFragmented, rest).
Proof.
  intros Hlen Hkey. unfold wireFrame.
  set (len := Z.of_nat (length body)) in *.
  assert (Hlen0 : 0 ≤ len) by (unfold len; lia).
  assert (Htail : ∀ l, l = len →
            bind (if masked then readFull 4 else ret [])
              (λ maskingKey,
                 bind (if decide (l < 0) then fail PanicMakeSlice
                       else readFull (Z.to_nat l))
                   (λ payload0,
                      if negb (bool_decide (Z.land fb 0x80 ≠ 0))
                      then fail ErrFragmented
                      else ret (Z.land fb 0x0F,
                                if masked then unmask maskingKey 0 payload0
                                else payload0)))
              ((if masked then key else []) ++ body ++ rest)
            = if bool_decide (Z.land fb 0x80 ≠ 0)
              then (Ok (Z.land fb 0x0F,
                        if masked then unmask key 0 body else body), rest)
              else (Err ErrFragmented, rest)).
  { intros l ->. destruct masked.
    - rewrite (bind_readFull 4 key) by (by apply Hkey).
      rewrite decide_False by lia.
      rewrite bind_readFull by (unfold len; lia).
      by destruct (bool_decide (Z.land fb 0x80 ≠ 0)).
    - rewrite bind_ret. cbn [app]. rewrite decide_False by lia.
      rewrite bind_readFull by (unfold len; lia).
      by destruct (bool_decide (Z.land fb 0x80 ≠ 0)). }
  rewrite <- !app_assoc. unfold readFrame.
  rewrite (bind_readFull 1 [fb]) by done. cbn [nth].
  unfold lengthField.
  destruct (decide (len < 126)) as [H126|H126];
    [|destruct (decide (len ≤ 65535)) as [H64k|H64k]].
  - unfold to_byte. rewrite (Z.mod_small len 256) by lia.
    destruct (small_length_bits len) as [Hm Hl]; [lia|].
    destruct (masked_length_bits len) as [Hm' Hl']; [lia|].
    set (sb := if masked then Z.lor 128 len else len).
    assert (Hsb : Z.land sb 0x7F = len
                  ∧ bool_decide (Z.land sb 0x80 ≠ 0) = masked).
    { unfold sb. destruct masked.
      - rewrite Hm', Hl'. split; [done|]. by apply bool_decide_eq_true_2.
      - rewrite Hm, Hl. split; [done|].
        apply bool_decide_eq_false_2. intros E; by apply E. }
    destruct Hsb as [Hsb1 Hsb2].
    cbn [app]. rewrite bind_readFull_1. cbn [nth].
    rewrite Hsb1, Hsb2.
    rewrite (decide_False (P := len = 126)) by lia.
    rewrite (decide_False (P := len = 127)) by lia.
    rewrite bind_ret. by apply Htail.
  - set (sb := if masked then Z.lor 128 126 else 126).
    assert (Hsb : Z.land sb 0x7F = 126
                  ∧ bool_decide (Z.land sb 0x80 ≠ 0) = masked).
    { unfold sb. by destruct masked. }
    destruct Hsb as [Hsb1 Hsb2].
    cbn [app]. rewrite bind_readFull_1. cbn [nth].
    rewrite Hsb1, Hsb2.
    rewrite (decide_True (P := 126 = 126)) by done.
    rewrite bind_assoc, (bind_readFull 2 (be_put 2 len)) by done.
    rewrite !bind_ret. apply Htail. apply be_get_put.
    change (2 ^ (8 * Z.of_nat 2)) with 65536. lia.
  - set (sb := if masked then Z.lor 128 127 else 127).
    assert (Hsb : Z.land sb 0x7F = 127
                  ∧ bool_decide (Z.land sb 0x80 ≠ 0) = masked).
    { unfold sb. by destruct masked. }
    destruct Hsb as [Hsb1 Hsb2].
    cbn [app]. rewrite bind_readFull_1. cbn [nth].
    rewrite Hsb1, Hsb2.
    rewrite (decide_False (P := 127 = 126)) by done.
    rewrite (decide_True (P := 127 = 127)) by done.
    rewrite bind_assoc, (bind_readFull 8 (be_put 8 len)) by done.
    rewrite !bind_ret. apply Htail. rewrite be_get_put.
    + unfold int64_of_uint64. by rewrite decide_True.
    + change (2 ^ (8 * Z.of_nat 8)) with (2 ^ 64). lia.
Qed.

Lemma header_bits opcode :
  0 ≤ opcode < 16 →
  Z.land (Z.lor 0x80 opcode) 0x80 ≠ 0 ∧ Z.land (Z.lor 0x80 opcode) 0x0F = opcode.
Proof.
  intros Hop. assert (opcode ∈ seqZ 0 16) as Hin by (apply elem_of_seqZ; lia).
  revert Hin. generalize opcode. apply Forall_forall.
  vm_compute. repeat constructor; done.
Qed.

Ltac decode_masked Hop :=
  let Hfin := fresh "Hfin" in
  let Hopc := fresh "Hopc" in
  destruct (header_bits _ Hop) as [Hfin Hopc];
  rewrite readFrame_wire; [|by rewrite unmask_length|done];
  rewrite (bool_decide_eq_true_2 _ Hfin), Hopc, unmask_involutive.

(** X17.  A masked frame, as every client sends it, decodes to its opcode and
    its payload: [readFrame] reads the 4-byte key after the length field
    and undoes the masking, for all three length encodings. *)
Theorem masked_frame_decodes (opcode : Z) (key payload rest : list Z) :
  0 ≤ opcode < 16 → length key = 4%nat →
  Z.of_nat (length payload) < 2 ^ 63 →
  readFrame (wireFrame (Z.lor 0x80 opcode) true key (unmask key 0 payload)
               ++ rest)
  = (Ok (opcode, payload), rest).
Proof. intros Hop Hkey Hlen. decode_masked Hop. reflexivity. Qed.

Lemma masked_frame_decodes_witness :
  let key := [0x37; 0xfa; 0x21; 0x3d] in
  let payload := [0x48; 0x65; 0x6c; 0x6c; 0x6f] in
  wireFrame (Z.lor 0x80 OpText) true key (unmask key 0 payload)
  = [0x81; 0x85; 0x37; 0xfa; 0x21; 0x3d; 0x7f; 0x9f; 0x4d; 0x51; 0x58] ∧
  readFrame ([0x81; 0x85; 0x37; 0xfa; 0x21; 0x3d; 0x7f; 0x9f; 0x4d; 0x51; 0x58]
               ++ [])
  = (Ok (OpText, payload), []).
Proof.
  cbv zeta. split; [reflexivity|].
  exact (masked_frame_decodes OpText [0x37; 0xfa; 0x21; 0x3d]
           [0x48; 0x65; 0x6c; 0x6c; 0x6f] []
           ltac:(unfold OpText; lia) eq_refl eq_refl).
Defined.

(** X18.  A frame whose fin bit is clear is not delivered: [readFrame] consumes
    the whole frame (header, key and body) and returns the error
    "fragmented messages not supported", whatever its opcode. *)
Theorem fragment_is_rejected fb (masked : bool) key body rest :
  Z.land fb 0x80 = 0 →
  Z.of_nat (length body) < 2 ^ 63 →
  (masked = true → length key = 4%nat) →
  readFrame (wireFrame fb masked key body ++ rest) = (Err ErrFragmented, rest).
Proof.
  intros Hfin Hlen Hkey. rewrite readFrame_wire by done.
  rewrite bool_decide_eq_false_2; [done|]. intros E; by apply E.
Qed.

Lemma fragment_is_rejected_witness :
  wireFrame 0x01 false [] [0x48; 0x69] = [0x01; 0x02; 0x48; 0x69] ∧
  readFrame ([0x01; 0x02; 0x48; 0x69] ++ [0x80; 0x00])
  = (Err ErrFragmented, [0x80; 0x00]).
Proof.
  split; [reflexivity|].
  exact (fragment_is_rejected 0x01 false [] [0x48; 0x69] [0x80; 0x00]
           eq_refl eq_refl ltac:(discriminate)).
Defined.

(** X19.  The bytes of a frame: two header bytes below 126 payload bytes, four
    up to 65535, ten above, then the payload unchanged. *)
Theorem encodeFrame_length (opcode : Z) (payload : list Z) :
  let len := Z.of_nat (length payload) in
  length (encodeFrame opcode payload)
  = ((if decide (len < 126)%Z then 2
      else if decide (len ≤ 65535)%Z then 4 else 10) + length payload)%nat ∧
  drop (length (encodeFrame opcode payload) - length payload)
       (encodeFrame opcode payload) = payload.
Proof.
  cbv zeta. rewrite encodeFrame_eq, app_assoc.
  set (h := [to_byte (Z.lor 0x80 (Z.land opcode 0x0F))]
              ++ lengthField (Z.of_nat (length payload))).
  assert (Hh : length h
               = if decide (Z.of_nat (length payload) < 126)%Z then 2%nat
                 else if decide (Z.of_nat (length payload) ≤ 65535)%Z
                      then 4%nat else 10%nat).
  { unfold h, lengthField.
    destruct (decide (Z.of_nat (length payload) < 126)%Z); [reflexivity|].
    destruct (decide (Z.of_nat (length payload) ≤ 65535)%Z);
      cbn [app length]; by rewrite length_be_put. }
  rewrite length_app, <- Hh. split; [reflexivity|].
  replace (length h + length payload - length payload)%nat
    with (length h) by lia.
  by rewrite drop_app_length.
Qed.



(** ** Frames that arrive in pieces *)

Lemma bindOn_readFullOn {B} ended n (bs rest : list Z)
    (f : list Z → LiveReader B) :
  length bs = n → bindOn (readFullOn ended n) f (bs ++ rest) = f bs rest.
Proof.
  intros <-. unfold bindOn, readFullOn.
  rewrite decide_True by (rewrite length_app; lia).
  by rewrite take_app_length, drop_app_length.
Qed.

Lemma bindOn_readFullOn_1 {B} ended (b : Z) (rest : list Z)
    (f : list Z → LiveReader B) :
  bindOn (readFullOn ended 1) f (b :: rest) = f [b] rest.
Proof. by apply (bindOn_readFullOn ended 1 [b]). Qed.

Lemma bindOn_ret {A B} (a : A) (f : A → LiveReader B) s :
  bindOn (retOn a) f s = f a s.
Proof. done. Qed.

Lemma bindOn_assoc {A B C} (m : LiveReader A) (f : A → LiveReader B)
    (g : B → LiveReader C) s :
  bindOn (bindOn m f) g s = bindOn m (λ x, bindOn (f x) g) s.
Proof. unfold bindOn. by destruct (m s) as [[a|e] s'|]. Qed.

(** A frame that has arrived in full, on an open or an ended stream. *)
Lemma readFrameOn_wire ended fb (masked : bool) key body rest :
  Z.of_nat (length body) ≤ maxAlloc →
  (masked = true → length key = 4%nat) →
  readFrameOn ended (wireFrame fb masked key body ++ rest)
  = Returned (if bool_decide (Z.land fb 0x80 ≠ 0)
              then Ok (Z.land fb 0x0F,
                       if masked then unmask key 0 body else body)
              else Err ErrFragmented) rest.
Proof.
  intros Hlen Hkey. unfold wireFrame.
  set (len := Z.of_nat (length body)) in *.
  assert (Hlen0 : 0 ≤ len) by (unfold len; lia).
  assert (Hmax : len < 2 ^ 63) by (unfold maxAlloc in Hlen; lia).
  assert (Htail : ∀ l, l = len →
            bindOn (if masked then readFullOn ended 4 else retOn [])
              (λ maskingKey,
                 bindOn (if decide (l < 0 ∨ maxAlloc < l)
                         then failOn PanicMakeSlice
                         else readFullOn ended (Z.to_nat l))
                   (λ payload0,
                      if negb (bool_decide (Z.land fb 0x80 ≠ 0))
                      then failOn ErrFragmented
                      else retOn (Z.land fb 0x0F,
                                  if masked then unmask maskingKey 0 payload0
                                  else payload0)))
              ((if masked then key else []) ++ body ++ rest)
            = Returned (if bool_decide (Z.land fb 0x80 ≠ 0)
                        then Ok (Z.land fb 0x0F,
                                 if masked then unmask key 0 body else body)
                        else Err ErrFragmented) rest).
  { intros l ->.
    assert (Hmk : ¬ (len < 0 ∨ maxAlloc < len)) by lia.
    destruct masked.
    - rewrite (bindOn_readFullOn ended 4 key) by (by apply Hkey).
      destruct (decide (len < 0 ∨ maxAlloc < len)) as [Hd|_];
        [by destruct Hmk|].
      rewrite bindOn_readFullOn by (unfold len; lia).
      by destruct (bool_decide (Z.land fb 0x80 ≠ 0)).
    - rewrite bindOn_ret. cbn [app].
      destruct (decide (len < 0 ∨ maxAlloc < len)) as [Hd|_];
        [by destruct Hmk|].
      rewrite bindOn_readFullOn by (unfold len; lia).
      by destruct (bool_decide (Z.land fb 0x80 ≠ 0)). }
  rewrite <- !app_assoc. unfold readFrameOn.
  rewrite (bindOn_readFullOn ended 1 [fb]) by done. cbn [nth].
  unfold lengthField.
  destruct (decide (len < 126)) as [H126|H126];
    [|destruct (decide (len ≤ 65535)) as [H64k|H64k]].
  - unfold to_byte. rewrite (Z.mod_small len 256) by lia.
    destruct (small_length_bits len) as [Hm Hl]; [lia|].
    destruct (masked_length_bits len) as [Hm' Hl']; [lia|].
    set (sb := if masked then Z.lor 128 len else len).
    assert (Hsb : Z.land sb 0x7F = len
                  ∧ bool_decide (Z.land sb 0x80 ≠ 0) = masked).
    { unfold sb. destruct masked.
      - rewrite Hm', Hl'. split; [done|]. by apply bool_decide_eq_true_2.
      - rewrite Hm, Hl. split; [done|].
        apply bool_decide_eq_false_2. intros E; by apply E. }
    destruct Hsb as [Hsb1 Hsb2].
    cbn [app]. rewrite bindOn_readFullOn_1. cbn [nth].
    rewrite Hsb1, Hsb2.
    rewrite (decide_False (P := len = 126)) by lia.
    rewrite (decide_False (P := len = 127)) by lia.
    rewrite bindOn_ret. by apply Htail.
  - set (sb := if masked then Z.lor 128 126 else 126).
    assert (Hsb : Z.land sb 0x7F = 126
                  ∧ bool_decide (Z.land sb 0x80 ≠ 0) = masked).
    { unfold sb. by destruct masked. }
    destruct Hsb as [Hsb1 Hsb2].
    cbn [app]. rewrite bindOn_readFullOn_1. cbn [nth].
    rewrite Hsb1, Hsb2.
    rewrite (decide_True (P := 126 = 126)) by done.
    rewrite bindOn_assoc, (bindOn_readFullOn ended 2 (be_put 2 len)) by done.
    rewrite !bindOn_ret. apply Htail. apply be_get_put.
    change (2 ^ (8 * Z.of_nat 2)) with 65536. lia.
  - set (sb := if masked then Z.lor 128 127 else 127).
    assert (Hsb : Z.land sb 0x7F = 127
                  ∧ bool_decide (Z.land sb 0x80 ≠ 0) = masked).
    { unfold sb. by destruct masked. }
    destruct Hsb as [Hsb1 Hsb2].
    cbn [app]. rewrite bindOn_readFullOn_1. cbn [nth].
    rewrite Hsb1, Hsb2.
    rewrite (decide_False (P := 127 = 126)) by done.
    rewrite (decide_True (P := 127 = 127)) by done.
    rewrite bindOn_assoc, (bindOn_readFullOn ended 8 (be_put 8 len)) by done.
    rewrite !bindOn_ret. apply Htail. rewrite be_get_put.
    + unfold int64_of_uint64. by rewrite decide_True.
    + change (2 ^ (8 * Z.of_nat 8)) with (2 ^ 64). lia.
Qed.

Lemma incremental_retOn {A} ended (a : A) : incremental ended (retOn a).
Proof. intros p q. right. by exists (Ok a), p. Qed.

Lemma incremental_failOn {A} ended e : incremental ended (@failOn A e).
Proof. intros p q. right. by exists (Err e), p. Qed.

Lemma incremental_readFullOn ended n : incremental ended (readFullOn ended n).
Proof.
  intros p q. unfold readFullOn.
  destruct (decide (n ≤ length p)%nat) as [Hn|Hn].
  - right. exists (Ok (take n p)), (drop n p). split; [done|].
    rewrite decide_True by (rewrite length_app; lia).
    by rewrite take_app_le, drop_app_le by lia.
  - left. destruct ended; cbn; [|done]. destruct p; [by left|by right].
Qed.

Lemma incremental_bindOn {A B} ended (m : LiveReader A)
    (f : A → LiveReader B) :
  incremental ended m → (∀ a, incremental ended (f a)) →
  incremental ended (bindOn m f).
Proof.
  intros Hm Hf p q. unfold bindOn.
  destruct (Hm p q) as [Hs|(r & p' & E & E')].
  - left. destruct ended; cbn in Hs |- *.
    + destruct Hs as [E|E]; rewrite E; [by left|by right].
    + by rewrite Hs.
  - rewrite E, E'. destruct r as [a|e].
    + apply Hf.
    + right. by exists (Err e), p'.
Qed.

Lemma incremental_readFrameOn ended : incremental ended (readFrameOn ended).
Proof.
  unfold readFrameOn.
  apply incremental_bindOn; [apply incremental_readFullOn|].
  intros firstByte.
  apply incremental_bindOn; [apply incremental_readFullOn|].
  intros secondByte.
  apply incremental_bindOn.
  { destruct (decide (Z.land (nth 0 secondByte 0) 127 = 126)).
    - apply incremental_bindOn; [apply incremental_readFullOn|].
      intros; apply incremental_retOn.
    - destruct (decide (Z.land (nth 0 secondByte 0) 127 = 127)).
      + apply incremental_bindOn; [apply incremental_readFullOn|].
        intros; apply incremental_retOn.
      + apply incremental_retOn. }
  intros payloadLen. apply incremental_bindOn.
  { destruct (bool_decide (Z.land (nth 0 secondByte 0) 128 ≠ 0)).
    - apply incremental_readFullOn.
    - apply incremental_retOn. }
  intros maskingKey. apply incremental_bindOn.
  { destruct (decide (payloadLen < 0 ∨ maxAlloc < payloadLen)).
    - apply incremental_failOn.
    - apply incremental_readFullOn. }
  intros payload.
  destruct (negb (bool_decide (Z.land (nth 0 firstByte 0) 128 ≠ 0))).
  - apply incremental_failOn.
  - apply incremental_retOn.
Qed.

(** X21.  A frame that has arrived only in part yields no payload.  While
    the stream is open [readFrame] stays blocked in [io.ReadFull],
    wherever the frame is cut; if the peer closes the stream at that
    point, [readFrame] returns [io.EOF] or [io.ErrUnexpectedEOF]
    ([io.EOF] when nothing had arrived).  Once the remaining bytes are
    there, the frame is decoded and what follows it is left unread.
    This holds for every frame whose body has a length [make] accepts. *)
Theorem partial_frame_waits_or_EOF fb (masked : bool) key body
    (p q : list Z) :
  Z.of_nat (length body) ≤ maxAlloc →
  (masked = true → length key = 4%nat) →
  wireFrame fb masked key body = p ++ q → q ≠ [] →
  readFrameOn false p = Waiting ∧
  (readFrameOn true p = Returned (Err ErrEOF) [] ∨
   readFrameOn true p = Returned (Err ErrUnexpectedEOF) []) ∧
  (p = [] → readFrameOn true p = Returned (Err ErrEOF) []) ∧
  ∀ ended rest,
    readFrameOn ended (p ++ q ++ rest)
    = Returned (if bool_decide (Z.land fb 0x80 ≠ 0)
                then Ok (Z.land fb 0x0F,
                         if masked then unmask key 0 body else body)
                else Err ErrFragmented) rest.
Proof.
  intros Hlen Hkey Hcut Hq.
  assert (Hshort : ∀ ended, short ended (readFrameOn ended p)).
  { intros ended.
    destruct (incremental_readFrameOn ended p q) as [Hs|(r & p' & E & E')];
      [done|].
    exfalso.
    pose proof (readFrameOn_wire ended fb masked key body [] Hlen Hkey) as Hw.
    rewrite app_nil_r, Hcut, E' in Hw.
    assert (p' ++ q = []) as Hnil by congruence.
    apply app_eq_nil in Hnil as [_ ->]. by apply Hq. }
  split_and!.
  - apply (Hshort false).
  - apply (Hshort true).
  - by intros ->.
  - intros ended rest. rewrite app_assoc, <- Hcut.
    by apply readFrameOn_wire.
Qed.

Lemma partial_frame_waits_or_EOF_witness :
  wireFrame 0x81 true [1; 2; 3; 4] [0x49; 0x6b]
  = [0x81; 0x82; 1; 2; 3] ++ [4; 0x49; 0x6b] ∧
  readFrameOn false [0x81; 0x82; 1; 2; 3] = Waiting ∧
  readFrameOn true [0x81; 0x82; 1; 2; 3]
  = Returned (Err ErrUnexpectedEOF) [] ∧
  readFrameOn false ([0x81; 0x82; 1; 2; 3] ++ [4; 0x49; 0x6b] ++ [0x88])
  = Returned (Ok (OpText, [0x48; 0x69])) [0x88].
Proof.
  destruct (partial_frame_waits_or_EOF 0x81 true [1; 2; 3; 4] [0x49; 0x6b]
              [0x81; 0x82; 1; 2; 3] [4; 0x49; 0x6b])
    as (Hw & He & _ & Hfull).
  - unfold maxAlloc. cbn. lia.
  - reflexivity.
  - reflexivity.
  - discriminate.
  - split; [reflexivity|]. split; [exact Hw|].
    split; [by vm_compute|]. exact (Hfull false [0x88]).
Defined.

(** ** Messages through the pumps *)

Lemma sendAll_appends wsc ms :
  Closed wsc = false → Chan.closed (SendChan wsc) = false →
  (length (Chan.buf (SendChan wsc)) + length ms ≤ Chan.cap (SendChan wsc))%nat →
  sendAll wsc ms
  = Some (mkWS (conn wsc)
               (Chan.mkChan (Chan.buf (SendChan wsc) ++ ms)
                            (Chan.cap (SendChan wsc)) false)
               (ReceiveChan wsc) false).
Proof.
  revert wsc. induction ms as [|m ms IH]; intros wsc Hopen Hsc Hfit.
  - cbn [sendAll]. rewrite app_nil_r. f_equal.
    destruct wsc as [cn [b cp cl] rc cl']. cbn in *. by subst.
  - cbn [sendAll length] in *. unfold Send, Chan.trySend, Chan.send.
    rewrite Hopen, Hsc. rewrite decide_True by lia.
    rewrite IH; cbn [Closed SendChan Chan.closed Chan.buf Chan.cap conn
                     ReceiveChan]; try done.
    + by rewrite <- app_assoc.
    + rewrite length_app. cbn [length]. lia.
Qed.

Lemma writeN_drains wsc c ms rest :
  conn wsc = Some c → broken (output c) = false →
  Chan.buf (SendChan wsc) = ms ++ rest →
  writeN (length ms) wsc
  = Done (mkWS (Some (with_output c
                        (mkWriter (written (output c)
                                   ++ concat (encodeFrame OpText <$> ms))
                                  false)))
               (Chan.mkChan rest (Chan.cap (SendChan wsc))
                            (Chan.closed (SendChan wsc)))
               (ReceiveChan wsc) (Closed wsc), true).
Proof.
  revert wsc c. induction ms as [|m ms IH]; intros wsc c Hc Hw Hbuf.
  - cbn [writeN length fmap list_fmap concat]. rewrite app_nil_r.
    destruct wsc as [cn [b cp cl] rc cl']. destruct c as [n i [o br] cc co ic].
    cbn in *. by subst.
  - cbn [writeN length]. unfold writePumpStep. rewrite Hc.
    unfold Chan.recv. rewrite Hbuf. cbn [app].
    destruct (output c) as [o br] eqn:Eo. cbn [broken] in Hw. subst br.
    rewrite writeFrame_ok.
    rewrite (IH _ (with_output c
                     (mkWriter (o ++ [to_byte (Z.lor 128 (Z.land OpText 15))]
                                  ++ lengthField (Z.of_nat (length m)) ++ m)
                               false))); try done.
    cbn [conn SendChan ReceiveChan Closed with_conn with_output output
         written Chan.cap Chan.closed netConnCloses input closeChan closeOnce
         isClosed fmap list_fmap concat].
    rewrite encodeFrame_eq. by rewrite <- !app_assoc.
Qed.

(** X22.  Messages accepted by [Send] reach the stream in the order of the
    calls: after [Send] of each of [ms] on an open connection with an
    empty send buffer, as many iterations of [writePump] write one text
    frame per message, first message first, and empty the buffer. *)
Theorem messages_written_in_order wsc c (ms : list (list Z)) :
  conn wsc = Some c → Closed wsc = false →
  Chan.closed (SendChan wsc) = false → Chan.buf (SendChan wsc) = [] →
  broken (output c) = false →
  (length ms ≤ Chan.cap (SendChan wsc))%nat →
  ∃ wsc1 wsc2 c2,
    sendAll wsc ms = Some wsc1 ∧
    writeN (length ms) wsc1 = Done (wsc2, true) ∧
    conn wsc2 = Some c2 ∧
    written (output c2)
    = written (output c) ++ concat (encodeFrame OpText <$> ms) ∧
    Chan.buf (SendChan wsc2) = [].
Proof.
  intros Hc Hopen Hsc Hbuf Hw Hfit.
  rewrite sendAll_appends by (try done; rewrite Hbuf; cbn [length]; lia).
  rewrite Hbuf. cbn [app]. eexists _, _, _. split; [reflexivity|].
  rewrite (writeN_drains _ c ms []); [|done|done|by rewrite app_nil_r].
  split; [reflexivity|]. by split_and!.
Qed.

Lemma messages_written_in_order_witness :
  ∃ wsc1 wsc2 c2,
    sendAll (newWebSocketConn (newConnection [])) [[0x48; 0x69]; []; [0x21]]
    = Some wsc1 ∧
    writeN 3 wsc1 = Done (wsc2, true) ∧
    conn wsc2 = Some c2 ∧
    written (output c2)
    = [0x81; 2; 0x48; 0x69; 0x81; 0; 0x81; 1; 0x21] ∧
    Chan.buf (SendChan wsc2) = [].
Proof.
  exact (messages_written_in_order (newWebSocketConn (newConnection []))
           (newConnection []) [[0x48; 0x69]; []; [0x21]]
           eq_refl eq_refl eq_refl eq_refl eq_refl ltac:(cbn; lia)).
Defined.

(** X23.  The send buffer holds 256 messages: on a fresh connection whose write
    pump has not run, the first 256 calls of [Send] return [nil], and
    every call after them returns the error "send buffer full" and changes
    nothing. *)
Theorem send_buffer_holds_256 c (ms : list (list Z)) :
  (length ms ≤ 256)%nat →
  ∃ wsc', sendAll (newWebSocketConn c) ms = Some wsc' ∧
    Chan.buf (SendChan wsc') = ms ∧
    ∀ m, if decide (length ms < 256)%nat
         then ∃ wsc'', Send wsc' m = Done wsc''
                       ∧ Chan.buf (SendChan wsc'') = ms ++ [m]
         else Send wsc' m = Failed ErrBufferFull.
Proof.
  intros Hfit. rewrite sendAll_appends; [|done|done|cbn; lia].
  eexists. split; [reflexivity|]. split; [reflexivity|]. intros m.
  unfold Send, Chan.trySend, Chan.send.
  cbn [Closed SendChan newWebSocketConn Chan.make Chan.buf Chan.cap
       Chan.closed app].
  destruct (decide (length ms < 256)%nat) as [Hlt|Hlt].
  - by eexists.
  - reflexivity.
Qed.

Lemma send_buffer_holds_256_witness :
  ∃ wsc', sendAll (newWebSocketConn (newConnection [])) (repeat [0x61] 256)
          = Some wsc' ∧
    ∀ m, Send wsc' m = Failed ErrBufferFull.
Proof.
  destruct (send_buffer_holds_256 (newConnection []) (repeat [0x61] 256))
    as (w & E & _ & H).
  - rewrite repeat_length. lia.
  - exists w. split; [exact E|]. intros m. specialize (H m).
    rewrite repeat_length in H. exact H.
Defined.

(** X24.  An incoming text or binary frame is unmasked and queued on
    [ReceiveChan] behind the messages already there; when the 256 places
    are taken the message is dropped.  Either way the frame is consumed,
    nothing else changes and the read pump goes on. *)
Theorem data_frame_delivered_or_dropped wsc c opcode key payload rest :
  conn wsc = Some c → Chan.closed (closeChan c) = false →
  Chan.closed (ReceiveChan wsc) = false →
  opcode = OpText ∨ opcode = OpBinary →
  length key = 4%nat → Z.of_nat (length payload) < 2 ^ 63 →
  input c = wireFrame (Z.lor 0x80 opcode) true key (unmask key 0 payload)
              ++ rest →
  let rc := ReceiveChan wsc in
  readPumpStep wsc
  = Done (mkWS (Some (with_input c rest)) (SendChan wsc)
               (if decide (length (Chan.buf rc) < Chan.cap rc)%nat
                then Chan.mkChan (Chan.buf rc ++ [payload]) (Chan.cap rc) false
                else rc)
               (Closed wsc), true).
Proof.
  intros Hc Hcc Hrc Hop Hkey Hlen Hin. cbv zeta.
  assert (Hrange : 0 ≤ opcode < 16)
    by (unfold OpText, OpBinary in Hop; lia).
  unfold readPumpStep. rewrite Hc, Hcc, Hin.
  decode_masked Hrange.
  rewrite decide_True by done.
  unfold Chan.trySend, Chan.send.
  unfold with_conn. cbn [ReceiveChan SendChan conn Closed]. rewrite Hrc.
  by destruct (decide (length (Chan.buf (ReceiveChan wsc))
                       < Chan.cap (ReceiveChan wsc))%nat).
Qed.

Lemma data_frame_delivered_or_dropped_witness :
  readPumpStep (newWebSocketConn
                  (newConnection [0x81; 0x82; 1; 2; 3; 4; 0x49; 0x6b]))
  = Done (mkWS (Some (newConnection [])) (Chan.make 256)
               (Chan.mkChan [[0x48; 0x69]] 256 false) false, true).
Proof.
  exact (data_frame_delivered_or_dropped
           (newWebSocketConn
              (newConnection [0x81; 0x82; 1; 2; 3; 4; 0x49; 0x6b]))
           (newConnection [0x81; 0x82; 1; 2; 3; 4; 0x49; 0x6b])
           OpText [1; 2; 3; 4] [0x48; 0x69] []
           eq_refl eq_refl eq_refl (or_introl eq_refl) eq_refl eq_refl
           eq_refl).
Defined.

Ltac opcodes :=
  unfold OpContinuation, OpText, OpBinary, OpClose, OpPing, OpPong in *.

(** X25.  A ping is answered at once with a pong that carries the same payload,
    written to the stream as an unmasked final frame; the frame is
    consumed and the read pump goes on.  When the stream refuses the
    write, the error is dropped and the pump goes on all the same. *)
Theorem ping_is_answered wsc c key payload rest :
  conn wsc = Some c → Chan.closed (closeChan c) = false →
  length key = 4%nat → Z.of_nat (length payload) < 2 ^ 63 →
  input c = wireFrame (Z.lor 0x80 OpPing) true key (unmask key 0 payload)
              ++ rest →
  readPumpStep wsc
  = Done (if broken (output c)
          then with_conn wsc (with_input c rest)
          else with_conn wsc
                 (with_output (with_input c rest)
                    (mkWriter (written (output c)
                               ++ encodeFrame OpPong payload) false)),
          true).
Proof.
  intros Hc Hcc Hkey Hlen Hin.
  assert (Hrange : 0 ≤ OpPing < 16) by (opcodes; lia).
  unfold readPumpStep. rewrite Hc, Hcc, Hin. decode_masked Hrange.
  destruct (decide (OpPing = OpText ∨ OpPing = OpBinary)) as [Hd|_];
    [exfalso; opcodes; lia|].
  destruct (decide (OpPing = OpPing)) as [_|Hd]; [|by destruct Hd].
  cbn [with_input output]. destruct (output c) as [o br] eqn:Eo.
  destruct br; cbn [broken written].
  - rewrite writeFrame_broken. reflexivity.
  - rewrite writeFrame_ok, encodeFrame_eq. reflexivity.
Qed.

Lemma ping_is_answered_witness :
  ∃ wsc' c',
    readPumpStep (newWebSocketConn
                    (newConnection [0x89; 0x82; 1; 2; 3; 4; 0x49; 0x6b]))
    = Done (wsc', true) ∧
    conn wsc' = Some c' ∧ input c' = [] ∧
    written (output c') = [0x8A; 0x02; 0x48; 0x69].
Proof.
  eexists _, _. split; [|split; [|split]].
  - exact (ping_is_answered
             (newWebSocketConn
                (newConnection [0x89; 0x82; 1; 2; 3; 4; 0x49; 0x6b]))
             (newConnection [0x89; 0x82; 1; 2; 3; 4; 0x49; 0x6b])
             [1; 2; 3; 4] [0x48; 0x69] []
             eq_refl eq_refl eq_refl eq_refl eq_refl).
  - reflexivity.
  - reflexivity.
  - reflexivity.
Defined.

(** X26.  Pong frames, continuation frames and frames with a reserved opcode
    are consumed and have no other effect: nothing is queued, nothing is
    written, and the read pump goes on. *)
Theorem other_frames_are_skipped wsc c opcode key payload rest :
  conn wsc = Some c → Chan.closed (closeChan c) = false →
  0 ≤ opcode < 16 →
  opcode ≠ OpText → opcode ≠ OpBinary → opcode ≠ OpPing →
  opcode ≠ OpClose →
  length key = 4%nat → Z.of_nat (length payload) < 2 ^ 63 →
  input c = wireFrame (Z.lor 0x80 opcode) true key (unmask key 0 payload)
              ++ rest →
  readPumpStep wsc = Done (with_conn wsc (with_input c rest), true).
Proof.
  intros Hc Hcc Hrange Ht Hb Hp Hcl Hkey Hlen Hin.
  unfold readPumpStep. rewrite Hc, Hcc, Hin. decode_masked Hrange.
  destruct (decide (opcode = OpText ∨ opcode = OpBinary)) as [[Hd|Hd]|_];
    [by destruct Ht|by destruct Hb|].
  destruct (decide (opcode = OpPing)) as [Hd|_]; [by destruct Hp|].
  destruct (decide (opcode = OpPong)) as [_|_]; [reflexivity|].
  destruct (decide (opcode = OpClose)) as [Hd|_]; [by destruct Hcl|].
  reflexivity.
Qed.

Lemma other_frames_are_skipped_witness :
  readPumpStep (newWebSocketConn
                  (newConnection [0x8A; 0x80; 1; 2; 3; 4; 0x81; 0x00]))
  = Done (newWebSocketConn (newConnection [0x81; 0x00]), true).
Proof.
  apply (other_frames_are_skipped
           (newWebSocketConn
              (newConnection [0x8A; 0x80; 1; 2; 3; 4; 0x81; 0x00]))
           (newConnection [0x8A; 0x80; 1; 2; 3; 4; 0x81; 0x00])
           OpPong [1; 2; 3; 4] [] [0x81; 0x00]).
  - reflexivity.
  - reflexivity.
  - opcodes. lia.
  - discriminate.
  - discriminate.
  - discriminate.
  - discriminate.
  - reflexivity.
  - reflexivity.
  - reflexivity.
Defined.




(** X28.  When the stream refuses a write, the write pump stops and its
    deferred [Close] shuts the connection; the message it had taken from
    [SendChan] is lost, the ones behind it stay queued and are never
    written. *)
Theorem write_error_closes wsc c ev :
  reachable wsc → conn wsc = Some c → Closed wsc = false →
  broken (output c) = true →
  ev = OnPingTick ∨ (ev = OnSendChan ∧ Chan.buf (SendChan wsc) ≠ []) →
  ∃ wsc' c',
    writePumpStep ev wsc = Done (wsc', false) ∧
    Closed wsc' = true ∧ conn wsc' = Some c' ∧
    netConnCloses c' = 1%nat ∧ output c' = output c ∧
    Chan.buf (SendChan wsc')
    = match ev with
      | OnSendChan => tail (Chan.buf (SendChan wsc))
      | _ => Chan.buf (SendChan wsc)
      end.
Proof.
  intros Hr Hc Hopen Hbr Hev.
  assert (Hco := reachable_coherent _ Hr).
  destruct (output c) as [o br] eqn:Eo. cbn [broken] in Hbr. subst br.
  unpack_coherent Hco. unfold writePumpStep. cbn [conn output].
  destruct Hev as [->|[-> Hne]].
  - rewrite writeFrame_broken. eexists _, _. split; [reflexivity|].
    by split_and!.
  - unfold Chan.recv. cbn [SendChan Chan.buf] in *.
    match goal with
    | |- context [match ?b with [] => _ | _ :: _ => _ end] =>
        destruct b as [|m ms]; [by destruct Hne|]
    end.
    rewrite writeFrame_broken. eexists _, _. split; [reflexivity|].
    by split_and!.
Qed.

Lemma write_error_closes_witness :
  let c := with_output (newConnection []) (mkWriter [] true) in
  let wsc := mkWS (Some c) (Chan.mkChan [[0x48]; [0x69]] 256 false)
                  (Chan.make 256) false in
  ∃ wsc' c',
    writePumpStep OnSendChan wsc = Done (wsc', false) ∧
    Closed wsc' = true ∧ conn wsc' = Some c' ∧
    netConnCloses c' = 1%nat ∧ output c' = mkWriter [] true ∧
    Chan.buf (SendChan wsc') = [[0x69]].
Proof.
  cbv zeta.
  apply (write_error_closes
           (mkWS (Some (with_output (newConnection []) (mkWriter [] true)))
                 (Chan.mkChan [[0x48]; [0x69]] 256 false)
                 (Chan.make 256) false)
           (with_output (newConnection []) (mkWriter [] true)) OnSendChan).
  - apply (reach_act
             (mkWS (Some (with_output (newConnection []) (mkWriter [] true)))
                   (Chan.mkChan [[0x48]] 256 false) (Chan.make 256) false)
             (ActSend [0x69])); [|reflexivity].
    apply (reach_act
             (with_conn (newWebSocketConn (newConnection []))
                (with_output (newConnection [])
                   (mkWriter (written (output (newConnection []))) true)))
             (ActSend [0x48])); [|reflexivity].
    apply (reach_break (newWebSocketConn (newConnection []))
             (newConnection [])); [apply reach_new|reflexivity].
  - reflexivity.
  - reflexivity.
  - reflexivity.
  - right. split; [reflexivity|discriminate].
Defined.

Lemma sha1_sum_length msg : length (sha1_sum msg) = 20%nat.
Proof.
  unfold sha1_sum.
  destruct (foldl sha1_block sha1_init _) as [[[[h0 h1] h2] h3] h4].
  by rewrite !length_app, !length_be_put.
Qed.

(** X29.  The accept token of the handshake always has 28 characters and ends
    with the padding character, whatever key the client sent: it is the
    base64 form of a 20-byte digest. *)
Theorem accept_key_has_28_chars (key : str) :
  length (generateAcceptKey key) = 28%nat ∧
  last (generateAcceptKey key) = Some "="%char.
Proof.
  unfold generateAcceptKey, EncodeToString.
  pose proof (sha1_sum_length (bytes_of_str (key ++ WebSocketGUID))) as Hl.
  destruct (sha1_sum _) as [|b1 l]; [done|].
  do 19 (destruct l as [|? l]; [done|]).
  destruct l; [|done]. split; reflexivity.
Qed.


End WSFacts.
